(** * The [stats] pipe of LogsQL: a shallow embedding and its properties

    The development follows two source files of package [logstorage]:

    - the file of [pipeStats] (in the sources it is the second part of
      [lib/protoparser/opentelemetry/firehose/parser.go]): the plan, the
      per-worker shards, the state-size budget, [flush] (merge and emit)
      and the parser of the [stats] clause;
    - [lib/logstorage/stats_row_any.go]: the [row_any] aggregator;
    - the file of package [syslog]: the reader that splits a stream into
      syslog messages (module [Syslog], at the end of the definitions).

    Go values are modelled as follows.  A Go [string] and a [[]byte] are both
    sequences of bytes: they are [string]s here.  [int], [int64] and
    [uint64] are integers in [Z] with the wrap-around written out where the
    code does arithmetic on them ([wrap64]).  A [float64] is a [spec_float].
    A [map[string]*pipeStatsGroup] is a [gmap string pipeStatsGroup].  A run
    time panic is the [Panic] outcome of the [res] monad. *)

From Stdlib Require Import ZArith NArith List String Ascii Bool Lia.
From Stdlib Require Import Floats.SpecFloat.
From Stdlib Require DecimalString.
From stdpp Require Import base gmap strings list fin_maps.
From Equations Require Import Equations.
Import ListNotations.

Open Scope Z_scope.

(** ** Go integers *)

(** Two's complement wrap-around of a 64-bit signed integer. *)
Definition wrap64 (z : Z) : Z := (z + 2 ^ 63) mod 2 ^ 64 - 2 ^ 63.

Definition int64_range (z : Z) : Prop := - 2 ^ 63 <= z < 2 ^ 63.

(** [len(s)] of a Go string or slice, as an [int]. *)
Definition len (s : string) : Z := Z.of_nat (String.length s).

(** ** Outcomes: a value or a run time panic *)

Inductive res (A : Type) : Type :=
| Ok (a : A)
| Panic (msg : string).
Arguments Ok {A} a.
Arguments Panic {A} msg.

#[global] Instance res_bind : MBind res := fun A B k r =>
  match r with
  | Ok a => k a
  | Panic msg => Panic msg
  end.

#[global] Instance res_ret : MRet res := fun A a => Ok a.

(** [a[i]] on a Go slice: a run time panic when [i] is out of range. *)
Definition index {A : Type} (a : list A) (i : nat) : res A :=
  match a !! i with
  | Some x => Ok x
  | None => Panic "index out of range"
  end.

(** ** Blocks of rows *)

(** Modelled from the spec: the block reader ([blockResult] and
    [blockResultColumn] are not among the sources).  A block is a batch of
    [rowsLen] rows laid out as columns; a column has a name and its values,
    one per row, or a single value when the column is constant. *)
Record blockResultColumn : Type := {
  c_name : string;
  isConst : bool;
  valuesEncoded : list string
}.

Record blockResult : Type := {
  rowsLen : nat;
  getColumns : list blockResultColumn
}.

(** [br.reset()]: the block with no rows and no columns. *)
Definition blockResult_reset : blockResult :=
  {| rowsLen := 0; getColumns := [] |}.

(** Modelled from the spec: [br.getColumnByName(name)].  A column the block
    does not have reads as a constant column with the empty value. *)
Definition getColumnByName (br : blockResult) (name : string) : blockResultColumn :=
  match List.find (fun c => String.eqb (c_name c) name) (getColumns br) with
  | Some c => c
  | None => {| c_name := name; isConst := true; valuesEncoded := [""%string] |}
  end.

(** Modelled from the spec: [c.getValueAtRow(br, rowIdx)]. *)
Definition getValueAtRow (c : blockResultColumn) (br : blockResult) (rowIdx : nat)
  : res string :=
  if isConst c then index (valuesEncoded c) 0 else index (valuesEncoded c) rowIdx.

(** ** Fields and their JSON form *)

Record Field : Type := {
  Name : string;
  Value : string
}.

Definition dquote : ascii := ascii_of_nat 34.
Definition backslash : ascii := ascii_of_nat 92.

(** Modelled from the spec: [MarshalFieldsToJSON(dst, fields)] is not among
    the sources.  It appends the fields as one JSON object, each field as
    a quoted name, a colon and a quoted value.  The model escapes the
    quote and the backslash and leaves every other byte as it is. *)
Fixpoint jsonEscape (s : string) : string :=
  match s with
  | EmptyString => EmptyString
  | String a s' =>
      if Ascii.eqb a dquote || Ascii.eqb a backslash
      then String backslash (String a (jsonEscape s'))
      else String a (jsonEscape s')
  end.

Definition jsonQuote (s : string) : string :=
  String dquote (jsonEscape s) +:+ String dquote "".

Definition marshalFieldToJSON (f : Field) : string :=
  jsonQuote (Name f) +:+ ":" +:+ jsonQuote (Value f).

Definition MarshalFieldsToJSON (dst : string) (fields : list Field) : string :=
  dst +:+ "{" +:+ String.concat "," (List.map marshalFieldToJSON fields) +:+ "}".

(** ** [row_any]: stats_row_any.go *)

Module RowAny.

Record statsRowAny : Type := {
  sa_fields : list string
}.

(** Modelled from the spec: [statsFuncFieldsToString(fields)] is not among
    the sources; the empty list of fields stands for all the fields. *)
Definition statsFuncFieldsToString (fields : list string) : string :=
  if (List.length fields =? 0)%nat then "*"%string else String.concat ", " fields.

Definition statsRowAny_String (sa0 : statsRowAny) : string :=
  "row_any(" +:+ statsFuncFieldsToString (sa_fields sa0) +:+ ")".

Record statsRowAnyProcessor : Type := {
  sa : statsRowAny;
  captured : bool;
  fields : list Field
}.

(** The processor a fresh [newStatsRowAnyProcessor] gives, with [sap.sa = sa]. *)
Definition newStatsProcessor (sa0 : statsRowAny) : statsRowAnyProcessor :=
  {| sa := sa0; captured := false; fields := [] |}.

(** One round of either loop of [updateState]: the value of column [c] at
    the row is appended to [fields] and its size is added to
    [stateSizeIncrease]. *)
Definition appendField (br : blockResult) (rowIdx : nat)
    (acc : list Field * Z) (c : blockResultColumn) : res (list Field * Z) :=
  v ← getValueAtRow c br rowIdx;
  Ok (fst acc ++ [{| Name := c_name c; Value := v |}],
      snd acc + (len (c_name c) + len v)).

Fixpoint appendFields (br : blockResult) (rowIdx : nat)
    (cs : list blockResultColumn) (acc : list Field * Z) : res (list Field * Z) :=
  match cs with
  | [] => Ok acc
  | c :: cs' =>
      acc' ← appendField br rowIdx acc c;
      appendFields br rowIdx cs' acc'
  end.

(** [sap.updateState(br, rowIdx)], called with [captured] already set. *)
Definition updateState (sap : statsRowAnyProcessor) (br : blockResult) (rowIdx : nat)
  : res (statsRowAnyProcessor * Z) :=
  let fetchFields := sa_fields (sa sap) in
  let cs :=
    if (List.length fetchFields =? 0)%nat then getColumns br
    else List.map (getColumnByName br) fetchFields in
  '(fields', stateSizeIncrease) ← appendFields br rowIdx cs (fields sap, 0);
  Ok ({| sa := sa sap; captured := captured sap; fields := fields' |},
      stateSizeIncrease).

Definition setCaptured (sap : statsRowAnyProcessor) : statsRowAnyProcessor :=
  {| sa := sa sap; captured := true; fields := fields sap |}.

Definition updateStatsForAllRows (sap : statsRowAnyProcessor) (br : blockResult)
  : res (statsRowAnyProcessor * Z) :=
  if (rowsLen br =? 0)%nat then Ok (sap, 0)
  else if captured sap then Ok (sap, 0)
  else updateState (setCaptured sap) br 0.

Definition updateStatsForRow (sap : statsRowAnyProcessor) (br : blockResult)
    (rowIdx : nat) : res (statsRowAnyProcessor * Z) :=
  if captured sap then Ok (sap, 0)
  else updateState (setCaptured sap) br rowIdx.

(** [sap.mergeState(src)]: the state of the receiver afterwards. *)
Definition mergeState (sap src : statsRowAnyProcessor) : statsRowAnyProcessor :=
  if captured sap then sap
  else {| sa := sa sap; captured := captured src; fields := fields src |}.

(** [sap.finalizeStats(dst)] *)
Definition finalizeStats (sap : statsRowAnyProcessor) (dst : string) : string :=
  MarshalFieldsToJSON dst (fields sap).

End RowAny.

(** ** The key codec *)

Definition byte_of_Z (z : Z) : ascii := ascii_of_N (Z.to_N (z mod 256)).
Definition Z_of_byte (b : ascii) : Z := Z.of_N (N_of_ascii b).

(** [s[n:]] and [s[:n]] for [n <= len(s)]. *)
Fixpoint str_drop (n : nat) (s : string) : string :=
  match n, s with
  | S n', String _ s' => str_drop n' s'
  | _, _ => s
  end.

Fixpoint str_take (n : nat) (s : string) : string :=
  match n, s with
  | S n', String a s' => String a (str_take n' s')
  | _, _ => ""%string
  end.

Module encoding.

(** Modelled from the spec: [lib/encoding] is not among the sources.
    [MarshalBytes(dst, b)] appends to [dst] the length of [b] as a varint and
    then the bytes of [b].  The varint is the one of Go's [encoding/binary]:
    seven bits per byte, least significant group first, the high bit set on
    every byte but the last. *)
Equations? putUvarint (x : Z) : string by wf (Z.to_nat x) lt :=
  putUvarint x with decide (128 <= x) => {
    | left _ => String (byte_of_Z (Z.lor (x mod 256) 128)) (putUvarint (Z.shiftr x 7));
    | right _ => String (byte_of_Z x) ""
  }.
Proof.
  rewrite Z.shiftr_div_pow2 by lia.
  apply Z2Nat.inj_lt; try lia.
  - apply Z.div_pos; lia.
  - apply Z.div_lt; lia.
Qed.

Definition MarshalVarUint64 (dst : string) (u : Z) : string :=
  dst +:+ putUvarint (u mod 2 ^ 64).

Definition MarshalBytes (dst b : string) : string :=
  MarshalVarUint64 dst (len b) +:+ b.

(** Modelled from the spec: [binary.Uvarint], the decoder of the varint.  It
    returns the value and the number of bytes read; the number is [0] when
    the buffer ends early and negative when the value overflows 64 bits. *)
Fixpoint uvarint (buf : string) (i : nat) (x s : Z) : Z * Z :=
  match buf with
  | EmptyString => (0, 0)
  | String b buf' =>
      if (i =? 10)%nat then (0, - (Z.of_nat i + 1))
      else if Z_of_byte b <? 128 then
        if (i =? 9)%nat && (1 <? Z_of_byte b) then (0, - (Z.of_nat i + 1))
        else (Z.lor x (Z.shiftl (Z_of_byte b) s mod 2 ^ 64), Z.of_nat i + 1)
      else uvarint buf' (S i) (Z.lor x (Z.shiftl (Z.land (Z_of_byte b) 127) s)) (s + 7)
  end.

Definition UnmarshalVarUint64 (src : string) : Z * Z := uvarint src 0 0 0.

(** Modelled from the spec: [UnmarshalBytes(src)] reads one length-prefixed
    fragment from the start of [src].  It returns the fragment and the
    number of bytes it took with its prefix, or [0] when [src] does not hold
    a whole fragment. *)
Definition UnmarshalBytes (src : string) : string * Z :=
  let '(n, nSize) := UnmarshalVarUint64 src in
  if nSize <=? 0 then (""%string, 0)
  else if len src <? nSize + n then (""%string, 0)
  else (str_take (Z.to_nat n) (str_drop (Z.to_nat nSize) src), nSize + n).

End encoding.

(** ** The plan: pipe_stats.go *)

Definition float64 : Type := spec_float.

(** The zero value of a [float64] field. *)
Definition float64_zero : float64 := S754_zero false.

(** [float64(n)] for an integer [n]. *)
Definition float64_of_Z (n : Z) : float64 := binary_normalize 53 1024 n 0 false.

(** [byStatsField] represents the [by (...)] part of the [pipeStats]. *)
Record byStatsField : Type := {
  bf_name : string;
  bucketSizeStr : string;
  bucketSize : float64;
  bucketOffsetStr : string;
  bucketOffset : float64
}.

(** The [filter] interface, as far as pipe_stats.go uses it.  The bitmap of
    a block has one bit per row; [applyToBlockResult] clears the bits of the
    rows the filter rejects.  [filter_neededFields] is what
    [iff.updateNeededFields] adds to an empty set of fields. *)
Class IfFilter (iffilter : Type) : Type := {
  filter_String : iffilter -> string;
  applyToBlockResult : iffilter -> blockResult -> list bool -> list bool;
  filter_neededFields : iffilter -> list string
}.

(** The [String()] method of a [statsFunc]. *)
Class Stringer (A : Type) : Type := {
  statsFunc_String : A -> string
}.

(** The interfaces [statsFunc] and [statsProcessor].  A method that changes
    its receiver returns the receiver's new state. *)
Class StatsFunc (statsFunc statsProcessor : Type) : Type := {
  newStatsProcessor : statsFunc -> statsProcessor * Z;
  updateStatsForAllRows : statsProcessor -> blockResult -> res (statsProcessor * Z);
  updateStatsForRow : statsProcessor -> blockResult -> nat -> res (statsProcessor * Z);
  mergeState : statsProcessor -> statsProcessor -> res statsProcessor;
  finalizeStats : statsProcessor -> string
}.

(** Helpers of the package that are not among the sources. *)
Class Helpers : Type := {
  quoteTokenIfNeeded : string -> string;
  getCanonicalColumnName : string -> string;
  (* [br.getBucketedValue(v, bf)] *)
  getBucketedValue : blockResult -> string -> byStatsField -> string;
  (* the [%q] verb of [fmt] *)
  fmt_q : string -> string;
  tryParseFloat64 : string -> float64 * bool;
  tryParseDuration : string -> Z * bool;
  tryParseBytes : string -> Z * bool;
  tryParseIPv4Mask : string -> Z * bool
}.

Record pipeStatsFunc (statsFunc iffilter : Type) : Type := {
  psf_f : statsFunc;
  neededFieldsForFunc : list string;
  psf_iff : option iffilter;
  resultName : string
}.
Arguments psf_f {statsFunc iffilter} _.
Arguments neededFieldsForFunc {statsFunc iffilter} _.
Arguments psf_iff {statsFunc iffilter} _.
Arguments resultName {statsFunc iffilter} _.

Record pipeStats (statsFunc iffilter : Type) : Type := {
  byFields : list byStatsField;
  funcs : list (pipeStatsFunc statsFunc iffilter)
}.
Arguments byFields {statsFunc iffilter} _.
Arguments funcs {statsFunc iffilter} _.

Definition stateSizeBudgetChunk : Z := Z.shiftl 1 20.

Record pipeStatsGroup (statsProcessor : Type) : Type := {
  sfps : list statsProcessor
}.
Arguments sfps {statsProcessor} _.

(** [pipeStatsProcessorShardNopad] without [ps] (the plan is an argument of
    the functions below) and without [bms], [brs] and [brsBuf], which
    [applyPerFunctionFilters] writes in full before it reads them. *)
Record pipeStatsProcessorShard (statsProcessor : Type) : Type := {
  sh_m : gmap string (pipeStatsGroup statsProcessor);
  columnValues : list (list string);
  keyBuf : string;
  sh_stateSizeBudget : Z
}.
Arguments sh_m {statsProcessor} _.
Arguments columnValues {statsProcessor} _.
Arguments keyBuf {statsProcessor} _.
Arguments sh_stateSizeBudget {statsProcessor} _.

Record resultColumn : Type := {
  rc_name : string;
  rc_values : list string
}.

(** [psp.stopCh] is read through [needStop] only: [stopCh k] is the answer
    of the poll number [k], and [polls] counts the polls so far.
    [cancelCalls] counts the calls of [psp.cancel], and [ppBase_blocks]
    holds the result columns of every block handed to
    [psp.ppBase.writeBlock], the latest first. *)
Record pipeStatsProcessor (statsFunc iffilter statsProcessor : Type) : Type := {
  ps : pipeStats statsFunc iffilter;
  stopCh : nat -> bool;
  polls : nat;
  cancelCalls : nat;
  ppBase_blocks : list (list resultColumn);
  shards : list (pipeStatsProcessorShard statsProcessor);
  maxStateSize : Z;
  stateSizeBudget : Z
}.
Arguments ps {statsFunc iffilter statsProcessor} _.
Arguments stopCh {statsFunc iffilter statsProcessor} _.
Arguments polls {statsFunc iffilter statsProcessor} _.
Arguments cancelCalls {statsFunc iffilter statsProcessor} _.
Arguments ppBase_blocks {statsFunc iffilter statsProcessor} _.
Arguments shards {statsFunc iffilter statsProcessor} _.
Arguments maxStateSize {statsFunc iffilter statsProcessor} _.
Arguments stateSizeBudget {statsFunc iffilter statsProcessor} _.

(** Sizes of [unsafe.Sizeof] on a 64-bit platform: a string header, a
    pointer and an interface value. *)
Definition sizeof_string : Z := 16.
Definition sizeof_pointer : Z := 8.
Definition sizeof_interface : Z := 16.

(** [for i := range n] with a body that may panic. *)
Fixpoint forRange {S : Type} (body : nat -> S -> res S) (i n : nat) (s : S) : res S :=
  match n with
  | O => Ok s
  | Datatypes.S n' => s' ← body i s; forRange body (Datatypes.S i) n' s'
  end.

Definition areConstValues (values : list string) : bool :=
  match values with
  | [] => false
  | v :: rest => forallb (fun x => String.eqb v x) rest
  end.

Section Shard.
Context {statsFunc statsProcessor iffilter : Type}.
Context `{SF : StatsFunc statsFunc statsProcessor} `{IFI : IfFilter iffilter}.
Context `{HLP : Helpers}.

Abbreviation plan := (pipeStats statsFunc iffilter).
Abbreviation shard := (pipeStatsProcessorShard statsProcessor).
Abbreviation group := (pipeStatsGroup statsProcessor).

(** Modelled from the spec: [c.getValues(br)], one value per row. *)
Definition getValues (c : blockResultColumn) (br : blockResult) : res (list string) :=
  if isConst c then v ← index (valuesEncoded c) 0; Ok (replicate (rowsLen br) v)
  else Ok (valuesEncoded c).

(** Modelled from the spec: [c.getValuesBucketed(br, bf)], the bucketed
    representative of the column's value at every row. *)
Definition getValuesBucketed (c : blockResultColumn) (br : blockResult)
    (bf : byStatsField) : res (list string) :=
  values ← getValues c br;
  Ok (List.map (fun v => getBucketedValue br v bf) values).

(** Modelled from the spec: [brDst.initFromFilterNeededColumns(brSrc, bm,
    neededFields)], the projection of [brSrc] on the needed columns and on
    the rows whose bit is set. *)
Definition selectRows {A : Type} (bm : list bool) (l : list A) : list A :=
  List.map snd (List.filter fst (List.combine bm l)).

Definition initFromFilterNeededColumns (brSrc : blockResult) (bm : list bool)
    (neededFields : list string) : blockResult :=
  {| rowsLen := List.length (List.filter id bm);
     getColumns :=
       List.map (fun name =>
         let c := getColumnByName brSrc name in
         if isConst c then c
         else {| c_name := c_name c; isConst := false;
                 valuesEncoded := selectRows bm (valuesEncoded c) |})
         neededFields |}.

(** The body of the loop of [applyPerFunctionFilters]: the block that the
    function sees. *)
Definition applyPerFunctionFilter (brSrc : blockResult)
    (fn : pipeStatsFunc statsFunc iffilter) : blockResult :=
  match psf_iff fn with
  | None => brSrc
  | Some iff0 =>
      let bm := applyToBlockResult iff0 brSrc (replicate (rowsLen brSrc) true) in
      if forallb id bm then brSrc
      else if forallb negb bm then blockResult_reset
      else initFromFilterNeededColumns brSrc bm (neededFieldsForFunc fn)
  end.

Definition applyPerFunctionFilters (p : plan) (brSrc : blockResult) : list blockResult :=
  List.map (applyPerFunctionFilter brSrc) (funcs p).

(** The loop of [getPipeStatsGroup] that creates the processors of a new
    group and charges their sizes. *)
Fixpoint newStatsProcessors (fs : list (pipeStatsFunc statsFunc iffilter)) (budget : Z)
  : list statsProcessor * Z :=
  match fs with
  | [] => ([], budget)
  | fn :: fs' =>
      let '(sfp, stateSize) := newStatsProcessor (psf_f fn) in
      let '(rest, budget') := newStatsProcessors fs' (wrap64 (budget - stateSize)) in
      (sfp :: rest, budget')
  end.

Definition getPipeStatsGroup (p : plan) (key : string) (sh : shard) : group * shard :=
  match sh_m sh !! key with
  | Some psg => (psg, sh)
  | None =>
      let '(sfps0, budget) := newStatsProcessors (funcs p) (sh_stateSizeBudget sh) in
      let psg := {| sfps := sfps0 |} in
      (psg,
       {| sh_m := <[key := psg]> (sh_m sh);
          columnValues := columnValues sh;
          keyBuf := keyBuf sh;
          sh_stateSizeBudget :=
            wrap64 (budget - (len key + (sizeof_string + sizeof_pointer
                                + sizeof_interface * Z.of_nat (List.length sfps0)))) |})
  end.

(** The loops of [psg.updateStatsForAllRows] and [psg.updateStatsForRow]:
    [upd] is the method called on every processor with its own block. *)
Fixpoint updateStatsLoop (upd : statsProcessor -> blockResult -> res (statsProcessor * Z))
    (l : list statsProcessor) (i : nat) (brs : list blockResult) (n : Z)
  : res (list statsProcessor * Z) :=
  match l with
  | [] => Ok ([], n)
  | sfp :: rest =>
      br ← index brs i;
      '(sfp', d) ← upd sfp br;
      '(rest', n') ← updateStatsLoop upd rest (S i) brs (wrap64 (n + d));
      Ok (sfp' :: rest', n')
  end.

Definition psg_updateStatsForAllRows (psg : group) (brs : list blockResult)
  : res (group * Z) :=
  '(l, n) ← updateStatsLoop updateStatsForAllRows (sfps psg) 0 brs 0;
  Ok ({| sfps := l |}, n).

Definition psg_updateStatsForRow (psg : group) (brs : list blockResult) (rowIdx : nat)
  : res (group * Z) :=
  '(l, n) ← updateStatsLoop (fun sfp br => updateStatsForRow sfp br rowIdx)
              (sfps psg) 0 brs 0;
  Ok ({| sfps := l |}, n).

(** [shard.stateSizeBudget -= upd(psg)] for the group [psg] that the shard
    holds under [key]: the group is updated in place. *)
Definition updateGroup (sh : shard) (key : string) (upd : group -> res (group * Z))
  : res shard :=
  match sh_m sh !! key with
  | None => Panic "nil pointer dereference"
  | Some psg =>
      '(psg', n) ← upd psg;
      Ok {| sh_m := <[key := psg']> (sh_m sh);
            columnValues := columnValues sh;
            keyBuf := keyBuf sh;
            sh_stateSizeBudget := wrap64 (sh_stateSizeBudget sh - n) |}
  end.

Definition setKeyBuf (sh : shard) (kb : string) : shard :=
  {| sh_m := sh_m sh; columnValues := columnValues sh; keyBuf := kb;
     sh_stateSizeBudget := sh_stateSizeBudget sh |}.

Definition setColumnValues (sh : shard) (cvs : list (list string)) : shard :=
  {| sh_m := sh_m sh; columnValues := cvs; keyBuf := keyBuf sh;
     sh_stateSizeBudget := sh_stateSizeBudget sh |}.

(** All the rows of the block go to the group of [key]. *)
Definition updateAllRowsAt (p : plan) (sh : shard) (key : string)
    (brs : list blockResult) : res shard :=
  let '(_, sh1) := getPipeStatsGroup p key sh in
  updateGroup sh1 key (fun psg => psg_updateStatsForAllRows psg brs).

(** The key of the [by (...)] values [vs]: [keyBuf = MarshalBytes(keyBuf, v)]
    for every value in turn, from the empty buffer. *)
Definition marshalKey (vs : list string) : string :=
  fold_left encoding.MarshalBytes vs ""%string.

(** One round of the row loop for a single [by] column.  The state is the
    shard and the local [keyBuf]; [psg] is the group of the shard under
    [keyBuf]. *)
Definition singleColumnRow (p : plan) (values : list string) (brs : list blockResult)
    (i : nat) (st : shard * string) : res (shard * string) :=
  let '(sh, kb) := st in
  v ← index values i;
  changed ← (if (i =? 0)%nat then Ok true
             else prev ← index values (i - 1); Ok (negb (String.eqb prev v)));
  let kb1 := if changed : bool then encoding.MarshalBytes "" v else kb in
  let sh1 := if changed then snd (getPipeStatsGroup p kb1 sh) else sh in
  sh2 ← updateGroup sh1 kb1 (fun psg => psg_updateStatsForRow psg brs i);
  Ok (sh2, kb1).

(** The loop that sets [sameValue] in the slowest path. *)
Fixpoint sameValueLoop (cvs : list (list string)) (i : nat) : res bool :=
  match cvs with
  | [] => Ok true
  | values :: rest =>
      if (i =? 0)%nat then Ok false
      else
        prev ← index values (i - 1);
        v ← index values i;
        if negb (String.eqb prev v) then Ok false else sameValueLoop rest i
  end.

(** The values of all the [by] columns at row [i]. *)
Fixpoint rowValues (cvs : list (list string)) (i : nat) : res (list string) :=
  match cvs with
  | [] => Ok []
  | values :: rest => v ← index values i; vs ← rowValues rest i; Ok (v :: vs)
  end.

Definition multiColumnRow (p : plan) (cvs : list (list string)) (brs : list blockResult)
    (i : nat) (st : shard * string) : res (shard * string) :=
  let '(sh, kb) := st in
  same ← sameValueLoop cvs i;
  let sameValue := (0 <? i)%nat && same in
  if sameValue then
    sh2 ← updateGroup sh kb (fun psg => psg_updateStatsForRow psg brs i);
    Ok (sh2, kb)
  else
    vs ← rowValues cvs i;
    let kb1 := marshalKey vs in
    let sh1 := snd (getPipeStatsGroup p kb1 sh) in
    sh2 ← updateGroup sh1 kb1 (fun psg => psg_updateStatsForRow psg brs i);
    Ok (sh2, kb1).

(** The loop that obtains the columns for [byFields]. *)
Fixpoint byColumnValues (br : blockResult) (bfs : list byStatsField)
  : res (list (list string)) :=
  match bfs with
  | [] => Ok []
  | bf :: rest =>
      values ← getValuesBucketed (getColumnByName br (bf_name bf)) br bf;
      cvs ← byColumnValues br rest;
      Ok (values :: cvs)
  end.

(** [shard.writeBlock(br)] *)
Definition shard_writeBlock (p : plan) (sh : shard) (br : blockResult) : res shard :=
  let brs := applyPerFunctionFilters p br in
  match byFields p with
  | [] =>
      (* Fast path - pass all the rows to a single group with empty key. *)
      updateAllRowsAt p sh "" brs
  | [bf] =>
      let c := getColumnByName br (bf_name bf) in
      if isConst c then
        v0 ← index (valuesEncoded c) 0;
        let kb := encoding.MarshalBytes "" (getBucketedValue br v0 bf) in
        updateAllRowsAt p (setKeyBuf sh kb) kb brs
      else
        values ← getValuesBucketed c br bf;
        if areConstValues values then
          v0 ← index values 0;
          let kb := encoding.MarshalBytes "" v0 in
          updateAllRowsAt p (setKeyBuf sh kb) kb brs
        else
          '(sh', kb) ← forRange (singleColumnRow p values brs) 0 (rowsLen br)
                          (sh, ""%string);
          Ok (setKeyBuf sh' kb)
  | bfs =>
      cvs ← byColumnValues br bfs;
      let sh0 := setColumnValues sh cvs in
      if forallb areConstValues cvs then
        vs ← rowValues cvs 0;
        let kb := marshalKey vs in
        sh' ← updateAllRowsAt p sh0 kb brs;
        Ok (setKeyBuf sh' kb)
      else
        '(sh', kb) ← forRange (multiColumnRow p cvs brs) 0 (rowsLen br)
                        (sh0, ""%string);
        Ok (setKeyBuf sh' kb)
  end.

End Shard.

(** ** The processor: budget, [writeBlock] and [flush] *)

(** What the loop at the head of [psp.writeBlock] comes to: the block is
    processed with the budgets [local] and [global], or it is dropped, with
    [psp.cancel] called or not. *)
Inductive budgetOutcome : Type :=
| Proceed (local global : Z)
| Dropped (local global : Z) (cancel : bool).

(** [for shard.stateSizeBudget < 0 { ... }].  [local] is negative where the
    chunk is added to it, so that this addition cannot wrap around. *)
Equations? stealBudget (local global : Z) : budgetOutcome
    by wf (Z.to_nat (- local)) lt :=
  stealBudget local global with decide (local < 0) => {
    | right _ => Proceed local global;
    | left Hneg =>
        let remaining := wrap64 (global - stateSizeBudgetChunk) in
        if remaining <? 0 then
          Dropped local remaining (0 <=? wrap64 (remaining + stateSizeBudgetChunk))
        else stealBudget (local + stateSizeBudgetChunk) remaining
  }.
Proof. unfold stateSizeBudgetChunk. change (Z.shiftl 1 20) with 1048576. lia. Qed.

(** [%d] of an integer. *)
Definition itoa (z : Z) : string := DecimalString.NilZero.string_of_int (Z.to_int z).

(** The loop of [flush] that unmarshals the values for [byFields] from a
    key.  A fragment that cannot be read is a panic. *)
Equations? decodeKey (kb : string) : res (list string) by wf (String.length kb) lt :=
  decodeKey EmptyString := Ok [];
  decodeKey (String a s) with encoding.UnmarshalBytes (String a s) => {
    | (v, nSize) with decide (nSize <= 0) => {
        | left _ => Panic "BUG: cannot unmarshal value from keyBuf";
        | right Hpos =>
            vs ← decodeKey (str_drop (Z.to_nat nSize) (String a s));
            Ok (v :: vs)
      }
  }.
Proof.
  assert (Hdrop : forall n t, (String.length (str_drop n t) <= String.length t)%nat).
  { induction n as [|n IH]; intros [|b t]; simpl; auto. }
  destruct (Z.to_nat nSize) as [|n] eqn:Hn; [lia|].
  simpl. specialize (Hdrop n s). lia.
Qed.

Definition appendResultColumnWithName (rcs : list resultColumn) (name : string)
  : list resultColumn :=
  rcs ++ [{| rc_name := name; rc_values := [] |}].

Definition addValue (rc : resultColumn) (v : string) : resultColumn :=
  {| rc_name := rc_name rc; rc_values := rc_values rc ++ [v] |}.

Definition resetValues (rc : resultColumn) : resultColumn :=
  {| rc_name := rc_name rc; rc_values := [] |}.

(** [for i, v := range values { rcs[i].addValue(v); valuesLen += len(v) }],
    with [len(values) = len(rcs)] checked before. *)
Fixpoint addValues (rcs : list resultColumn) (values : list string) (valuesLen : Z)
  : list resultColumn * Z :=
  match rcs, values with
  | rc :: rcs', v :: values' =>
      let '(rcs'', n) := addValues rcs' values' (wrap64 (valuesLen + len v)) in
      (addValue rc v :: rcs'', n)
  | _, _ => (rcs, valuesLen)
  end.

(** The state of the loop that writes the groups: the result columns, the
    running [valuesLen], the blocks written so far (the latest first), the
    polls of [stopCh], and whether a poll said to stop. *)
Record emitSt : Type := {
  em_rcs : list resultColumn;
  em_valuesLen : Z;
  em_blocks : list (list resultColumn);
  em_polls : nat;
  em_stopped : bool
}.

Section Processor.
Context {statsFunc statsProcessor iffilter : Type}.
Context `{SF : StatsFunc statsFunc statsProcessor} `{IFI : IfFilter iffilter}.
Context `{STR : Stringer statsFunc} `{HLP : Helpers}.

Abbreviation plan := (pipeStats statsFunc iffilter).
Abbreviation shard := (pipeStatsProcessorShard statsProcessor).
Abbreviation group := (pipeStatsGroup statsProcessor).
Abbreviation processor := (pipeStatsProcessor statsFunc iffilter statsProcessor).

(** [for key, psg := range m]: Go leaves the order of the iteration open.
    [rangeMap] is the order taken. *)
Variable rangeMap : gmap string group -> list (string * group).

Definition byStatsField_String (bf : byStatsField) : string :=
  let s := quoteTokenIfNeeded (bf_name bf) in
  if negb (String.eqb (bucketSizeStr bf) "") then
    let s1 := s +:+ ":" +:+ bucketSizeStr bf in
    if negb (String.eqb (bucketOffsetStr bf) "") then
      s1 +:+ " offset " +:+ bucketOffsetStr bf
    else s1
  else s.

Definition pipeStatsFunc_line (fn : pipeStatsFunc statsFunc iffilter) : string :=
  let line := statsFunc_String (psf_f fn) in
  let line1 :=
    match psf_iff fn with
    | Some iff0 => line +:+ " if (" +:+ filter_String iff0 +:+ ")"
    | None => line
    end in
  line1 +:+ " as " +:+ quoteTokenIfNeeded (resultName fn).

(** [ps.String()] *)
Definition pipeStats_String (p : plan) : res string :=
  let s := "stats "%string in
  let s1 :=
    if (0 <? List.length (byFields p))%nat then
      s +:+ "by (" +:+ String.concat ", " (List.map byStatsField_String (byFields p))
        +:+ ") "
    else s in
  if (List.length (funcs p) =? 0)%nat then
    Panic "BUG: pipeStats must contain at least a single statsFunc"
  else Ok (s1 +:+ String.concat ", " (List.map pipeStatsFunc_line (funcs p))).

Definition newShard : shard :=
  {| sh_m := ∅; columnValues := []; keyBuf := ""%string;
     sh_stateSizeBudget := stateSizeBudgetChunk |}.

(** [ps.newPipeProcessor(workersCount, stopCh, cancel, ppBase)].  [allowed]
    is [int64(float64(memory.Allowed()) * 0.3)]. *)
Definition newPipeProcessor (p : plan) (workersCount : nat) (stop : nat -> bool)
    (allowed : Z) : processor :=
  let maxStateSize0 :=
    Nat.iter workersCount (fun x => wrap64 (x - stateSizeBudgetChunk)) allowed in
  {| ps := p; stopCh := stop; polls := 0; cancelCalls := 0; ppBase_blocks := [];
     shards := replicate workersCount newShard;
     maxStateSize := maxStateSize0;
     stateSizeBudget := maxStateSize0 |}.

Definition setShard (sh : shard) (local : Z) : shard :=
  {| sh_m := sh_m sh; columnValues := columnValues sh; keyBuf := keyBuf sh;
     sh_stateSizeBudget := local |}.

(** [psp.writeBlock(workerID, br)] *)
Definition psp_writeBlock (workerID : nat) (br : blockResult) (psp : processor)
  : res processor :=
  if (rowsLen br =? 0)%nat then Ok psp
  else
    sh ← index (shards psp) workerID;
    match stealBudget (sh_stateSizeBudget sh) (stateSizeBudget psp) with
    | Dropped local global cancel =>
        Ok {| ps := ps psp; stopCh := stopCh psp; polls := polls psp;
              cancelCalls := if cancel then S (cancelCalls psp) else cancelCalls psp;
              ppBase_blocks := ppBase_blocks psp;
              shards := <[workerID := setShard sh local]> (shards psp);
              maxStateSize := maxStateSize psp;
              stateSizeBudget := global |}
    | Proceed local global =>
        sh' ← shard_writeBlock (ps psp) (setShard sh local) br;
        Ok {| ps := ps psp; stopCh := stopCh psp; polls := polls psp;
              cancelCalls := cancelCalls psp;
              ppBase_blocks := ppBase_blocks psp;
              shards := <[workerID := sh']> (shards psp);
              maxStateSize := maxStateSize psp;
              stateSizeBudget := global |}
    end.

(** The three ways a round of [psp.writeBlock] on a block with rows goes
    on, as states of the processor.  [stolen]: a chunk has moved from the
    global budget to the budget of the shard [sh] of the worker.
    [dropped]: the global budget is exhausted; the chunk is subtracted,
    [psp.cancel] is called when [cancel] is set, and no shard changes.
    [aggregated]: the shard has processed the block. *)
Definition stolen (workerID : nat) (sh : shard) (psp : processor) : processor :=
  {| ps := ps psp; stopCh := stopCh psp; polls := polls psp;
     cancelCalls := cancelCalls psp; ppBase_blocks := ppBase_blocks psp;
     shards := <[workerID := setShard sh (sh_stateSizeBudget sh + stateSizeBudgetChunk)]>
                 (shards psp);
     maxStateSize := maxStateSize psp;
     stateSizeBudget := wrap64 (stateSizeBudget psp - stateSizeBudgetChunk) |}.

Definition dropped (cancel : bool) (psp : processor) : processor :=
  {| ps := ps psp; stopCh := stopCh psp; polls := polls psp;
     cancelCalls := if cancel then S (cancelCalls psp) else cancelCalls psp;
     ppBase_blocks := ppBase_blocks psp;
     shards := shards psp;
     maxStateSize := maxStateSize psp;
     stateSizeBudget := wrap64 (stateSizeBudget psp - stateSizeBudgetChunk) |}.

Definition aggregated (workerID : nat) (sh : shard) (br : blockResult) (psp : processor)
  : res processor :=
  sh' ← shard_writeBlock (ps psp) sh br;
  Ok {| ps := ps psp; stopCh := stopCh psp; polls := polls psp;
        cancelCalls := cancelCalls psp; ppBase_blocks := ppBase_blocks psp;
        shards := <[workerID := sh']> (shards psp);
        maxStateSize := maxStateSize psp;
        stateSizeBudget := stateSizeBudget psp |}.

(** [for i, sfp := range spgBase.sfps { sfp.mergeState(psg.sfps[i]) }] *)
Fixpoint mergeGroups (base other : list statsProcessor) (i : nat)
  : res (list statsProcessor) :=
  match base with
  | [] => Ok []
  | sfp :: rest =>
      o ← index other i;
      sfp' ← mergeState sfp o;
      rest' ← mergeGroups rest other (S i);
      Ok (sfp' :: rest')
  end.

(** The state of the merge: the map [m] of the first shard, the number of
    polls of [stopCh], and whether a poll said to stop. *)
Record mergeSt : Type := {
  mg_m : gmap string group;
  mg_polls : nat;
  mg_stopped : bool
}.

(** The loop over the groups of one shard. *)
Fixpoint mergeEntries (stop : nat -> bool) (entries : list (string * group))
    (st : mergeSt) : res mergeSt :=
  match entries with
  | [] => Ok st
  | (key, psg) :: rest =>
      if mg_stopped st then Ok st
      else if stop (mg_polls st) then
        Ok {| mg_m := mg_m st; mg_polls := S (mg_polls st); mg_stopped := true |}
      else
        m' ← match mg_m st !! key with
             | None => Ok (<[key := psg]> (mg_m st))
             | Some spgBase =>
                 l ← mergeGroups (sfps spgBase) (sfps psg) 0;
                 Ok (<[key := {| sfps := l |}]> (mg_m st))
             end;
        mergeEntries stop rest
          {| mg_m := m'; mg_polls := S (mg_polls st); mg_stopped := false |}
  end.

(** The loop over the shards but the first. *)
Fixpoint mergeShards (stop : nat -> bool) (rest : list shard) (st : mergeSt)
  : res mergeSt :=
  match rest with
  | [] => Ok st
  | sh :: rest' =>
      if mg_stopped st then Ok st
      else st' ← mergeEntries stop (rangeMap (sh_m sh)) st; mergeShards stop rest' st'
  end.

Definition emitGroup (p : plan) (stop : nat -> bool) (key : string) (psg : group)
    (st : emitSt) : res emitSt :=
  if stop (em_polls st) then
    Ok {| em_rcs := em_rcs st; em_valuesLen := em_valuesLen st;
          em_blocks := em_blocks st; em_polls := S (em_polls st);
          em_stopped := true |}
  else
    values ← decodeKey key;
    if negb (List.length values =? List.length (byFields p))%nat then
      Panic "BUG: unexpected number of values decoded from keyBuf"
    else
      let values1 := values ++ List.map finalizeStats (sfps psg) in
      if negb (List.length values1 =? List.length (em_rcs st))%nat then
        Panic "BUG: len(values) must be equal to len(rcs)"
      else
        let '(rcs1, valuesLen1) := addValues (em_rcs st) values1 (em_valuesLen st) in
        if 1000000 <=? valuesLen1 then
          Ok {| em_rcs := List.map resetValues rcs1; em_valuesLen := 0;
                em_blocks := rcs1 :: em_blocks st; em_polls := S (em_polls st);
                em_stopped := false |}
        else
          Ok {| em_rcs := rcs1; em_valuesLen := valuesLen1;
                em_blocks := em_blocks st; em_polls := S (em_polls st);
                em_stopped := false |}.

Fixpoint emitGroups (p : plan) (stop : nat -> bool) (entries : list (string * group))
    (st : emitSt) : res emitSt :=
  match entries with
  | [] => Ok st
  | (key, psg) :: rest =>
      if em_stopped st then Ok st
      else st' ← emitGroup p stop key psg st; emitGroups p stop rest st'
  end.

(** The result columns at the start of the loop: one per [by] field, then
    one per function. *)
Definition initResultColumns (p : plan) : list resultColumn :=
  fold_left appendResultColumnWithName (List.map resultName (funcs p))
    (fold_left appendResultColumnWithName (List.map bf_name (byFields p)) []).

(** The names of the columns of the result: the [by] fields, then the
    result names of the functions. *)
Definition schemaNames (p : plan) : list string :=
  List.map bf_name (byFields p) ++ List.map resultName (funcs p).

(** A block of result columns that has the columns of the plan, in their
    order, with one value per row in each. *)
Definition hasSchema (p : plan) (rcs : list resultColumn) : Prop :=
  List.length rcs = (List.length (byFields p) + List.length (funcs p))%nat
  /\ List.map rc_name rcs = schemaNames p
  /\ exists rows, Forall (fun rc => List.length (rc_values rc) = rows) rcs.

Definition setShards (psp : processor) (shs : list shard) (npolls : nat)
    (blocks : list (list resultColumn)) : processor :=
  {| ps := ps psp; stopCh := stopCh psp; polls := npolls;
     cancelCalls := cancelCalls psp; ppBase_blocks := blocks;
     shards := shs; maxStateSize := maxStateSize psp;
     stateSizeBudget := stateSizeBudget psp |}.

Definition setMap (sh : shard) (m : gmap string group) : shard :=
  {| sh_m := m; columnValues := columnValues sh; keyBuf := keyBuf sh;
     sh_stateSizeBudget := sh_stateSizeBudget sh |}.

(** The first part of [flush] after the check of the budget: the states of
    the shards but the first are merged into the map [m] of the first
    shard.  The result is the state of the merge, the first shard and the
    other shards. *)
Definition mergeStates (psp : processor) : res (mergeSt * shard * list shard) :=
  sh0 ← index (shards psp) 0;
  let rest := List.tl (shards psp) in
  mst ← mergeShards (stopCh psp) rest
           {| mg_m := sh_m sh0; mg_polls := polls psp; mg_stopped := false |};
  Ok (mst, sh0, rest).

(** The special case of zero matching rows.  [shards] is by now the slice
    of the shards but the first, [rest] here: the group with the empty key
    is made in [shards[0]], and [m] becomes the map of that shard.  The
    result is the map whose groups are written and the shards of the
    processor afterwards. *)
Definition zeroRowsCase (p : plan) (sh0 : shard) (rest : list shard)
    (m : gmap string group) : res (gmap string group * list shard) :=
  if (List.length (byFields p) =? 0)%nat && (size m =? 0)%nat then
    sh1 ← index rest 0;
    let sh1' := snd (getPipeStatsGroup p "" sh1) in
    Ok (sh_m sh1', setMap sh0 m :: <[0%nat := sh1']> rest)
  else Ok (m, setMap sh0 m :: rest).

(** [psp.flush()]: the error returned ([None] is [nil]) and the processor
    afterwards.  The map [m] is the map of the first shard, which the merge
    changes in place.  A group moved to [m] stays in the map of its own
    shard as well; [flush] reads such a map again only when [m] is empty,
    and then no group has been moved. *)
Definition flush (psp : processor) : res (option string * processor) :=
  if stateSizeBudget psp <=? 0 then
    s ← pipeStats_String (ps psp);
    Ok (Some ("cannot calculate [" +:+ s +:+ "], since it requires more than "
              +:+ itoa (Z.quot (maxStateSize psp) (Z.shiftl 1 20))
              +:+ "MB of memory")%string, psp)
  else
    (* Merge states across shards *)
    '(mst, sh0, rest) ← mergeStates psp;
    if mg_stopped mst then
      Ok (None, setShards psp (setMap sh0 (mg_m mst) :: rest) (mg_polls mst)
                  (ppBase_blocks psp))
    else
      (* Write per-group states to ppBase *)
      '(m, shs2) ← zeroRowsCase (ps psp) sh0 rest (mg_m mst);
      est ← emitGroups (ps psp) (stopCh psp) (rangeMap m)
               {| em_rcs := initResultColumns (ps psp); em_valuesLen := 0;
                  em_blocks := ppBase_blocks psp; em_polls := mg_polls mst;
                  em_stopped := false |};
      if em_stopped est then
        Ok (None, setShards psp shs2 (em_polls est) (em_blocks est))
      else
        Ok (None, setShards psp shs2 (em_polls est) (em_rcs est :: em_blocks est)).

(** The one row that stands for no input: under the result name of every
    function, what a new processor of the function finalizes to. *)
Definition noInputRow (p : plan) : list resultColumn :=
  List.map (fun fn =>
              {| rc_name := resultName fn;
                 rc_values := [finalizeStats (fst (newStatsProcessor (psf_f fn)))] |})
    (funcs p).

(** A key of the plan: the encoding of as many values as the plan has [by]
    fields, each of them of a length that a Go string can have. *)
Definition keyOk (p : plan) (key : string) : Prop :=
  exists vs,
    key = marshalKey vs
    /\ List.length vs = List.length (byFields p)
    /\ Forall (fun v => len v < 2 ^ 63) vs.

(** The keys of a map of groups are keys of the plan. *)
Definition keysOk (p : plan) (m : gmap string group) : Prop :=
  forall key psg, m !! key = Some psg -> keyOk p key.

Definition shardsOk (p : plan) (shs : list shard) : Prop :=
  Forall (fun sh => keysOk p (sh_m sh)) shs.

(** What the loop that writes the groups keeps: the result columns have
    the columns of the plan and as many values each, and so has every
    block that the loop has written since the blocks [old]. *)
Definition emitInv (p : plan) (old : list (list resultColumn)) (st : emitSt) : Prop :=
  (exists rows,
      List.map rc_name (em_rcs st) = schemaNames p
      /\ Forall (fun rc => List.length (rc_values rc) = rows) (em_rcs st))
  /\ exists new, em_blocks st = new ++ old /\ Forall (hasSchema p) new.

(** The processors that a run reaches before [flush]: a new processor of
    the plan, and what [writeBlock] makes of a processor reached. *)
Inductive reachable (p : plan) : processor -> Prop :=
| reach_new (workersCount : nat) (stop : nat -> bool) (allowed : Z) :
    reachable p (newPipeProcessor p workersCount stop allowed)
| reach_writeBlock (psp psp' : processor) (workerID : nat) (br : blockResult) :
    reachable p psp ->
    psp_writeBlock workerID br psp = Ok psp' ->
    reachable p psp'.

End Processor.

(** ** The parser of the [stats] clause *)

(** The result of a parsing function: the value parsed and the lexer after
    it, or the error. *)
Inductive parsed (lexer A : Type) : Type :=
| Parsed (a : A) (lex : lexer)
| Failed (err : string).
Arguments Parsed {lexer A} a lex.
Arguments Failed {lexer A} err.

(** The lexer and the parsing functions of the package that are not among
    the sources.  [token lex] is [lex.token]; a method that moves the lexer
    returns the lexer after it. *)
Class Lexer (lexer : Type) : Type := {
  token : lexer -> string;
  nextToken : lexer -> lexer;
  isKeyword : lexer -> list string -> bool;
  getCompoundPhrase : lexer -> bool -> parsed lexer string;
  getCompoundToken : lexer -> parsed lexer string
}.

Class StatsParsers (lexer statsFunc iffilter : Type) : Type := {
  parseStatsCount : lexer -> parsed lexer statsFunc;
  parseStatsCountEmpty : lexer -> parsed lexer statsFunc;
  parseStatsCountUniq : lexer -> parsed lexer statsFunc;
  parseStatsSum : lexer -> parsed lexer statsFunc;
  parseStatsMax : lexer -> parsed lexer statsFunc;
  parseStatsMin : lexer -> parsed lexer statsFunc;
  parseStatsAvg : lexer -> parsed lexer statsFunc;
  parseStatsUniqValues : lexer -> parsed lexer statsFunc;
  parseStatsValues : lexer -> parsed lexer statsFunc;
  parseStatsSumLen : lexer -> parsed lexer statsFunc;
  parseStatsQuantile : lexer -> parsed lexer statsFunc;
  parseStatsMedian : lexer -> parsed lexer statsFunc;
  parseFilter : lexer -> parsed lexer iffilter;
  filterNoop : iffilter
}.

(** Modelled from the spec: the number of nanoseconds in the named units
    of a bucket size (the constants are not among the sources). *)
Definition nsecsPerMicrosecond : float64 := float64_of_Z 1000.
Definition nsecsPerMillisecond : float64 := float64_of_Z 1000000.
Definition nsecsPerSecond : float64 := float64_of_Z 1000000000.
Definition nsecsPerMinute : float64 := float64_of_Z (60 * 1000000000).
Definition nsecsPerHour : float64 := float64_of_Z (3600 * 1000000000).
Definition nsecsPerDay : float64 := float64_of_Z (24 * 3600 * 1000000000).
Definition nsecsPerWeek : float64 := float64_of_Z (7 * 24 * 3600 * 1000000000).

Section Parser.
Context {lexer statsFunc iffilter : Type}.
Context `{LX : Lexer lexer} `{SP : StatsParsers lexer statsFunc iffilter}.
Context `{STR : Stringer statsFunc} `{IFI : IfFilter iffilter}.
Context `{HLP : Helpers}.

(** [fmt.Errorf(prefix + ": %w", err)] around a parsing function. *)
Definition wrapErr {A : Type} (prefix : string) (r : parsed lexer A) : parsed lexer A :=
  match r with
  | Parsed a lex => Parsed a lex
  | Failed err => Failed (prefix +:+ ": " +:+ err)
  end.

Definition tryParseBucketOffset (s : string) : float64 * bool :=
  let '(f, ok) := tryParseFloat64 s in
  if ok then (f, true)
  else
    let '(nsecs, ok) := tryParseDuration s in
    if ok then (float64_of_Z nsecs, true)
    else
      let '(n, ok) := tryParseBytes s in
      if ok then (float64_of_Z n, true)
      else (float64_zero, false).

Definition tryParseBucketSize (s : string) : float64 * bool :=
  if String.eqb s "nanosecond" then (float64_of_Z 1, true)
  else if String.eqb s "microsecond" then (nsecsPerMicrosecond, true)
  else if String.eqb s "millisecond" then (nsecsPerMillisecond, true)
  else if String.eqb s "second" then (nsecsPerSecond, true)
  else if String.eqb s "minute" then (nsecsPerMinute, true)
  else if String.eqb s "hour" then (nsecsPerHour, true)
  else if String.eqb s "day" then (nsecsPerDay, true)
  else if String.eqb s "week" then (nsecsPerWeek, true)
  else
    let '(f, ok) := tryParseFloat64 s in
    if ok then (f, true)
    else
      let '(nsecs, ok) := tryParseDuration s in
      if ok then (float64_of_Z nsecs, true)
      else
        let '(n, ok) := tryParseBytes s in
        if ok then (float64_of_Z n, true)
        else
          let '(n, ok) := tryParseIPv4Mask s in
          if ok then (float64_of_Z n, true)
          else (float64_zero, false).

(** The part of [parseByStatsFields] that parses the bucket offset of the
    field [bf] after its bucket size. *)
Definition parseBucketOffset (fieldName : string) (bf : byStatsField) (lex : lexer)
  : parsed lexer byStatsField :=
  if isKeyword lex ["offset"%string] then
    let lex1 := nextToken lex in
    let bucketOffsetStr0 := token lex1 in
    let lex2 := nextToken lex1 in
    let '(bucketOffsetStr1, lex3) :=
      if String.eqb bucketOffsetStr0 "-"
      then (bucketOffsetStr0 +:+ token lex2, nextToken lex2)
      else (bucketOffsetStr0, lex2) in
    let '(bucketOffset0, ok) := tryParseBucketOffset bucketOffsetStr1 in
    if negb ok then
      Failed ("cannot parse bucket offset for field " +:+ fmt_q fieldName +:+ ": "
              +:+ fmt_q bucketOffsetStr1)
    else
      Parsed {| bf_name := bf_name bf; bucketSizeStr := bucketSizeStr bf;
                bucketSize := bucketSize bf; bucketOffsetStr := bucketOffsetStr1;
                bucketOffset := bucketOffset0 |} lex3
  else Parsed bf lex.

(** The part of [parseByStatsFields] that parses one field: its name and,
    after [:], its bucket size and offset. *)
Definition parseByStatsField (lex : lexer) : parsed lexer byStatsField :=
  match wrapErr "cannot parse field name" (getCompoundPhrase lex false) with
  | Failed err => Failed err
  | Parsed fieldName0 lex1 =>
      let fieldName := getCanonicalColumnName fieldName0 in
      let bf := {| bf_name := fieldName; bucketSizeStr := ""; bucketSize := float64_zero;
                   bucketOffsetStr := ""; bucketOffset := float64_zero |} in
      if isKeyword lex1 [":"%string] then
        (* Parse bucket size *)
        let lex2 := nextToken lex1 in
        let bucketSizeStr0 := token lex2 in
        let lex3 := nextToken lex2 in
        let '(bucketSizeStr1, lex4) :=
          if String.eqb bucketSizeStr0 "/"
          then (bucketSizeStr0 +:+ token lex3, nextToken lex3)
          else (bucketSizeStr0, lex3) in
        if negb (String.eqb bucketSizeStr1 "year") && negb (String.eqb bucketSizeStr1 "month")
        then
          let '(bucketSize0, ok) := tryParseBucketSize bucketSizeStr1 in
          if negb ok then
            Failed ("cannot parse bucket size for field " +:+ fmt_q fieldName +:+ ": "
                    +:+ fmt_q bucketSizeStr1)
          else
            parseBucketOffset fieldName
              {| bf_name := fieldName; bucketSizeStr := bucketSizeStr1;
                 bucketSize := bucketSize0; bucketOffsetStr := "";
                 bucketOffset := float64_zero |} lex4
        else
          parseBucketOffset fieldName
            {| bf_name := fieldName; bucketSizeStr := bucketSizeStr1;
               bucketSize := float64_zero; bucketOffsetStr := "";
               bucketOffset := float64_zero |} lex4
      else Parsed bf lex1
  end.

(** What the claim on bucket sizes says of a parsed [by] field: [year] and
    [month] leave [bucketSize] zero; every other bucket size string is one
    that [tryParseBucketSize] accepts, with [bucketSize] the number it
    gives; and a field with no bucket size has the empty string and zero. *)
Definition bucketSizeRecorded (bf : byStatsField) : Prop :=
  if String.eqb (bucketSizeStr bf) "year" || String.eqb (bucketSizeStr bf) "month"
  then bucketSize bf = float64_zero
  else tryParseBucketSize (bucketSizeStr bf) = (bucketSize bf, true)
       \/ (bucketSizeStr bf = ""%string /\ bucketSize bf = float64_zero).

(** The loop of [parseByStatsFields]; [lex] is the lexer before the
    [lex.nextToken()] that opens a round, [fuel] bounds the rounds.  [None]
    stands for a loop that has not returned within [fuel] rounds. *)
Fixpoint parseByStatsFieldsLoop (fuel : nat) (bfs : list byStatsField) (lex : lexer)
  : option (parsed lexer (list byStatsField)) :=
  match fuel with
  | O => None
  | S fuel' =>
      let lex1 := nextToken lex in
      if isKeyword lex1 [")"%string] then Some (Parsed bfs (nextToken lex1))
      else
        match parseByStatsField lex1 with
        | Failed err => Some (Failed err)
        | Parsed bf lex2 =>
            let bfs1 := bfs ++ [bf] in
            if isKeyword lex2 [")"%string] then Some (Parsed bfs1 (nextToken lex2))
            else if isKeyword lex2 [","%string] then parseByStatsFieldsLoop fuel' bfs1 lex2
            else Some (Failed ("unexpected token: " +:+ fmt_q (token lex2)
                               +:+ "; expecting ',' or ')'"))
        end
  end.

Definition parseByStatsFields (fuel : nat) (lex : lexer)
  : option (parsed lexer (list byStatsField)) :=
  if negb (isKeyword lex ["("%string]) then Some (Failed "missing `(`")
  else parseByStatsFieldsLoop fuel [] lex.

Definition parseFieldName (lex : lexer) : parsed lexer string :=
  match wrapErr "cannot parse field name" (getCompoundToken lex) with
  | Failed err => Failed err
  | Parsed fieldName lex1 => Parsed (getCanonicalColumnName fieldName) lex1
  end.

Definition parseResultName (lex : lexer) : parsed lexer string :=
  let lex1 := if isKeyword lex ["as"%string] then nextToken lex else lex in
  parseFieldName lex1.

Definition parseIfFilter (lex : lexer) : parsed lexer iffilter :=
  if negb (isKeyword lex ["if"%string]) then
    Failed ("unexpected keyword " +:+ fmt_q (token lex) +:+ "; expecting 'if'")
  else
    let lex1 := nextToken lex in
    if negb (isKeyword lex1 ["("%string]) then
      Failed ("unexpected token " +:+ fmt_q (token lex1) +:+ " after 'if'; expecting '('")
    else
      let lex2 := nextToken lex1 in
      if isKeyword lex2 [")"%string] then Parsed filterNoop (nextToken lex2)
      else
        match wrapErr "cannot parse 'if' filter" (parseFilter lex2) with
        | Failed err => Failed err
        | Parsed f lex3 =>
            if negb (isKeyword lex3 [")"%string]) then
              Failed ("unexpected token " +:+ fmt_q (token lex3)
                      +:+ " after 'if' filter; expecting ')'")
            else Parsed f (nextToken lex3)
        end.

Definition parseStatsFunc (lex : lexer) : parsed lexer statsFunc :=
  if isKeyword lex ["count"%string] then
    wrapErr "cannot parse 'count' func" (parseStatsCount lex)
  else if isKeyword lex ["count_empty"%string] then
    wrapErr "cannot parse 'count_empty' func" (parseStatsCountEmpty lex)
  else if isKeyword lex ["count_uniq"%string] then
    wrapErr "cannot parse 'count_uniq' func" (parseStatsCountUniq lex)
  else if isKeyword lex ["sum"%string] then
    wrapErr "cannot parse 'sum' func" (parseStatsSum lex)
  else if isKeyword lex ["max"%string] then
    wrapErr "cannot parse 'max' func" (parseStatsMax lex)
  else if isKeyword lex ["min"%string] then
    wrapErr "cannot parse 'min' func" (parseStatsMin lex)
  else if isKeyword lex ["avg"%string] then
    wrapErr "cannot parse 'avg' func" (parseStatsAvg lex)
  else if isKeyword lex ["uniq_values"%string] then
    wrapErr "cannot parse 'uniq_values' func" (parseStatsUniqValues lex)
  else if isKeyword lex ["values"%string] then
    wrapErr "cannot parse 'values' func" (parseStatsValues lex)
  else if isKeyword lex ["sum_len"%string] then
    wrapErr "cannot parse 'sum_len' func" (parseStatsSumLen lex)
  else if isKeyword lex ["quantile"%string] then
    wrapErr "cannot parse 'quantile' func" (parseStatsQuantile lex)
  else if isKeyword lex ["median"%string] then
    wrapErr "cannot parse 'median' func" (parseStatsMedian lex)
  else Failed ("unknown stats func " +:+ fmt_q (token lex)).

(** The loop of [parseFieldNamesInParens]; [fuel] bounds the rounds. *)
Fixpoint parseFieldNamesInParensLoop (fuel : nat) (fields : list string) (lex : lexer)
  : option (parsed lexer (list string)) :=
  match fuel with
  | O => None
  | S fuel' =>
      let lex1 := nextToken lex in
      if isKeyword lex1 [")"%string] then Some (Parsed fields (nextToken lex1))
      else if isKeyword lex1 [","%string] then Some (Failed "unexpected `,`")
      else
        match wrapErr "cannot parse field name" (parseFieldName lex1) with
        | Failed err => Some (Failed err)
        | Parsed field lex2 =>
            let fields1 := fields ++ [field] in
            if isKeyword lex2 [")"%string] then Some (Parsed fields1 (nextToken lex2))
            else if isKeyword lex2 [","%string] then
              parseFieldNamesInParensLoop fuel' fields1 lex2
            else Some (Failed ("unexpected token: " +:+ fmt_q (token lex2)
                               +:+ "; expecting ',' or ')'"))
        end
  end.

Definition parseFieldNamesInParens (fuel : nat) (lex : lexer)
  : option (parsed lexer (list string)) :=
  if negb (isKeyword lex ["("%string]) then Some (Failed "missing `(`")
  else parseFieldNamesInParensLoop fuel [] lex.

(** [parseFieldNamesForStatsFunc] returns [["*"]] if the list of field names
    is empty or if it contains the ["*"] field. *)
Definition parseFieldNamesForStatsFunc (fuel : nat) (lex : lexer) (funcName : string)
  : option (parsed lexer (list string)) :=
  if negb (isKeyword lex [funcName]) then
    Some (Failed ("unexpected func; got " +:+ fmt_q (token lex) +:+ "; want "
                  +:+ fmt_q funcName))
  else
    match parseFieldNamesInParens fuel (nextToken lex) with
    | None => None
    | Some (Failed err) =>
        Some (Failed ("cannot parse " +:+ fmt_q funcName +:+ " args: " +:+ err))
    | Some (Parsed fields lex1) =>
        if (List.length fields =? 0)%nat || existsb (String.eqb "*") fields
        then Some (Parsed ["*"%string] lex1)
        else Some (Parsed fields lex1)
    end.

(** One round of the loop of [parsePipeStats] up to [funcs = append(funcs,
    f)]: a function, its [if (...)] filter and its result name. *)
Definition parsePipeStatsFunc (lex : lexer)
  : parsed lexer (pipeStatsFunc statsFunc iffilter) :=
  match parseStatsFunc lex with
  | Failed err => Failed err
  | Parsed sf lex1 =>
      let r :=
        if isKeyword lex1 ["if"%string] then
          match wrapErr ("cannot parse 'if' filter for " +:+ statsFunc_String sf)
                  (parseIfFilter lex1) with
          | Failed err => Failed err
          | Parsed iff0 lex2 => Parsed (Some iff0, filter_neededFields iff0) lex2
          end
        else Parsed (None, []) lex1 in
      match r with
      | Failed err => Failed err
      | Parsed (iff0, needed) lex2 =>
          match wrapErr ("cannot parse result name for " +:+ statsFunc_String sf)
                  (parseResultName lex2) with
          | Failed err => Failed err
          | Parsed name lex3 =>
              Parsed {| psf_f := sf; neededFieldsForFunc := needed; psf_iff := iff0;
                        resultName := name |} lex3
          end
      end
  end.

(** The loop of [parsePipeStats]; [fuel] bounds the rounds. *)
Fixpoint parsePipeStatsLoop (fuel : nat) (bfs : list byStatsField)
    (fs : list (pipeStatsFunc statsFunc iffilter)) (lex : lexer)
  : option (parsed lexer (pipeStats statsFunc iffilter)) :=
  match fuel with
  | O => None
  | S fuel' =>
      match parsePipeStatsFunc lex with
      | Failed err => Some (Failed err)
      | Parsed fn lex1 =>
          let fs1 := fs ++ [fn] in
          if isKeyword lex1 ["|"; ")"; ""]%string then
            Some (Parsed {| byFields := bfs; funcs := fs1 |} lex1)
          else if negb (isKeyword lex1 [","%string]) then
            Some (Failed ("unexpected token " +:+ fmt_q (token lex1)
                          +:+ "; want ',', '|' or ')'"))
          else parsePipeStatsLoop fuel' bfs fs1 (nextToken lex1)
      end
  end.

Definition parsePipeStats (fuel : nat) (lex : lexer)
  : option (parsed lexer (pipeStats statsFunc iffilter)) :=
  if negb (isKeyword lex ["stats"%string]) then
    Some (Failed ("expecting 'stats'; got " +:+ fmt_q (token lex)))
  else
    let lex1 := nextToken lex in
    if isKeyword lex1 ["by"; "("]%string then
      let lex2 := if isKeyword lex1 ["by"%string] then nextToken lex1 else lex1 in
      match parseByStatsFields fuel lex2 with
      | None => None
      | Some (Failed err) => Some (Failed ("cannot parse 'by' clause: " +:+ err))
      | Some (Parsed bfs lex3) => parsePipeStatsLoop fuel bfs [] lex3
      end
    else parsePipeStatsLoop fuel [] [] lex1.

End Parser.

(** ** Further notions on parsed plans *)

(** The names of the units of time that [tryParseBucketSize] knows. *)
Definition bucketUnitNames : list string :=
  ["nanosecond"; "microsecond"; "millisecond"; "second"; "minute"; "hour"; "day";
   "week"]%string.

Section ParsedPlans.
Context {statsFunc iffilter : Type} `{IFI : IfFilter iffilter}.

(** The fields that [parsePipeStats] records for the filter of a function:
    those that the filter needs, and none for a function without a filter. *)
Definition filterRecorded (fn : pipeStatsFunc statsFunc iffilter) : Prop :=
  match psf_iff fn with
  | None => neededFieldsForFunc fn = []
  | Some iff0 => neededFieldsForFunc fn = filter_neededFields iff0
  end.

End ParsedPlans.

(** ** The parser of [row_any] and the columns it reads *)

Section RowAnyParser.
Context {lexer : Type} `{LX : Lexer lexer} `{HLP : Helpers}.

(** [parseStatsRowAny(lex)]; [fuel] bounds the rounds of the loop of
    [parseFieldNamesInParens]. *)
Definition parseStatsRowAny (fuel : nat) (lex : lexer)
  : option (parsed lexer RowAny.statsRowAny) :=
  if negb (isKeyword lex ["row_any"%string]) then
    Some (Failed ("unexpected func; got " +:+ fmt_q (token lex) +:+ "; want 'row_any'"))
  else
    match parseFieldNamesInParens fuel (nextToken lex) with
    | None => None
    | Some (Failed err) => Some (Failed ("cannot parse 'row_any' args: " +:+ err))
    | Some (Parsed fields lex1) =>
        let fields1 := if existsb (String.eqb "*") fields then [] else fields in
        Some (Parsed {| RowAny.sa_fields := fields1 |} lex1)
    end.

End RowAnyParser.

(** The columns that [updateState] reads from a block: all of them when the
    function names no field, and the columns of the names otherwise. *)
Definition fetchedColumns (sa0 : RowAny.statsRowAny) (br : blockResult)
  : list blockResultColumn :=
  if (List.length (RowAny.sa_fields sa0) =? 0)%nat then getColumns br
  else List.map (getColumnByName br) (RowAny.sa_fields sa0).

(** [f] is the field of column [c] at the row: the name of the column and
    its value there. *)
Definition isFieldOf (br : blockResult) (rowIdx : nat) (c : blockResultColumn)
    (f : Field) : Prop :=
  Name f = c_name c /\ getValueAtRow c br rowIdx = Ok (Value f).

(** ** Sequences of updates of one [row_any] processor *)

Module RowAnyRuns.
Import RowAny.

(** One call of an update method. *)
Inductive update : Type :=
| ForAllRows (br : blockResult)
| ForRow (br : blockResult) (rowIdx : nat).

Definition applyUpdate (u : update) (sap : statsRowAnyProcessor)
  : res (statsRowAnyProcessor * Z) :=
  match u with
  | ForAllRows br => updateStatsForAllRows sap br
  | ForRow br rowIdx => updateStatsForRow sap br rowIdx
  end.

(** The calls of [us] in turn; the result carries the sum of the state-size
    deltas they return. *)
Fixpoint applyUpdates (us : list update) (sap : statsRowAnyProcessor)
  : res (statsRowAnyProcessor * Z) :=
  match us with
  | [] => Ok (sap, 0)
  | u :: us' =>
      '(sap1, d1) ← applyUpdate u sap;
      '(sap2, d2) ← applyUpdates us' sap1;
      Ok (sap2, d1 + d2)
  end.

(** What holds of every processor that stems from [newStatsProcessor]: no
    field is stored before a row is captured. *)
Definition consistent (sap : statsRowAnyProcessor) : Prop :=
  captured sap = false -> fields sap = [].

(** Two blocks of one row each, which differ in the value of [x]. *)
Definition blockOf (v : string) : blockResult :=
  {| rowsLen := 1;
     getColumns := [ {| c_name := "x"; isConst := false; valuesEncoded := [v] |} ] |}.

End RowAnyRuns.

(** ** Further notions on shards, groups and blocks *)

Section Groups.
Context {statsFunc statsProcessor iffilter : Type}.
Context `{SF : StatsFunc statsFunc statsProcessor} `{IFI : IfFilter iffilter}.
Context `{STR : Stringer statsFunc} `{HLP : Helpers}.

Abbreviation plan := (pipeStats statsFunc iffilter).
Abbreviation shard := (pipeStatsProcessorShard statsProcessor).
Abbreviation group := (pipeStatsGroup statsProcessor).
Abbreviation processor := (pipeStatsProcessor statsFunc iffilter statsProcessor).

(** Every group of the map has one processor per function of the plan. *)
Definition groupsSized (p : plan) (m : gmap string group) : Prop :=
  forall key psg, m !! key = Some psg -> List.length (sfps psg) = List.length (funcs p).

Definition shardsSized (p : plan) (shs : list shard) : Prop :=
  Forall (fun sh => groupsSized p (sh_m sh)) shs.

(** [key] is the key of row [i]: the encoding of the values of the [by]
    columns [cvs] at that row. *)
Definition rowKey (cvs : list (list string)) (i : nat) (key : string) : Prop :=
  exists vs, rowValues cvs i = Ok vs /\ key = marshalKey vs.

(** The number of rows of a block of result columns. *)
Definition blockRows (rcs : list resultColumn) : nat :=
  match rcs with
  | [] => 0%nat
  | rc :: _ => List.length (rc_values rc)
  end.

(** The sum of the budgets of the shards and of the global budget. *)
Definition totalBudget (psp : processor) : Z :=
  stateSizeBudget psp + fold_right Z.add 0 (List.map sh_stateSizeBudget (shards psp)).

(** The keys of the shard after the rows before [i]: those of the shard
    [sh0] at the start and the keys of these rows. *)
Definition rowsGrouped (cvs : list (list string)) (sh0 : shard) (i : nat) (sh : shard)
  : Prop :=
  forall k, is_Some (sh_m sh !! k)
            <-> is_Some (sh_m sh0 !! k) \/ exists j, (j < i)%nat /\ rowKey cvs j k.

(** The row [i] of a block of result columns, and the rows of the block in
    their order. *)
Definition rowAt (rcs : list resultColumn) (i : nat) : list string :=
  List.map (fun rc => nth i (rc_values rc) ""%string) rcs.

Definition rowsOf (rcs : list resultColumn) : list (list string) :=
  List.map (rowAt rcs) (seq 0 (blockRows rcs)).

(** [row] is the row of the group [e]: the [by] values that its key
    decodes to, then what each of its processors finalizes to. *)
Definition groupRow (e : string * group) (row : list string) : Prop :=
  exists vs, decodeKey (fst e) = Ok vs
             /\ row = vs ++ List.map finalizeStats (sfps (snd e)).

(** What the loop of [flush] that writes the groups has written after the
    groups [done]: their rows, in this order, in the blocks written since
    the blocks [old] and in the result columns. *)
Definition rowsWritten (old : list (list resultColumn)) (done : list (string * group))
    (st : emitSt) : Prop :=
  exists new,
    em_blocks st = new ++ old
    /\ Forall2 groupRow done (flat_map rowsOf (rev new) ++ rowsOf (em_rcs st)).

(** What the merge of [flush] makes of one key: [cur] is the group that the
    map of the first shard holds under the key so far, [o] the group of the
    next shard under it.  A group that meets no other is taken as it is;
    two groups are merged processor by processor, into the first. *)
Definition mergeInto (cur o : option group) : res (option group) :=
  match o with
  | None => Ok cur
  | Some psg =>
      match cur with
      | None => Ok (Some psg)
      | Some spgBase =>
          l ← mergeGroups (sfps spgBase) (sfps psg) 0;
          Ok (Some {| sfps := l |})
      end
  end.

Fixpoint mergeAllFrom (cur : option group) (os : list (option group))
  : res (option group) :=
  match os with
  | [] => Ok cur
  | o :: os' => cur' ← mergeInto cur o; mergeAllFrom cur' os'
  end.

(** The block is processed row by row: the plan has [by] fields, and their
    columns are not all constant over the block. *)
Definition rowWise (p : plan) (br : blockResult) : Prop :=
  match byFields p with
  | [] => False
  | [bf] =>
      isConst (getColumnByName br (bf_name bf)) = false
      /\ exists values,
           getValuesBucketed (getColumnByName br (bf_name bf)) br bf = Ok values
           /\ areConstValues values = false
  | bfs =>
      exists cvs, byColumnValues br bfs = Ok cvs /\ forallb areConstValues cvs = false
  end.

End Groups.

(** The bytes that [updateState] reports for the fields it stores. *)
Definition fieldsSize (fs : list Field) : Z :=
  fold_right Z.add 0 (List.map (fun f => len (Name f) + len (Value f)) fs).

(** ** Instances of the interfaces

    The interfaces above are given instances here: the [row_any] functions of
    stats_row_any.go, a filter that keeps every row, helpers that leave
    names and values as they are, and a lexer over a list of tokens.  The
    examples below are stated over them. *)

(** stats_row_any.go is of a later revision than pipe_stats.go: its
    [newStatsProcessor] takes an allocator and returns no size, and its
    [finalizeStats] appends to a buffer.  The instance charges the size of
    the [statsRowAnyProcessor] struct on a 64-bit platform and finalizes
    into the empty buffer. *)
#[global] Instance rowAny_Stringer : Stringer RowAny.statsRowAny :=
  {| statsFunc_String := RowAny.statsRowAny_String |}.

#[global] Instance rowAny_StatsFunc
  : StatsFunc RowAny.statsRowAny RowAny.statsRowAnyProcessor :=
  {| newStatsProcessor := fun sa0 => (RowAny.newStatsProcessor sa0, 40);
     updateStatsForAllRows := RowAny.updateStatsForAllRows;
     updateStatsForRow := RowAny.updateStatsForRow;
     mergeState := fun a b => Ok (RowAny.mergeState a b);
     finalizeStats := fun sap => RowAny.finalizeStats sap "" |}.

(** [filterNoop]: the filter of an empty [if ()]. *)
Inductive filterNoopT : Type := FilterNoop.

#[global] Instance filterNoop_IfFilter : IfFilter filterNoopT :=
  {| filter_String := fun _ => "*"%string;
     applyToBlockResult := fun _ _ bm => bm;
     filter_neededFields := fun _ => [] |}.

(** A filter that keeps no row. *)
Inductive filterNoneT : Type := FilterNone.

#[global] Instance filterNone_IfFilter : IfFilter filterNoneT :=
  {| filter_String := fun _ => "!*"%string;
     applyToBlockResult := fun _ _ bm => List.map (fun _ => false) bm;
     filter_neededFields := fun _ => [] |}.

(** A value as a Go string: one that is as long as no Go string can be
    reads as the empty string. *)
Definition goString (v : string) : string :=
  if len v <? 2 ^ 63 then v else ""%string.

(** Decimal integers are the only numbers these helpers parse. *)
Definition parseDecimal (s : string) : float64 * bool :=
  match DecimalString.NilZero.int_of_string s with
  | Some d => (float64_of_Z (Z.of_int d), true)
  | None => (float64_zero, false)
  end.

#[global] Instance plainHelpers : Helpers :=
  {| quoteTokenIfNeeded := fun s => s;
     getCanonicalColumnName := fun s => s;
     getBucketedValue := fun _ v _ => goString v;
     fmt_q := fun s => String dquote s +:+ String dquote "";
     tryParseFloat64 := parseDecimal;
     tryParseDuration := fun _ => (0, false);
     tryParseBytes := fun _ => (0, false);
     tryParseIPv4Mask := fun _ => (0, false) |}.

(** A lexer over a list of tokens: the first one is [lex.token], and the
    empty list stands for the end of the query, where the token is empty. *)
Definition tokenLexer : Type := list string.

Definition tl_token (lex : tokenLexer) : string := List.hd ""%string lex.

Definition tl_isKeyword (lex : tokenLexer) (keywords : list string) : bool :=
  existsb (String.eqb (tl_token lex)) keywords.

Definition tl_compoundToken (lex : tokenLexer) : parsed tokenLexer string :=
  if tl_isKeyword lex [","; "("; ")"; "["; "]"; "|"; ""]%string then
    Failed ("compound token cannot start with " +:+ tl_token lex)
  else Parsed (tl_token lex) (List.tl lex).

#[global] Instance tokenLexer_Lexer : Lexer tokenLexer :=
  {| token := tl_token;
     nextToken := @List.tl string;
     isKeyword := tl_isKeyword;
     getCompoundPhrase := fun lex _ => tl_compoundToken lex;
     getCompoundToken := tl_compoundToken |}.

(** A parsed call of a stats function: its name and its fields. *)
Record statsCall : Type := {
  call_name : string;
  call_fields : list string
}.

#[global] Instance statsCall_Stringer : Stringer statsCall :=
  {| statsFunc_String := fun c =>
       call_name c +:+ "(" +:+ String.concat ", " (call_fields c) +:+ ")" |}.

(** Every stats function parses as its name and its field names in
    parentheses, through [parseFieldNamesForStatsFunc]; the tokens left
    bound the rounds of its loop. *)
Definition parseStatsCall (funcName : string) (lex : tokenLexer)
  : parsed tokenLexer statsCall :=
  match parseFieldNamesForStatsFunc (S (List.length lex)) lex funcName with
  | Some (Parsed fields lex1) =>
      Parsed {| call_name := funcName; call_fields := fields |} lex1
  | Some (Failed err) => Failed err
  | None => Failed "unexpected end of query"
  end.

#[global] Instance statsCall_Parsers : StatsParsers tokenLexer statsCall filterNoopT :=
  {| parseStatsCount := parseStatsCall "count";
     parseStatsCountEmpty := parseStatsCall "count_empty";
     parseStatsCountUniq := parseStatsCall "count_uniq";
     parseStatsSum := parseStatsCall "sum";
     parseStatsMax := parseStatsCall "max";
     parseStatsMin := parseStatsCall "min";
     parseStatsAvg := parseStatsCall "avg";
     parseStatsUniqValues := parseStatsCall "uniq_values";
     parseStatsValues := parseStatsCall "values";
     parseStatsSumLen := parseStatsCall "sum_len";
     parseStatsQuantile := parseStatsCall "quantile";
     parseStatsMedian := parseStatsCall "median";
     parseFilter := fun _ => Failed "no filter but the empty one is parsed";
     filterNoop := FilterNoop |}.

(** The [row_any] processor of the function [f] once it has captured a
    row without fields.  The processor of function [j] in a group is this
    one ([rowCaptured]); or it is this one or still the new one
    ([rowStarted]). *)
Definition capturedEmpty (f : RowAny.statsRowAny) : RowAny.statsRowAnyProcessor :=
  {| RowAny.sa := f; RowAny.captured := true; RowAny.fields := [] |}.

Definition rowCaptured (j : nat) (f : RowAny.statsRowAny)
    (g : pipeStatsGroup RowAny.statsRowAnyProcessor) : Prop :=
  sfps g !! j = Some (capturedEmpty f).

Definition rowStarted (j : nat) (f : RowAny.statsRowAny)
    (g : pipeStatsGroup RowAny.statsRowAnyProcessor) : Prop :=
  sfps g !! j = Some (capturedEmpty f)
  \/ sfps g !! j = Some (RowAny.newStatsProcessor f).

(** ** Examples *)

Module Examples.

Definition rowAnyAll : pipeStatsFunc RowAny.statsRowAny filterNoopT :=
  {| psf_f := {| RowAny.sa_fields := [] |}; neededFieldsForFunc := [];
     psf_iff := None; resultName := "r" |}.

Definition byX : byStatsField :=
  {| bf_name := "x"; bucketSizeStr := ""; bucketSize := float64_zero;
     bucketOffsetStr := ""; bucketOffset := float64_zero |}.

(** [stats row_any() as r] and [stats by (x) row_any() as r] *)
Definition planNoBy : pipeStats RowAny.statsRowAny filterNoopT :=
  {| byFields := []; funcs := [rowAnyAll] |}.

Definition planByX : pipeStats RowAny.statsRowAny filterNoopT :=
  {| byFields := [byX]; funcs := [rowAnyAll] |}.

(** [stats by (x) row_any() if (f) as r] for a filter [f] that keeps no
    row. *)
Definition planNoRow : pipeStats RowAny.statsRowAny filterNoneT :=
  {| byFields := [byX];
     funcs := [ {| psf_f := {| RowAny.sa_fields := [] |}; neededFieldsForFunc := [];
                   psf_iff := Some FilterNone; resultName := "r" |} ] |}.

(** Three rows with the values [a], [b], [a] of [x] and the constant [y]. *)
Definition block3 : blockResult :=
  {| rowsLen := 3;
     getColumns :=
       [ {| c_name := "x"; isConst := false; valuesEncoded := ["a"; "b"; "a"]%string |};
         {| c_name := "y"; isConst := true; valuesEncoded := ["c"%string] |} ] |}.

Definition neverStop : nat -> bool := fun _ => false.

Definition order (m : gmap string (pipeStatsGroup RowAny.statsRowAnyProcessor))
  : list (string * pipeStatsGroup RowAny.statsRowAnyProcessor) :=
  map_to_list m.

(** A processor of [planByX] with one shard, of the given budgets. *)
Definition oneShard (local global : Z)
  : pipeStatsProcessor RowAny.statsRowAny filterNoopT RowAny.statsRowAnyProcessor :=
  {| ps := planByX; stopCh := neverStop; polls := 0; cancelCalls := 0;
     ppBase_blocks := [];
     shards := [setShard newShard local];
     maxStateSize := global; stateSizeBudget := global |}.

(** The first of two workers has written [block3]. *)
Definition writtenOnce
  : pipeStatsProcessor RowAny.statsRowAny filterNoopT RowAny.statsRowAnyProcessor :=
  match psp_writeBlock 0 block3 (newPipeProcessor planByX 2 neverStop 100000000) with
  | Ok psp => psp
  | Panic _ => newPipeProcessor planByX 2 neverStop 100000000
  end.

(** Two workers that have each written [block3]. *)
Definition written
  : pipeStatsProcessor RowAny.statsRowAny filterNoopT RowAny.statsRowAnyProcessor :=
  match
    psp1 ← psp_writeBlock 0 block3 (newPipeProcessor planByX 2 neverStop 100000000);
    psp_writeBlock 1 block3 psp1
  with
  | Ok psp => psp
  | Panic _ => newPipeProcessor planByX 2 neverStop 100000000
  end.

Definition flushed
  : pipeStatsProcessor RowAny.statsRowAny filterNoopT RowAny.statsRowAnyProcessor :=
  match flush order written with
  | Ok (_, psp) => psp
  | Panic _ => written
  end.

(** The merge of [flush] on [written]: the state of the merge, the first
    shard and the other shards. *)
Definition mergedWritten
  : mergeSt (statsProcessor := RowAny.statsRowAnyProcessor)
    * pipeStatsProcessorShard RowAny.statsRowAnyProcessor
    * list (pipeStatsProcessorShard RowAny.statsRowAnyProcessor) :=
  match mergeStates order written with
  | Ok r => r
  | Panic _ => ({| mg_m := ∅; mg_polls := 0; mg_stopped := false |}, newShard, [])
  end.

End Examples.

(** * The reader of syslog lines

    [syslogLineReader] of the syslog front end (the file of package
    [syslog] among the sources) splits a TCP stream into syslog messages by
    the octet-counting and the octet-stuffing (one message per line) methods.
    The stream is the sequence of the bytes that the reader has not yet
    returned; the source behind the reader delivers these bytes and then
    [io.EOF], and no other error. *)

Module Syslog.

(** [bufio.NewReaderSize(r, 64*1024)] *)
Definition bufSize : nat := Z.to_nat 65536.

Lemma bufSize_pos : (0 < bufSize)%nat.
Proof. unfold bufSize. lia. Qed.

Lemma bufSize_eq : bufSize = Z.to_nat 65536.
Proof. reflexivity. Qed.

#[global] Opaque bufSize.

Definition space : ascii := ascii_of_nat 32.
Definition newline : ascii := ascii_of_nat 10.

(** The index of the first byte [delim] of [s]. *)
Fixpoint indexByte (delim : ascii) (s : string) : option nat :=
  match s with
  | EmptyString => None
  | String c s' =>
      if Ascii.eqb c delim then Some 0%nat else option_map S (indexByte delim s')
  end.

(** The errors of a read: [nil], [io.EOF] and [bufio.ErrBufferFull]. *)
Inductive readErr : Type := NoErr | EOF | ErrBufferFull.

Record slice : Type := {
  data : string;
  rerr : readErr;
  rest : string
}.

(** [br.ReadSlice(delim)] of the Go library, on the bytes [input] not yet
    returned: the bytes up to and including the first [delim]; or, when the
    buffer fills before a [delim] is found, the bytes of the full buffer with
    [ErrBufferFull]; or, when the stream ends first, the bytes left with
    [io.EOF].  [rest] is what the reader has not returned afterwards.  A
    stream of exactly [bufSize] bytes without [delim] is taken to fill the
    buffer before its end is seen. *)
Definition ReadSlice (delim : ascii) (input : string) : slice :=
  match indexByte delim (str_take bufSize input) with
  | Some i =>
      {| data := str_take (S i) input; rerr := NoErr; rest := str_drop (S i) input |}
  | None =>
      if (bufSize <=? String.length input)%nat then
        {| data := str_take bufSize input; rerr := ErrBufferFull;
           rest := str_drop bufSize input |}
      else {| data := input; rerr := EOF; rest := ""%string |}
  end.

(** [io.ReadFull(br, buf)] of the Go library for a buffer of [n] bytes: the
    bytes read, or nothing when the stream ends before [n] bytes. *)
Definition ReadFull (n : nat) (input : string) : option string * string :=
  if (n <=? String.length input)%nat then (Some (str_take n input), str_drop n input)
  else (None, ""%string).

Definition isDigit (c : ascii) : bool := (48 <=? Z_of_byte c) && (Z_of_byte c <=? 57).

(** [strconv.ParseUint(s, 10, 64)] of the Go library: [None] is an error
    (no digits, a byte that is no digit, or a value that is no [uint64]). *)
Fixpoint parseUintLoop (s : string) (acc : Z) : option Z :=
  match s with
  | EmptyString => Some acc
  | String c s' =>
      if isDigit c then
        let acc' := acc * 10 + (Z_of_byte c - 48) in
        if 2 ^ 64 <=? acc' then None else parseUintLoop s' acc'
      else None
  end.

Definition ParseUint (s : string) : option Z :=
  match s with
  | EmptyString => None
  | _ => parseUintLoop s 0
  end.

(** The errors that [nextLine] stores in [slr.err]: [io.EOF], and the
    errors made with [fmt.Errorf]: [cannot read message frame prefix],
    [cannot parse message length from <msgLenStr>], [cannot read message
    longer than <maxMsgLen> bytes; msgLen=<msgLen>] and [cannot read message
    with size <msgLen> bytes].  The error of the octet-stuffing method needs
    an error of the source other than the end of the stream. *)
Inductive slrError : Type :=
| ErrEOF
| ErrFramePrefix
| ErrMsgLen (msgLenStr : string)
| ErrTooLong (maxMsgLen msgLen : Z)
| ErrShortRead (msgLen : Z).

(** [syslogLineReader]: [slr_br] is the stream behind [slr.br]. *)
Record syslogLineReader : Type := {
  slr_line : string;
  slr_br : string;
  slr_err : option slrError
}.

(** [slr.Error()] *)
Definition Error (slr : syslogLineReader) : option slrError :=
  match slr_err slr with
  | None => None
  | Some ErrEOF => None
  | Some e => Some e
  end.

(** [for len(prefix) > 0 && prefix[0] == '\n' { prefix = prefix[1:] }] *)
Fixpoint skipNewlines (prefix : string) : string :=
  match prefix with
  | EmptyString => EmptyString
  | String c s' => if Ascii.eqb c newline then skipNewlines s' else prefix
  end.

(** [s[i]] on a Go string or slice of bytes. *)
Definition byteAt (s : string) (i : nat) : res ascii :=
  match String.get i s with
  | Some c => Ok c
  | None => Panic "index out of range"
  end.

#[global] Instance readErr_eq_dec : EqDecision readErr.
Proof. solve_decision. Defined.

(** The loop of the octet-stuffing method: the line read and the stream
    afterwards.  The loop goes on while the buffer fills before the end of
    the line; it ends at the end of the line and at the end of the stream. *)
Equations? readStuffed (line input : string) : string * string
    by wf (String.length input) lt :=
  readStuffed line input with decide (rerr (ReadSlice newline input) = ErrBufferFull) => {
    | left Hfull =>
        readStuffed (line +:+ data (ReadSlice newline input))
          (rest (ReadSlice newline input));
    | right _ =>
        match rerr (ReadSlice newline input) with
        | NoErr =>
            (line +:+ str_take (String.length (data (ReadSlice newline input)) - 1)
                        (data (ReadSlice newline input)),
             rest (ReadSlice newline input))
        | _ => (line +:+ data (ReadSlice newline input), rest (ReadSlice newline input))
        end
  }.
Proof.
  assert (Hdrop : forall n t, String.length (str_drop n t) = (String.length t - n)%nat).
  { induction n as [|n IH]; intros [|b t]; simpl; auto. }
  pose proof bufSize_pos as Hpos.
  unfold ReadSlice in *.
  destruct (indexByte newline (str_take bufSize input)); [discriminate|].
  destruct (Nat.leb_spec bufSize (String.length input)) as [Hle|Hlt]; [|discriminate].
  cbn [rest]. rewrite Hdrop. lia.
Qed.

(** The part of [nextLine] after the frame prefix has been read: [prefix0]
    is the prefix and [input] the stream after it.  After a read that
    fails, [slr.line] is not read again: it is left as it was here. *)
Definition nextLineFrom (maxMsgLen : Z) (slr : syslogLineReader) (prefix0 input : string)
  : res (bool * syslogLineReader) :=
  (* skip empty lines *)
  let prefix := skipNewlines prefix0 in
  c ← byteAt prefix 0;
  if isDigit c then
    (* This is octet-counting method. *)
    let msgLenStr := str_take (String.length prefix - 1) prefix in
    match ParseUint msgLenStr with
    | None =>
        Ok (false, {| slr_line := slr_line slr; slr_br := input;
                      slr_err := Some (ErrMsgLen msgLenStr) |})
    | Some msgLen =>
        if maxMsgLen mod 2 ^ 64 <? msgLen then
          Ok (false, {| slr_line := slr_line slr; slr_br := input;
                        slr_err := Some (ErrTooLong maxMsgLen msgLen) |})
        else
          match ReadFull (Z.to_nat msgLen) input with
          | (Some l, input') =>
              Ok (true, {| slr_line := l; slr_br := input'; slr_err := None |})
          | (None, input') =>
              Ok (false, {| slr_line := slr_line slr; slr_br := input';
                            slr_err := Some (ErrShortRead msgLen) |})
          end
    end
  else
    (* This is octet-stuffing method. *)
    let '(l, input') := readStuffed prefix input in
    Ok (true, {| slr_line := l; slr_br := input'; slr_err := None |}).

(** [slr.nextLine()] with [maxMsgLen = insertutils.MaxLineSizeBytes.IntN()]:
    the result and the reader afterwards. *)
Definition nextLine (maxMsgLen : Z) (slr : syslogLineReader)
  : res (bool * syslogLineReader) :=
  match slr_err slr with
  | Some _ => Ok (false, slr)
  | None =>
      let r := ReadSlice space (slr_br slr) in
      match rerr r with
      | ErrBufferFull =>
          Ok (false, {| slr_line := slr_line slr; slr_br := rest r;
                        slr_err := Some ErrFramePrefix |})
      | EOF =>
          if (String.length (data r) =? 0)%nat then
            Ok (false, {| slr_line := slr_line slr; slr_br := rest r;
                          slr_err := Some ErrEOF |})
          else nextLineFrom maxMsgLen slr (data r) (rest r)
      | NoErr => nextLineFrom maxMsgLen slr (data r) (rest r)
      end
  end.

(** What [processUncompressedStream] returns: [slr.Error()] after the
    lines [rows] have been processed, or the error [cannot read line #n]
    of [processLine]. *)
Inductive streamResult : Type :=
| Finished (rows : list string) (e : option slrError)
| LineFailed (rows : list string) (n : nat).

(** The loop of [processUncompressedStream].  [processLine] tells whether
    a line is processed without an error; [rows] are the lines processed so
    far; [fuel] bounds the rounds. *)
Fixpoint processLines (processLine : string -> bool) (maxMsgLen : Z) (fuel : nat)
    (n : nat) (rows : list string) (slr : syslogLineReader)
  : option (res streamResult) :=
  match fuel with
  | O => None
  | S fuel' =>
      match nextLine maxMsgLen slr with
      | Panic msg => Some (Panic msg)
      | Ok (false, slr') => Some (Ok (Finished rows (Error slr')))
      | Ok (true, slr') =>
          if processLine (slr_line slr') then
            processLines processLine maxMsgLen fuel' (S n) (rows ++ [slr_line slr']) slr'
          else Some (Ok (LineFailed rows n))
      end
  end.

(** [processUncompressedStream(r, lmp)] on the stream [r]: the reader is
    the one that [getSyslogLineReader] gives. *)
Definition processUncompressedStream (processLine : string -> bool) (maxMsgLen : Z)
    (fuel : nat) (r : string) : option (res streamResult) :=
  processLines processLine maxMsgLen fuel 0 []
    {| slr_line := ""%string; slr_br := r; slr_err := None |}.

(** A message as it is framed on the stream.  By the octet-counting method
    it is its length in decimal digits, a space and its bytes; by the
    octet-stuffing method it is a line that ends with a newline, here a head
    up to the first space and the tail of the line after it. *)
Inductive frame : Type :=
| Counted (digits msg : string)
| Stuffed (head tail : string).

Definition payload (f : frame) : string :=
  match f with
  | Counted _ msg => msg
  | Stuffed h t => h +:+ String space t
  end.

Definition encode (f : frame) : string :=
  match f with
  | Counted ds msg => ds +:+ String space msg
  | Stuffed h t => h +:+ String space (t +:+ String newline "")
  end.

(** The head of a line by the octet-stuffing method is not empty, starts
    with no digit and has neither a space nor a newline; the tail has no
    newline.  The digits of a message by the octet-counting method are its
    length, which is at most [maxMsgLen]. *)
Definition firstIsNoDigit (s : string) : bool :=
  match s with
  | EmptyString => false
  | String c _ => negb (isDigit c)
  end.

Definition wellFramed (maxMsgLen : Z) (f : frame) : Prop :=
  match f with
  | Counted ds msg => ParseUint ds = Some (len msg) /\ len msg <= maxMsgLen
  | Stuffed h t =>
      firstIsNoDigit h = true
      /\ indexByte space h = None /\ indexByte newline h = None
      /\ indexByte newline t = None
  end.

(** The number of bytes of a frame before its first space. *)
Definition prefixLen (f : frame) : nat :=
  match f with
  | Counted ds _ => String.length ds
  | Stuffed h _ => String.length h
  end.

(** A string of [k] newlines. *)
Fixpoint newlines (k : nat) : string :=
  match k with
  | O => EmptyString
  | S k' => String newline (newlines k')
  end.

(** A frame after [k] empty lines that [nextLine] reads and that
    [processLine] takes: the empty lines and the bytes of the frame before
    its first space fit in the buffer. *)
Definition readable (processLine : string -> bool) (maxMsgLen : Z) (kf : nat * frame)
  : Prop :=
  wellFramed maxMsgLen (snd kf)
  /\ (fst kf + prefixLen (snd kf) < bufSize)%nat
  /\ processLine (payload (snd kf)) = true.

(** A stream of frames, each after some empty lines. *)
Fixpoint stream (fs : list (nat * frame)) : string :=
  match fs with
  | [] => EmptyString
  | (k, f) :: fs' => newlines k +:+ (encode f +:+ stream fs')
  end.

End Syslog.

(** * Properties *)

(** ** [row_any] *)

Section RowAnyProperties.
Import RowAny RowAnyRuns.

Lemma res_bind_Ok {A B : Type} (r : res A) (k : A -> res B) (b : B) :
  r ≫= k = Ok b -> exists a, r = Ok a /\ k a = Ok b.
Proof.
  destruct r as [a|msg]; simpl; intros H; [eauto | discriminate].
Qed.

Lemma updateState_captured sap br rowIdx sap' d :
  updateState sap br rowIdx = Ok (sap', d) ->
  captured sap' = captured sap /\ sa sap' = sa sap.
Proof.
  unfold updateState. intros H.
  apply res_bind_Ok in H as ([fs n] & _ & H). simpl in H.
  inversion H; subst; simpl; auto.
Qed.

Lemma updateStatsForRow_sets_captured sap br rowIdx sap' d :
  updateStatsForRow sap br rowIdx = Ok (sap', d) -> captured sap' = true.
Proof.
  unfold updateStatsForRow. destruct (captured sap) eqn:Hc; intros H.
  - inversion H; subst; auto.
  - apply updateState_captured in H as [H _]. rewrite H. reflexivity.
Qed.

Lemma updateStatsForAllRows_sets_captured sap br sap' d :
  rowsLen br <> 0%nat ->
  updateStatsForAllRows sap br = Ok (sap', d) -> captured sap' = true.
Proof.
  unfold updateStatsForAllRows. intros Hn.
  destruct (Nat.eqb_spec (rowsLen br) 0); [contradiction|].
  destruct (captured sap) eqn:Hc; intros H.
  - inversion H; subst; auto.
  - apply updateState_captured in H as [H _]. rewrite H. reflexivity.
Qed.

Lemma applyUpdate_captured u sap :
  captured sap = true -> applyUpdate u sap = Ok (sap, 0).
Proof.
  intros Hc. destruct u as [br|br rowIdx]; simpl.
  - unfold updateStatsForAllRows. rewrite Hc. destruct (rowsLen br =? 0)%nat; reflexivity.
  - unfold updateStatsForRow. rewrite Hc. reflexivity.
Qed.

Lemma applyUpdates_captured us sap :
  captured sap = true -> applyUpdates us sap = Ok (sap, 0).
Proof.
  intros Hc. induction us as [|u us IH]; simpl; [reflexivity|].
  rewrite applyUpdate_captured by assumption. simpl.
  rewrite IH. reflexivity.
Qed.


End RowAnyProperties.



Section RowAnyMerge.
Import RowAny RowAnyRuns.

Lemma consistent_new sa0 : consistent (newStatsProcessor sa0).
Proof. intros _. reflexivity. Qed.

Lemma consistent_applyUpdate u sap sap' d :
  consistent sap -> applyUpdate u sap = Ok (sap', d) -> consistent sap'.
Proof.
  intros Hc H Hf.
  destruct u as [br|br rowIdx]; simpl in H.
  - destruct (Nat.eq_dec (rowsLen br) 0%nat) as [Hz|Hz].
    + unfold updateStatsForAllRows in H. rewrite Hz in H. simpl in H.
      inversion H; subst. auto.
    + apply updateStatsForAllRows_sets_captured in H; [congruence | assumption].
  - apply updateStatsForRow_sets_captured in H. congruence.
Qed.

Lemma consistent_mergeState a b :
  consistent a -> consistent b -> consistent (mergeState a b).
Proof.
  unfold consistent, mergeState. intros Ha Hb.
  destruct (captured a) eqn:Hc; simpl; [congruence | exact Hb].
Qed.

Lemma mergeState_assoc a b c :
  mergeState (mergeState a b) c = mergeState a (mergeState b c).
Proof.
  unfold mergeState.
  destruct (captured a) eqn:Ha; [rewrite Ha; reflexivity|].
  simpl. destruct (captured b) eqn:Hb; simpl; rewrite ?Hb; reflexivity.
Qed.

(** C4, as amended.  Merging [row_any] states is associative, so that a
    fold of shard states does not depend on how it is bracketed.  It keeps
    the row of the receiver when the receiver has captured one and takes
    the row of the other state otherwise.  Hence two states that stem from
    [newStatsProcessor] merge to the same result in both orders when at most
    one of them has captured a row. *)
Theorem row_any_merge_associative_first_captured
    (a b c : statsRowAnyProcessor) (dst : string) :
  finalizeStats (mergeState (mergeState a b) c) dst
    = finalizeStats (mergeState a (mergeState b c)) dst
  /\ (captured a = true ->
        finalizeStats (mergeState a b) dst = finalizeStats a dst)
  /\ (captured a = false ->
        finalizeStats (mergeState a b) dst = finalizeStats b dst)
  /\ (consistent a -> consistent b -> captured a = false \/ captured b = false ->
        finalizeStats (mergeState a b) dst = finalizeStats (mergeState b a) dst).
Proof.
  split; [rewrite mergeState_assoc; reflexivity|].
  split; [intros Ha; unfold mergeState; rewrite Ha; reflexivity|].
  split; [intros Ha; unfold mergeState; rewrite Ha; reflexivity|].
  intros Ca Cb Hor. unfold finalizeStats, mergeState.
  destruct (captured a) eqn:Ha, (captured b) eqn:Hb; simpl.
  - destruct Hor; discriminate.
  - reflexivity.
  - reflexivity.
  - rewrite (Ca Ha), (Cb Hb). reflexivity.
Qed.

End RowAnyMerge.

Lemma row_any_merge_associative_first_captured_witness :
  RowAny.finalizeStats
    (RowAny.mergeState (RowAny.newStatsProcessor {| RowAny.sa_fields := [] |})
       {| RowAny.sa := {| RowAny.sa_fields := [] |}; RowAny.captured := true;
          RowAny.fields := [{| Name := "x"; Value := "1" |}] |}) ""
  = RowAny.finalizeStats
      (RowAny.mergeState
         {| RowAny.sa := {| RowAny.sa_fields := [] |}; RowAny.captured := true;
            RowAny.fields := [{| Name := "x"; Value := "1" |}] |}
         (RowAny.newStatsProcessor {| RowAny.sa_fields := [] |})) "".
Proof.
  apply (row_any_merge_associative_first_captured
           (RowAny.newStatsProcessor {| RowAny.sa_fields := [] |})
           {| RowAny.sa := {| RowAny.sa_fields := [] |}; RowAny.captured := true;
              RowAny.fields := [{| Name := "x"; Value := "1" |}] |}
           (RowAny.newStatsProcessor {| RowAny.sa_fields := [] |}) "").
  - intros _. reflexivity.
  - intros H. discriminate H.
  - left. reflexivity.
Defined.

(** C4, the counterexample.  Two processors of [row_any] over all the fields that have each
    captured the row of a block, with different values of [x]: merging
    the second into the first and the first into the second give
    different results. *)
Lemma row_any_merge_not_commutative :
  exists a b da db,
    RowAny.updateStatsForAllRows (RowAny.newStatsProcessor {| RowAny.sa_fields := [] |})
      (RowAnyRuns.blockOf "1") = Ok (a, da)
    /\ RowAny.updateStatsForAllRows (RowAny.newStatsProcessor {| RowAny.sa_fields := [] |})
         (RowAnyRuns.blockOf "2") = Ok (b, db)
    /\ RowAny.finalizeStats (RowAny.mergeState a b) ""
       <> RowAny.finalizeStats (RowAny.mergeState b a) "".
Proof.
  eexists _, _, _, _. split; [reflexivity|]. split; [reflexivity|].
  vm_compute. discriminate.
Qed.

(** ** The processor *)

(** Inversion of a bind that returns. *)
Ltac inv_bind H :=
  let x := fresh "x" in
  let Hx := fresh "Hx" in
  apply res_bind_Ok in H as (x & Hx & H).

Lemma wrap64_id (z : Z) : int64_range z -> wrap64 z = z.
Proof.
  unfold int64_range, wrap64. intros Hz.
  rewrite Z.mod_small by lia. lia.
Qed.

Lemma wrap64_range (z : Z) : int64_range (wrap64 z).
Proof.
  unfold int64_range, wrap64.
  pose proof (Z.mod_pos_bound (z + 2 ^ 63) (2 ^ 64) ltac:(lia)). lia.
Qed.

Lemma stealBudget_nonneg (local global : Z) :
  0 <= local -> stealBudget local global = Proceed local global.
Proof.
  intros H. simp stealBudget.
  destruct (decide (local < 0)); [lia | reflexivity].
Qed.

Lemma stealBudget_steal (local global : Z) :
  local < 0 -> 0 <= wrap64 (global - stateSizeBudgetChunk) ->
  stealBudget local global
  = stealBudget (local + stateSizeBudgetChunk) (wrap64 (global - stateSizeBudgetChunk)).
Proof.
  intros Hl Hr. rewrite stealBudget_equation_1.
  destruct (decide (local < 0)) as [Hd|Hd]; [|lia]. simpl.
  destruct (Z.ltb_spec (wrap64 (global - stateSizeBudgetChunk)) 0); [lia | reflexivity].
Qed.

Lemma wrap64_sub_neg (global : Z) :
  int64_range global -> wrap64 (global - stateSizeBudgetChunk) < 0 ->
  wrap64 (global - stateSizeBudgetChunk) = global - stateSizeBudgetChunk.
Proof.
  unfold stateSizeBudgetChunk. change (Z.shiftl 1 20) with 1048576.
  intros Hg Hr.
  destruct (Z_lt_dec (global - 1048576) (- 2 ^ 63)) as [Hlt|Hge].
  - exfalso. revert Hr. unfold wrap64, int64_range in *.
    assert (Hm : (global - 1048576 + 2 ^ 63) mod 2 ^ 64
                 = global - 1048576 + 2 ^ 63 + 2 ^ 64).
    { symmetry. apply Z.mod_unique with (q := -1); lia. }
    rewrite Hm. lia.
  - apply wrap64_id. unfold int64_range in *. lia.
Qed.

Lemma stealBudget_exhausted (local global : Z) :
  local < 0 -> wrap64 (global - stateSizeBudgetChunk) < 0 -> int64_range global ->
  stealBudget local global
  = Dropped local (wrap64 (global - stateSizeBudgetChunk)) (0 <=? global).
Proof.
  intros Hl Hr Hg. rewrite stealBudget_equation_1.
  destruct (decide (local < 0)) as [Hd|Hd]; [|lia]. simpl.
  destruct (Z.ltb_spec (wrap64 (global - stateSizeBudgetChunk)) 0); [|lia].
  f_equal.
  rewrite (wrap64_sub_neg global Hg Hr).
  replace (global - stateSizeBudgetChunk + stateSizeBudgetChunk) with global by lia.
  rewrite wrap64_id by assumption. reflexivity.
Qed.

(** X2.  The loop that steals budget ends, and it moves whole chunks: when
    the block is processed, the budget of the shard is not negative and is
    the old one plus some chunks, none if the old one was not negative, and
    otherwise as few as make it non-negative, with a global budget that is
    not negative after them; when the block is dropped, the budget of the
    shard is still negative and the global budget is negative. *)
Theorem stealBudget_moves_whole_chunks (local global : Z) :
  match stealBudget local global with
  | Proceed l g =>
      0 <= l
      /\ exists k, 0 <= k /\ l = local + k * stateSizeBudgetChunk
                  /\ (k = 0 -> g = global)
                  /\ (0 < k -> l < stateSizeBudgetChunk /\ 0 <= g)
  | Dropped l g c =>
      l < 0 /\ g < 0 /\ exists k, 0 <= k /\ l = local + k * stateSizeBudgetChunk
  end.
Proof.
  remember (Z.to_nat (- local)) as n eqn:Hn. revert local global Hn.
  induction n as [n IH] using lt_wf_ind. intros local global Hn.
  destruct (Z_lt_dec local 0) as [Hneg|Hpos].
  - destruct (Z_lt_dec (wrap64 (global - stateSizeBudgetChunk)) 0) as [Hr|Hr].
    + rewrite stealBudget_equation_1.
      destruct (decide (local < 0)) as [Hd|Hd]; [|lia]. simpl.
      rewrite (proj2 (Z.ltb_lt _ _) Hr).
      split; [assumption|]. split; [assumption|]. exists 0. lia.
    + rewrite stealBudget_steal by lia.
      assert (Hc : stateSizeBudgetChunk = 1048576) by reflexivity.
      specialize (IH (Z.to_nat (- (local + stateSizeBudgetChunk))) ltac:(lia)
                    (local + stateSizeBudgetChunk)
                    (wrap64 (global - stateSizeBudgetChunk)) eq_refl).
      destruct (stealBudget (local + stateSizeBudgetChunk)
                  (wrap64 (global - stateSizeBudgetChunk))) as [l g|l g c].
      * destruct IH as (Hl & k & Hk & Hlk & Hk0 & Hkp).
        split; [assumption|]. exists (k + 1).
        split; [lia|]. split; [lia|]. split; [lia|]. intros _.
        destruct (Z.eq_dec k 0) as [->|Hnz].
        -- rewrite (Hk0 eq_refl). lia.
        -- apply Hkp. lia.
      * destruct IH as (Hl & Hg & k & Hk & Hlk).
        split; [assumption|]. split; [assumption|]. exists (k + 1). lia.
  - rewrite stealBudget_nonneg by lia.
    split; [lia|]. exists 0. split; [lia|]. split; [lia|]. split; [auto | lia].
Qed.

Section ProcessorProperties.
Context {statsFunc statsProcessor iffilter : Type}.
Context `{SF : StatsFunc statsFunc statsProcessor} `{IFI : IfFilter iffilter}.
Context `{STR : Stringer statsFunc} `{HLP : Helpers}.

Abbreviation plan := (pipeStats statsFunc iffilter).
Abbreviation shard := (pipeStatsProcessorShard statsProcessor).
Abbreviation group := (pipeStatsGroup statsProcessor).
Abbreviation processor := (pipeStatsProcessor statsFunc iffilter statsProcessor).

(** C9.  [writeBlock] with a block of zero rows returns at once, for every
    worker ID, also one that has no shard: the processor, with its shards
    (maps, processors, budgets), its global budget and the calls of
    [cancel], is what it was. *)
Theorem writeBlock_zero_rows_is_noop
    (workerID : nat) (br : blockResult) (psp : processor) :
  rowsLen br = 0%nat -> psp_writeBlock workerID br psp = Ok psp.
Proof.
  intros Hz. unfold psp_writeBlock. rewrite Hz. reflexivity.
Qed.

Lemma index_lookup {A : Type} (l : list A) (i : nat) (x : A) :
  l !! i = Some x -> index l i = Ok x.
Proof. unfold index. intros ->. reflexivity. Qed.

Lemma setShard_setShard (sh : shard) (a b : Z) :
  setShard (setShard sh a) b = setShard sh b.
Proof. reflexivity. Qed.

Lemma setShard_same (sh : shard) : setShard sh (sh_stateSizeBudget sh) = sh.
Proof. destruct sh; reflexivity. Qed.

(** C2.  A call of [writeBlock] with a block that has rows, for a worker
    with the shard [sh].  When the budget of the shard is not negative, the
    block is aggregated and nothing is taken from the global budget.  When
    it is negative, one chunk is subtracted from the global budget: if the
    result is not negative the chunk is added to the budget of the shard
    and the call goes on from there (it tries again or aggregates); if it
    is negative the call returns with no shard changed (the block is
    dropped), and [cancel] has been called exactly when the global budget
    before this subtraction was not negative. *)
Theorem writeBlock_steals_budget_in_chunks
    (workerID : nat) (br : blockResult) (psp : processor) (sh : shard) :
  rowsLen br <> 0%nat ->
  shards psp !! workerID = Some sh ->
  int64_range (stateSizeBudget psp) ->
  (0 <= sh_stateSizeBudget sh ->
     psp_writeBlock workerID br psp = aggregated workerID sh br psp)
  /\ (sh_stateSizeBudget sh < 0 ->
      0 <= wrap64 (stateSizeBudget psp - stateSizeBudgetChunk) ->
      psp_writeBlock workerID br psp
      = psp_writeBlock workerID br (stolen workerID sh psp))
  /\ (sh_stateSizeBudget sh < 0 ->
      wrap64 (stateSizeBudget psp - stateSizeBudgetChunk) < 0 ->
      psp_writeBlock workerID br psp
      = Ok (dropped (0 <=? stateSizeBudget psp) psp)).
Proof.
  intros Hrows Hsh Hg.
  assert (Hr : (rowsLen br =? 0)%nat = false) by (apply Nat.eqb_neq; assumption).
  assert (Hlen : (workerID < List.length (shards psp))%nat)
    by (eapply lookup_lt_Some; eassumption).
  repeat split.
  - intros Hl. unfold psp_writeBlock, aggregated. rewrite Hr.
    rewrite (index_lookup _ _ _ Hsh). simpl.
    rewrite stealBudget_nonneg by assumption.
    rewrite setShard_same. reflexivity.
  - intros Hl Hrem. unfold psp_writeBlock at 1 2. rewrite Hr.
    rewrite (index_lookup _ _ _ Hsh). simpl.
    rewrite (index_lookup _ _ (setShard sh (sh_stateSizeBudget sh + stateSizeBudgetChunk)))
      by (apply list_lookup_insert_eq; assumption).
    simpl. rewrite (stealBudget_steal _ _ Hl Hrem).
    destruct (stealBudget _ _) as [l g|l g c]; simpl.
    + destruct (shard_writeBlock _ _ _); simpl; [|reflexivity].
      rewrite list_insert_insert_eq. reflexivity.
    + rewrite list_insert_insert_eq. reflexivity.
  - intros Hl Hrem. unfold psp_writeBlock. rewrite Hr.
    rewrite (index_lookup _ _ _ Hsh). simpl.
    rewrite (stealBudget_exhausted _ _ Hl Hrem Hg).
    unfold dropped. rewrite setShard_same.
    rewrite list_insert_id by assumption. reflexivity.
Qed.

Variable rangeMap : gmap string group -> list (string * group).


Lemma fold_append_names (names : list string) (acc : list resultColumn) :
  List.map rc_name (fold_left appendResultColumnWithName names acc)
  = List.map rc_name acc ++ names.
Proof.
  revert acc. induction names as [|n names IH]; intros acc; simpl.
  - rewrite app_nil_r. reflexivity.
  - rewrite IH. unfold appendResultColumnWithName.
    rewrite List.map_app. simpl. rewrite <- app_assoc. reflexivity.
Qed.

Lemma initResultColumns_names (p : plan) :
  List.map rc_name (initResultColumns p) = schemaNames p.
Proof.
  unfold initResultColumns, schemaNames.
  rewrite !fold_append_names. reflexivity.
Qed.

Lemma fold_append_values (names : list string) (acc : list resultColumn) :
  Forall (fun rc => List.length (rc_values rc) = 0%nat) acc ->
  Forall (fun rc => List.length (rc_values rc) = 0%nat)
    (fold_left appendResultColumnWithName names acc).
Proof.
  revert acc. induction names as [|n names IH]; intros acc Hacc; simpl; [assumption|].
  apply IH. unfold appendResultColumnWithName.
  apply Forall_app. split; [assumption|]. constructor; [reflexivity | constructor].
Qed.

Lemma schemaNames_length (p : plan) :
  List.length (schemaNames p) = (List.length (byFields p) + List.length (funcs p))%nat.
Proof.
  unfold schemaNames. rewrite List.length_app, !List.length_map. reflexivity.
Qed.

Lemma hasSchema_intro (p : plan) (rcs : list resultColumn) (rows : nat) :
  List.map rc_name rcs = schemaNames p ->
  Forall (fun rc => List.length (rc_values rc) = rows) rcs ->
  hasSchema p rcs.
Proof.
  intros Hn Hr. split; [|split; [assumption | eauto]].
  rewrite <- schemaNames_length, <- Hn, List.length_map. reflexivity.
Qed.

Lemma addValues_names (rcs : list resultColumn) (values : list string) (n : Z) :
  List.map rc_name (fst (addValues rcs values n)) = List.map rc_name rcs.
Proof.
  revert values n. induction rcs as [|rc rcs IH]; intros [|v values] n; simpl; auto.
  specialize (IH values (wrap64 (n + len v))).
  destruct (addValues rcs values (wrap64 (n + len v))) as [rcs' n'].
  simpl in *. rewrite IH. reflexivity.
Qed.

Lemma addValues_rows (rcs : list resultColumn) (values : list string) (n : Z) (rows : nat) :
  List.length values = List.length rcs ->
  Forall (fun rc => List.length (rc_values rc) = rows) rcs ->
  Forall (fun rc => List.length (rc_values rc) = S rows) (fst (addValues rcs values n)).
Proof.
  revert values n. induction rcs as [|rc rcs IH]; intros [|v values] n Hlen Hrows;
    simpl in *; try discriminate; [constructor|].
  inversion Hrows as [|? ? Hrc Hrest]; subst.
  specialize (IH values (wrap64 (n + len v)) ltac:(lia) Hrest).
  destruct (addValues rcs values (wrap64 (n + len v))) as [rcs' n'].
  simpl in *. constructor; [|assumption].
  unfold addValue. simpl. rewrite List.length_app. simpl. lia.
Qed.

Lemma emitGroup_inv (p : plan) (stop : nat -> bool) (key : string) (psg : group)
    (old : list (list resultColumn)) (st st' : emitSt) :
  emitInv p old st -> emitGroup p stop key psg st = Ok st' -> emitInv p old st'.
Proof.
  intros [(rows & Hn & Hr) (new & Hb & Hnew)] H. unfold emitGroup in H.
  destruct (stop (em_polls st)).
  { inversion H; subst; clear H. split; simpl; eauto. }
  inv_bind H.
  destruct (negb (List.length x =? List.length (byFields p))%nat); [discriminate|].
  destruct (negb (List.length (x ++ List.map finalizeStats (sfps psg))
                  =? List.length (em_rcs st))%nat) eqn:Hlen; [discriminate|].
  apply negb_false_iff, Nat.eqb_eq in Hlen.
  pose proof (addValues_names (em_rcs st) (x ++ List.map finalizeStats (sfps psg))
                (em_valuesLen st)) as Hn1.
  pose proof (addValues_rows (em_rcs st) (x ++ List.map finalizeStats (sfps psg))
                (em_valuesLen st) rows Hlen Hr) as Hr1.
  destruct (addValues _ _ _) as [rcs1 valuesLen1]. simpl in Hn1, Hr1.
  destruct (1000000 <=? valuesLen1); inversion H; subst; clear H; split; simpl.
  - exists 0%nat. split.
    + rewrite <- Hn, <- Hn1, List.map_map. apply List.map_ext. intros rc. reflexivity.
    + apply Forall_map. apply Forall_forall. intros rc _. reflexivity.
  - exists (rcs1 :: new). rewrite Hb. split; [reflexivity|].
    constructor; [|assumption].
    apply (hasSchema_intro p rcs1 (S rows)); [congruence | assumption].
  - exists (S rows). split; [congruence | assumption].
  - eauto.
Qed.

Lemma emitGroups_inv (p : plan) (stop : nat -> bool) (entries : list (string * group))
    (old : list (list resultColumn)) (st st' : emitSt) :
  emitInv p old st -> emitGroups p stop entries st = Ok st' -> emitInv p old st'.
Proof.
  revert st. induction entries as [|[key psg] entries IH]; intros st Hinv H; simpl in H.
  - inversion H; subst. assumption.
  - destruct (em_stopped st).
    + inversion H; subst. assumption.
    + inv_bind H. eapply IH; [|eassumption].
      eapply emitGroup_inv; eassumption.
Qed.

(** C6.  Every block that [flush] hands to [ppBase.writeBlock] has exactly
    [len(byFields) + len(funcs)] columns: one per [by] field, named after
    the field, in the order of the fields, and then one per function, named
    by its [resultName], in the order of the functions.  Its columns hold
    one value per row. *)
Theorem flush_blocks_have_schema (psp psp' : processor) (err : option string) :
  flush rangeMap psp = Ok (err, psp') ->
  exists new,
    ppBase_blocks psp' = new ++ ppBase_blocks psp
    /\ Forall (fun rcs =>
                 List.length rcs
                 = (List.length (byFields (ps psp)) + List.length (funcs (ps psp)))%nat
                 /\ List.map rc_name rcs
                    = List.map bf_name (byFields (ps psp))
                      ++ List.map resultName (funcs (ps psp))
                 /\ exists rows,
                      Forall (fun rc => List.length (rc_values rc) = rows) rcs) new.
Proof.
  intros H. unfold flush in H.
  destruct (stateSizeBudget psp <=? 0).
  { inv_bind H. inversion H; subst. exists []. split; [reflexivity | constructor]. }
  inv_bind H. destruct x as [[mst sh0] rest].
  destruct (mg_stopped mst).
  { inversion H; subst. exists []. split; [reflexivity | constructor]. }
  inv_bind H. destruct x as [m shs2]. inv_bind H. rename x into x1.
  assert (Hinv : emitInv (ps psp) (ppBase_blocks psp) x1).
  { eapply emitGroups_inv; [|eassumption]. split; simpl.
    - exists 0%nat. split; [apply initResultColumns_names|].
      unfold initResultColumns. apply fold_append_values, fold_append_values.
      constructor.
    - exists []. split; [reflexivity | constructor]. }
  destruct Hinv as [(rows & Hn & Hr) (new & Hb & Hnew)].
  destruct (em_stopped x1); inversion H; subst; clear H; simpl.
  - exists new. split; assumption.
  - exists (em_rcs x1 :: new). rewrite Hb. split; [reflexivity|].
    constructor; [|assumption].
    apply (hasSchema_intro _ _ rows); assumption.
Qed.

End ProcessorProperties.

(** ** The parser *)

Section ParserProperties.
Context {lexer statsFunc iffilter : Type}.
Context `{LX : Lexer lexer} `{SP : StatsParsers lexer statsFunc iffilter}.
Context `{STR : Stringer statsFunc} `{IFI : IfFilter iffilter}.
Context `{HLP : Helpers}.

Lemma parseBucketOffset_keeps_size fieldName bf lex bf' lex' :
  parseBucketOffset fieldName bf lex = Parsed bf' lex' ->
  bucketSizeStr bf' = bucketSizeStr bf /\ bucketSize bf' = bucketSize bf.
Proof.
  unfold parseBucketOffset. intros H.
  destruct (isKeyword lex ["offset"%string]).
  - destruct (String.eqb (token (nextToken lex)) "-");
      destruct (tryParseBucketOffset _) as [off ok]; destruct ok; simpl in H;
      inversion H; subst; simpl; auto.
  - inversion H; subst; auto.
Qed.

Lemma parseByStatsField_recorded lex bf lex' :
  parseByStatsField lex = Parsed bf lex' -> bucketSizeRecorded bf.
Proof.
  unfold parseByStatsField. intros H.
  destruct (wrapErr _ (getCompoundPhrase lex false)) as [name lex1|err]; [|discriminate].
  destruct (isKeyword lex1 [":"%string]).
  - set (tok := if String.eqb (token (nextToken lex1)) "/" then _ else _) in H.
    destruct tok as [s lex4].
    destruct (negb (String.eqb s "year") && negb (String.eqb s "month")) eqn:Hym.
    + destruct (tryParseBucketSize s) as [f ok] eqn:Hp. destruct ok; [|discriminate].
      simpl in H. apply parseBucketOffset_keeps_size in H as [Hs Hf]. simpl in Hs, Hf.
      unfold bucketSizeRecorded. rewrite Hs, Hf.
      apply andb_true_iff in Hym as [Hy Hm].
      apply negb_true_iff in Hy, Hm. rewrite Hy, Hm. simpl. left. assumption.
    + apply parseBucketOffset_keeps_size in H as [Hs Hf]. simpl in Hs, Hf.
      unfold bucketSizeRecorded. rewrite Hs, Hf.
      destruct (String.eqb s "year"); [reflexivity|].
      destruct (String.eqb s "month"); [reflexivity | discriminate].
  - inversion H; subst. unfold bucketSizeRecorded. simpl. right. auto.
Qed.

Lemma parseByStatsFieldsLoop_recorded fuel bfs lex bfs' lex' :
  Forall bucketSizeRecorded bfs ->
  parseByStatsFieldsLoop fuel bfs lex = Some (Parsed bfs' lex') ->
  Forall bucketSizeRecorded bfs'.
Proof.
  revert bfs lex. induction fuel as [|fuel IH]; intros bfs lex Hbfs H; simpl in H.
  - discriminate.
  - destruct (isKeyword (nextToken lex) [")"%string]).
    + inversion H; subst. assumption.
    + destruct (parseByStatsField (nextToken lex)) as [bf lex2|err] eqn:Hbf;
        [|discriminate].
      assert (Hbfs1 : Forall bucketSizeRecorded (bfs ++ [bf])).
      { apply Forall_app. split; [assumption|].
        constructor; [|constructor]. eapply parseByStatsField_recorded; eassumption. }
      destruct (isKeyword lex2 [")"%string]).
      * inversion H; subst. assumption.
      * destruct (isKeyword lex2 [","%string]); [|discriminate].
        eapply IH; eassumption.
Qed.

Lemma parsePipeStatsLoop_funcs fuel bfs fs lex p lex' :
  parsePipeStatsLoop fuel bfs fs lex = Some (Parsed p lex') ->
  byFields p = bfs /\ exists fn more, funcs p = fs ++ fn :: more.
Proof.
  revert fs lex. induction fuel as [|fuel IH]; intros fs lex H; simpl in H.
  - discriminate.
  - destruct (parsePipeStatsFunc lex) as [fn lex1|err]; [|discriminate].
    destruct (isKeyword lex1 ["|"; ")"; ""]%string).
    + inversion H; subst; simpl. split; [reflexivity|]. exists fn, []. reflexivity.
    + destruct (negb (isKeyword lex1 [","%string])); [discriminate|].
      apply IH in H as [Hb (fn' & more & Hf)]. split; [assumption|].
      exists fn, (fn' :: more). rewrite Hf, <- app_assoc. reflexivity.
Qed.

Lemma parsePipeStats_inv fuel lex p lex' :
  parsePipeStats fuel lex = Some (Parsed p lex') ->
  Forall bucketSizeRecorded (byFields p) /\ funcs p <> [].
Proof.
  unfold parsePipeStats. intros H.
  destruct (negb (isKeyword lex ["stats"%string])); [discriminate|].
  assert (Hne : forall bfs lex0,
             parsePipeStatsLoop fuel bfs [] lex0 = Some (Parsed p lex') ->
             byFields p = bfs /\ funcs p <> []).
  { intros bfs lex0 H0. apply parsePipeStatsLoop_funcs in H0 as [Hb (fn & more & Hf)].
    split; [assumption|]. rewrite Hf. simpl. discriminate. }
  destruct (isKeyword (nextToken lex) ["by"; "("]%string).
  - destruct (parseByStatsFields fuel _) as [[bfs lex3|err]|] eqn:Hby; try discriminate.
    apply Hne in H as [Hb Hf]. split; [|assumption]. rewrite Hb.
    unfold parseByStatsFields in Hby.
    destruct (negb (isKeyword _ ["("%string])); [discriminate|].
    eapply parseByStatsFieldsLoop_recorded; [constructor | eassumption].
  - apply Hne in H as [Hb Hf]. split; [|assumption]. rewrite Hb. constructor.
Qed.


(** C8, as amended.  Every plan that [parsePipeStats] returns has at least
    one function.  (The parser does not compare the result names of the
    functions with each other.) *)
Theorem parsed_plan_has_a_function fuel lex p lex' :
  parsePipeStats fuel lex = Some (Parsed p lex') ->
  funcs p <> [] /\ (1 <= List.length (funcs p))%nat.
Proof.
  intros H. apply parsePipeStats_inv in H as [_ H]. split; [assumption|].
  destruct (funcs p); [contradiction | simpl; lia].
Qed.

End ParserProperties.

(** C8, the counterexample.  The clause
    [stats count() as x, count() as x] parses to a plan whose two functions
    have the same result name. *)
Lemma parsed_plan_with_equal_result_names :
  exists p lex',
    parsePipeStats 8 ["stats"; "count"; "("; ")"; "as"; "x"; ",";
                      "count"; "("; ")"; "as"; "x"]%string
    = Some (Parsed p lex')
    /\ List.map resultName (funcs p) = ["x"; "x"]%string
    /\ ~ NoDup (List.map resultName (funcs p)).
Proof.
  eexists _, _. split; [vm_compute; reflexivity|]. split; [reflexivity|].
  simpl. intros Hnd. inversion Hnd as [|? ? Hnotin _]; subst.
  apply Hnotin. left.
Qed.

(** ** The key codec: round trip *)

Section Codec.
Import encoding.

Lemma str_app_cons (a : ascii) (s t : string) : String a s +:+ t = String a (s +:+ t).
Proof. reflexivity. Qed.

Lemma str_app_nil_l (t : string) : ""%string +:+ t = t.
Proof. reflexivity. Qed.

Lemma str_app_nil_r (s : string) : s +:+ "" = s.
Proof. induction s as [|a s IH]; [reflexivity|]. rewrite str_app_cons, IH. reflexivity. Qed.

Lemma str_app_assoc (a b c : string) : (a +:+ b) +:+ c = a +:+ (b +:+ c).
Proof.
  induction a as [|x a IH]; [reflexivity|]. rewrite !str_app_cons, IH. reflexivity.
Qed.

Lemma str_length_app (a b : string) :
  String.length (a +:+ b) = (String.length a + String.length b)%nat.
Proof.
  induction a as [|x a IH]; [reflexivity|]. rewrite str_app_cons. simpl. rewrite IH.
  reflexivity.
Qed.

Lemma len_app (a b : string) : len (a +:+ b) = len a + len b.
Proof. unfold len. rewrite str_length_app. lia. Qed.

Lemma len_nonneg (s : string) : 0 <= len s.
Proof. unfold len. lia. Qed.

Lemma str_drop_app (a b : string) : str_drop (String.length a) (a +:+ b) = b.
Proof.
  induction a as [|x a IH].
  - destruct b; reflexivity.
  - rewrite str_app_cons. simpl. assumption.
Qed.

Lemma str_take_app (a b : string) : str_take (String.length a) (a +:+ b) = a.
Proof.
  induction a as [|x a IH].
  - destruct b; reflexivity.
  - rewrite str_app_cons. simpl. rewrite IH. reflexivity.
Qed.

Lemma Z_of_byte_of_Z (z : Z) : Z_of_byte (byte_of_Z z) = z mod 256.
Proof.
  unfold Z_of_byte, byte_of_Z.
  pose proof (Z.mod_pos_bound z 256 ltac:(lia)) as Hb.
  rewrite N_ascii_embedding by lia. lia.
Qed.

Lemma Z_of_byte_range (a : ascii) : 0 <= Z_of_byte a < 256.
Proof.
  unfold Z_of_byte. pose proof (N_ascii_bounded a). lia.
Qed.

(** Facts on the continuation bit, checked on every byte. *)
Lemma continuation_byte (a : ascii) :
  Z_of_byte (byte_of_Z (Z.lor (Z_of_byte a) 128)) = Z.lor (Z_of_byte a) 128
  /\ (Z.lor (Z_of_byte a) 128 <? 128) = false
  /\ Z.land (Z.lor (Z_of_byte a) 128) 127 = Z_of_byte a mod 128.
Proof.
  destruct a as [[] [] [] [] [] [] [] []]; vm_compute; auto.
Qed.

Lemma lor_shiftl_add (a c s : Z) :
  0 <= s -> 0 <= a < 2 ^ s -> 0 <= c -> Z.lor a (Z.shiftl c s) = a + c * 2 ^ s.
Proof.
  intros Hs Ha Hc. rewrite <- Z.shiftl_mul_pow2 by assumption.
  symmetry. apply Z.add_nocarry_lor.
  apply Z.bits_inj'. intros n Hn.
  rewrite Z.land_spec, Z.bits_0.
  destruct (Z_lt_dec n s) as [Hlt|Hge].
  - rewrite Z.shiftl_spec_low by assumption. apply andb_false_r.
  - replace a with (a mod 2 ^ s) by (apply Z.mod_small; assumption).
    rewrite Z.mod_pow2_bits_high by lia. reflexivity.
Qed.

Lemma putUvarint_small (x : Z) :
  x < 128 -> putUvarint x = String (byte_of_Z x) "".
Proof.
  intros Hx. rewrite putUvarint_equation_1.
  destruct (decide (128 <= x)); [lia | reflexivity].
Qed.

Lemma putUvarint_big (x : Z) :
  128 <= x ->
  putUvarint x
  = String (byte_of_Z (Z.lor (x mod 256) 128)) (putUvarint (Z.shiftr x 7)).
Proof.
  intros Hx. rewrite putUvarint_equation_1.
  destruct (decide (128 <= x)); [reflexivity | lia].
Qed.

Lemma uvarint_cons (b : ascii) (buf : string) (i : nat) (x s : Z) :
  uvarint (String b buf) i x s
  = if (i =? 10)%nat then (0, - (Z.of_nat i + 1))
    else if Z_of_byte b <? 128 then
      if (i =? 9)%nat && (1 <? Z_of_byte b) then (0, - (Z.of_nat i + 1))
      else (Z.lor x (Z.shiftl (Z_of_byte b) s mod 2 ^ 64), Z.of_nat i + 1)
    else uvarint buf (S i) (Z.lor x (Z.shiftl (Z.land (Z_of_byte b) 127) s)) (s + 7).
Proof. reflexivity. Qed.

Lemma len_cons (a : ascii) (s : string) : len (String a s) = 1 + len s.
Proof. unfold len. simpl String.length. lia. Qed.

Lemma pow2_split (s : Z) : 0 <= s <= 56 -> 2 ^ (63 - s) * 2 ^ s = 2 ^ 63
                                          /\ 2 ^ (63 - s) = 128 * 2 ^ (56 - s)
                                          /\ 2 ^ (s + 7) = 128 * 2 ^ s
                                          /\ 0 < 2 ^ s /\ 0 < 2 ^ (56 - s).
Proof.
  intros Hs. repeat split.
  - rewrite <- Z.pow_add_r by lia. f_equal. lia.
  - replace (63 - s) with (7 + (56 - s)) by lia. rewrite Z.pow_add_r by lia. reflexivity.
  - rewrite Z.pow_add_r by lia. change (2 ^ 7) with 128. lia.
  - apply Z.pow_pos_nonneg; lia.
  - apply Z.pow_pos_nonneg; lia.
Qed.

(** Decoding what [putUvarint] wrote, from the byte number [i] on, with
    [x0] the value of the bytes before. *)
Lemma uvarint_putUvarint (x : Z) :
  0 <= x ->
  forall (i : nat) (x0 : Z) (rest : string),
    (i <= 8)%nat ->
    0 <= x0 < 2 ^ (7 * Z.of_nat i) ->
    x < 2 ^ (63 - 7 * Z.of_nat i) ->
    uvarint (putUvarint x +:+ rest) i x0 (7 * Z.of_nat i)
    = (x0 + x * 2 ^ (7 * Z.of_nat i), Z.of_nat i + len (putUvarint x)).
Proof.
  intros Hx. revert Hx. pattern x.
  apply (well_founded_induction (Z.lt_wf 0)). clear x.
  intros x IH Hx i x0 rest Hi Hx0 Hxb.
  set (s := 7 * Z.of_nat i) in *.
  assert (Hs : 0 <= s <= 56) by (unfold s; lia).
  destruct (pow2_split s Hs) as (Hp1 & Hp2 & Hp3 & Hp4 & Hp5).
  assert (Hi10 : (i =? 10)%nat = false) by (apply Nat.eqb_neq; lia).
  assert (Hi9 : (i =? 9)%nat = false) by (apply Nat.eqb_neq; lia).
  destruct (Z_lt_dec x 128) as [Hsmall|Hbig].
  - rewrite putUvarint_small by assumption.
    rewrite str_app_cons, str_app_nil_l, uvarint_cons, Hi10.
    rewrite Z_of_byte_of_Z, Z.mod_small by lia.
    rewrite (proj2 (Z.ltb_lt x 128) Hsmall), Hi9. simpl andb. cbv iota.
    rewrite len_cons. change (len "") with 0.
    assert (Hm : x * 2 ^ s < 2 ^ 63) by nia.
    rewrite Z.shiftl_mul_pow2 by lia.
    rewrite Z.mod_small by (split; [nia | lia]).
    rewrite <- Z.shiftl_mul_pow2 by lia.
    rewrite lor_shiftl_add by lia.
    rewrite ?Z.shiftl_mul_pow2 by lia. f_equal.
  - assert (Hx128 : 128 <= x) by lia.
    rewrite putUvarint_big by assumption.
    rewrite str_app_cons, uvarint_cons, Hi10.
    rewrite <- (Z_of_byte_of_Z x).
    destruct (continuation_byte (byte_of_Z x)) as (F1 & F2 & F3).
    rewrite F1, F2, F3. rewrite Z_of_byte_of_Z.
    assert (Hmm : (x mod 256) mod 128 = x mod 128).
    { apply Z.mod_mod_divide. exists 2. reflexivity. }
    rewrite Hmm.
    pose proof (Z.mod_pos_bound x 128 ltac:(lia)) as Hmod.
    pose proof (Z.div_mod x 128 ltac:(lia)) as Hdm.
    rewrite lor_shiftl_add by lia.
    rewrite Z.shiftr_div_pow2 by lia. change (2 ^ 7) with 128.
    assert (Hi7 : (i <= 7)%nat).
    { destruct (Nat.eq_dec i 8%nat) as [Hi8|]; [|lia].
      exfalso. unfold s in Hxb. rewrite Hi8 in Hxb. simpl in Hxb. lia. }
    replace (s + 7) with (7 * Z.of_nat (S i)) by (unfold s; lia).
    assert (Hs' : 7 * Z.of_nat (S i) = s + 7) by (unfold s; lia).
    assert (Hdiv : 0 <= x / 128 < x).
    { split; [apply Z.div_pos; lia | apply Z.div_lt; lia]. }
    rewrite (IH (x / 128)); try lia.
    + rewrite Hs', Hp3, len_cons. f_equal; [nia | lia].
    + rewrite Hs', Hp3. nia.
    + rewrite Hs'. replace (63 - (s + 7)) with (56 - s) by lia.
      apply Z.div_lt_upper_bound; lia.
Qed.

(** The byte length of a varint is positive. *)
Lemma putUvarint_len_pos (x : Z) : 0 < len (putUvarint x).
Proof.
  destruct (Z_lt_dec x 128).
  - rewrite putUvarint_small by assumption. rewrite len_cons. pose proof (len_nonneg ""). lia.
  - rewrite putUvarint_big by lia. rewrite len_cons.
    pose proof (len_nonneg (putUvarint (Z.shiftr x 7))). lia.
Qed.

Lemma MarshalBytes_app (dst b : string) :
  MarshalBytes dst b = dst +:+ MarshalBytes "" b.
Proof.
  unfold MarshalBytes, MarshalVarUint64. rewrite str_app_nil_l, str_app_assoc. reflexivity.
Qed.

Lemma MarshalBytes_len_pos (b : string) : 0 < len (MarshalBytes "" b).
Proof.
  unfold MarshalBytes, MarshalVarUint64. rewrite str_app_nil_l, len_app.
  pose proof (putUvarint_len_pos (len b mod 2 ^ 64)). pose proof (len_nonneg b). lia.
Qed.

(** One fragment: [UnmarshalBytes] reads back what [MarshalBytes] wrote and
    tells where the fragment ends. *)
Lemma UnmarshalBytes_MarshalBytes (v rest : string) :
  len v < 2 ^ 63 ->
  UnmarshalBytes (MarshalBytes "" v +:+ rest) = (v, len (MarshalBytes "" v))
  /\ str_drop (Z.to_nat (len (MarshalBytes "" v))) (MarshalBytes "" v +:+ rest) = rest.
Proof.
  intros Hv. pose proof (len_nonneg v) as Hv0.
  split.
  - unfold UnmarshalBytes, UnmarshalVarUint64, MarshalBytes, MarshalVarUint64.
    rewrite str_app_nil_l, Z.mod_small by lia.
    rewrite !str_app_assoc.
    pose proof (uvarint_putUvarint (len v) Hv0 0 0 (v +:+ rest)) as Hu.
    change (7 * Z.of_nat 0) with 0 in Hu. change (2 ^ 0) with 1 in Hu.
    rewrite Hu by (simpl; lia). clear Hu.
    pose proof (putUvarint_len_pos (len v)) as Hpos.
    replace (0 + len v * 1) with (len v) by lia.
    replace (Z.of_nat 0 + len (putUvarint (len v))) with (len (putUvarint (len v))) by lia.
    destruct (Z.leb_spec (len (putUvarint (len v))) 0); [lia|].
    rewrite !len_app.
    destruct (Z.ltb_spec (len (putUvarint (len v)) + (len v + len rest))
                (len (putUvarint (len v)) + len v)) as [Hlt|_].
    { pose proof (len_nonneg rest). lia. }
    f_equal. unfold len at 1 2. rewrite !Nat2Z.id.
    rewrite str_drop_app, str_take_app. reflexivity.
  - unfold len. rewrite Nat2Z.id. apply str_drop_app.
Qed.

End Codec.

Lemma decodeKey_cons (a : ascii) (s : string) :
  decodeKey (String a s)
  = let '(v, nSize) := encoding.UnmarshalBytes (String a s) in
    if decide (nSize <= 0) then Panic "BUG: cannot unmarshal value from keyBuf"
    else vs ← decodeKey (str_drop (Z.to_nat nSize) (String a s)); Ok (v :: vs).
Proof.
  rewrite decodeKey_equation_2.
  destruct (encoding.UnmarshalBytes (String a s)) as [v nSize] eqn:Hu.
  simpl. destruct (decide (nSize <= 0)); reflexivity.
Qed.

Lemma fold_MarshalBytes_app (vs : list string) (acc : string) :
  fold_left encoding.MarshalBytes vs acc = acc +:+ marshalKey vs.
Proof.
  unfold marshalKey. revert acc. induction vs as [|v vs IH]; intros acc; simpl.
  - rewrite str_app_nil_r. reflexivity.
  - rewrite IH. rewrite (IH (encoding.MarshalBytes "" v)).
    rewrite (MarshalBytes_app acc v), str_app_assoc. reflexivity.
Qed.

Lemma marshalKey_cons (v : string) (vs : list string) :
  marshalKey (v :: vs) = encoding.MarshalBytes "" v +:+ marshalKey vs.
Proof.
  unfold marshalKey at 1. simpl. apply fold_MarshalBytes_app.
Qed.

(** The round trip of the key codec: the loop of [flush] decodes the key of
    the values [vs] to [vs]. *)
Lemma decodeKey_marshalKey (vs : list string) :
  Forall (fun v => len v < 2 ^ 63) vs -> decodeKey (marshalKey vs) = Ok vs.
Proof.
  induction vs as [|v vs IH]; intros Hvs.
  - reflexivity.
  - inversion Hvs as [|? ? Hv Hrest]; subst.
    rewrite marshalKey_cons.
    destruct (UnmarshalBytes_MarshalBytes v (marshalKey vs) Hv) as [Hu Hd].
    pose proof (MarshalBytes_len_pos v) as Hpos.
    destruct (encoding.MarshalBytes "" v +:+ marshalKey vs) as [|a s] eqn:E.
    + exfalso. apply (f_equal len) in E. rewrite len_app in E.
      pose proof (len_nonneg (marshalKey vs)). change (len "") with 0 in E. lia.
    + rewrite decodeKey_cons, Hu.
      destruct (decide (len (encoding.MarshalBytes "" v) <= 0)); [lia|].
      rewrite Hd, (IH Hrest). reflexivity.
Qed.

(** ** The keys of the groups *)

Section KeyProperties.
Context {statsFunc statsProcessor iffilter : Type}.
Context `{SF : StatsFunc statsFunc statsProcessor} `{IFI : IfFilter iffilter}.
Context `{STR : Stringer statsFunc} `{HLP : Helpers}.

Abbreviation plan := (pipeStats statsFunc iffilter).
Abbreviation shard := (pipeStatsProcessorShard statsProcessor).
Abbreviation group := (pipeStatsGroup statsProcessor).
Abbreviation processor := (pipeStatsProcessor statsFunc iffilter statsProcessor).

Variable rangeMap : gmap string group -> list (string * group).

(** The iteration over a map visits the entries of the map, in some order. *)
Hypothesis rangeMap_perm : forall m, rangeMap m ≡ₚ map_to_list m.

(** A bucketed value is a Go string: its length fits in an [int]. *)
Hypothesis bucketed_len : forall br v bf, len (getBucketedValue br v bf) < 2 ^ 63.

Abbreviation short := (fun v : string => len v < 2 ^ 63).

Lemma keysOk_insert (p : plan) (m : gmap string group) (key : string) (psg : group) :
  keysOk p m -> keyOk p key -> keysOk p (<[key := psg]> m).
Proof.
  intros Hm Hk k g Hl.
  destruct (decide (key = k)) as [->|Hne].
  - exact Hk.
  - rewrite lookup_insert_ne in Hl by assumption. eapply Hm; eassumption.
Qed.

Lemma getPipeStatsGroup_keys (p : plan) (key : string) (sh : shard) :
  keysOk p (sh_m sh) -> keyOk p key ->
  keysOk p (sh_m (snd (getPipeStatsGroup p key sh)))
  /\ is_Some (sh_m (snd (getPipeStatsGroup p key sh)) !! key).
Proof.
  intros Hm Hk. unfold getPipeStatsGroup.
  destruct (sh_m sh !! key) as [psg|] eqn:Hl; simpl.
  - split; [assumption|]. rewrite Hl. eauto.
  - destruct (newStatsProcessors (funcs p) (sh_stateSizeBudget sh)) as [sfps0 budget].
    simpl. split.
    + apply keysOk_insert; assumption.
    + rewrite lookup_insert_eq. eauto.
Qed.

Lemma updateGroup_keys (p : plan) (sh sh' : shard) (key : string)
    (upd : group -> res (group * Z)) :
  keysOk p (sh_m sh) -> updateGroup sh key upd = Ok sh' -> keysOk p (sh_m sh').
Proof.
  intros Hm H. unfold updateGroup in H.
  destruct (sh_m sh !! key) as [psg|] eqn:Hl; [|discriminate].
  inv_bind H. destruct x as [psg' n]. inversion H; subst; simpl.
  apply keysOk_insert; [assumption|]. eapply Hm; eassumption.
Qed.

Lemma updateAllRowsAt_keys (p : plan) (sh sh' : shard) (key : string)
    (brs : list blockResult) :
  keysOk p (sh_m sh) -> keyOk p key ->
  updateAllRowsAt p sh key brs = Ok sh' -> keysOk p (sh_m sh').
Proof.
  intros Hm Hk H. unfold updateAllRowsAt in H.
  destruct (getPipeStatsGroup_keys p key sh Hm Hk) as [Hm1 _].
  destruct (getPipeStatsGroup p key sh) as [psg sh1]. simpl in Hm1.
  eapply updateGroup_keys; eassumption.
Qed.

Lemma forRange_inv {S : Type} (I : S -> Prop) (body : nat -> S -> res S) :
  (forall i s s', I s -> body i s = Ok s' -> I s') ->
  forall n i s s', I s -> forRange body i n s = Ok s' -> I s'.
Proof.
  intros Hbody n. induction n as [|n IH]; intros i s s' Hs H; simpl in H.
  - inversion H; subst. assumption.
  - inv_bind H. eapply IH; [|eassumption]. eapply Hbody; eassumption.
Qed.

Lemma index_In {A : Type} (l : list A) (i : nat) (x : A) :
  index l i = Ok x -> x ∈ l.
Proof.
  unfold index. destruct (l !! i) as [y|] eqn:Hl; [|discriminate].
  intros H. inversion H; subst.
  eapply list_elem_of_lookup_2. eassumption.
Qed.

Lemma keyOk_single (p : plan) (bf : byStatsField) (v : string) :
  byFields p = [bf] -> short v -> keyOk p (encoding.MarshalBytes "" v).
Proof.
  intros Hb Hv. exists [v]. rewrite Hb. split; [reflexivity|].
  split; [reflexivity|]. constructor; [assumption | constructor].
Qed.

Lemma getValuesBucketed_short (c : blockResultColumn) (br : blockResult)
    (bf : byStatsField) (values : list string) :
  getValuesBucketed c br bf = Ok values -> Forall short values.
Proof.
  unfold getValuesBucketed. intros H. inv_bind H. inversion H; subst.
  apply Forall_forall. intros v Hv.
  apply list_elem_of_In, List.in_map_iff in Hv as (v0 & <- & _).
  apply bucketed_len.
Qed.

Lemma singleColumnRow_keys (p : plan) (bf : byStatsField) (values : list string)
    (brs : list blockResult) (i : nat) (st st' : shard * string) :
  byFields p = [bf] -> Forall short values ->
  keysOk p (sh_m (fst st)) ->
  singleColumnRow p values brs i st = Ok st' ->
  keysOk p (sh_m (fst st')).
Proof.
  intros Hb Hvs Hm H. destruct st as [sh kb]. unfold singleColumnRow in H.
  inv_bind H. rename x into v. inv_bind H. rename x into changed.
  assert (Hv : short v).
  { apply index_In in Hx. rewrite Forall_forall in Hvs. apply Hvs. assumption. }
  inv_bind H. inversion H; subst; simpl.
  eapply updateGroup_keys; [|eassumption].
  destruct changed; [|assumption].
  apply getPipeStatsGroup_keys; [assumption|].
  eapply keyOk_single; eassumption.
Qed.

Lemma rowValues_ok (cvs : list (list string)) (i : nat) (vs : list string) :
  Forall (Forall short) cvs -> rowValues cvs i = Ok vs ->
  List.length vs = List.length cvs /\ Forall short vs.
Proof.
  revert vs. induction cvs as [|values cvs IH]; intros vs Hc H; simpl in H.
  - inversion H; subst. split; [reflexivity | constructor].
  - inversion Hc as [|? ? Hv Hrest]; subst.
    inv_bind H. inv_bind H. inversion H; subst.
    destruct (IH _ Hrest Hx0) as [Hl Hs]. split; [simpl; lia|].
    constructor; [|assumption].
    apply index_In in Hx. rewrite Forall_forall in Hv. apply Hv. assumption.
Qed.

Lemma byColumnValues_ok (br : blockResult) (bfs : list byStatsField)
    (cvs : list (list string)) :
  byColumnValues br bfs = Ok cvs ->
  List.length cvs = List.length bfs /\ Forall (Forall short) cvs.
Proof.
  revert cvs. induction bfs as [|bf bfs IH]; intros cvs H; simpl in H.
  - inversion H; subst. split; [reflexivity | constructor].
  - inv_bind H. inv_bind H. inversion H; subst.
    destruct (IH _ Hx0) as [Hl Hs]. split; [simpl; lia|].
    constructor; [|assumption]. eapply getValuesBucketed_short; eassumption.
Qed.

Lemma multiColumnRow_keys (p : plan) (cvs : list (list string))
    (brs : list blockResult) (i : nat) (st st' : shard * string) :
  List.length cvs = List.length (byFields p) -> Forall (Forall short) cvs ->
  keysOk p (sh_m (fst st)) ->
  multiColumnRow p cvs brs i st = Ok st' ->
  keysOk p (sh_m (fst st')).
Proof.
  intros Hl Hc Hm H. destruct st as [sh kb]. unfold multiColumnRow in H.
  inv_bind H. rename x into same.
  destruct ((0 <? i)%nat && same).
  - inv_bind H. inversion H; subst; simpl.
    eapply updateGroup_keys; eassumption.
  - inv_bind H. rename x into vs. inv_bind H. inversion H; subst; simpl.
    eapply updateGroup_keys; [|eassumption].
    apply getPipeStatsGroup_keys; [assumption|].
    destruct (rowValues_ok _ _ _ Hc Hx0) as [Hlen Hs].
    exists vs. split; [reflexivity|]. split; [congruence | assumption].
Qed.

(** [shard.writeBlock] keeps the keys of the shard keys of the plan. *)
Lemma shard_writeBlock_keys (p : plan) (sh sh' : shard) (br : blockResult) :
  keysOk p (sh_m sh) -> shard_writeBlock p sh br = Ok sh' -> keysOk p (sh_m sh').
Proof.
  intros Hm H. unfold shard_writeBlock in H.
  destruct (byFields p) as [|bf [|bf2 bfs]] eqn:Hb.
  - eapply updateAllRowsAt_keys; [eassumption | | eassumption].
    exists []. rewrite Hb. split; [reflexivity|]. split; [reflexivity | constructor].
  - destruct (isConst (getColumnByName br (bf_name bf))).
    + inv_bind H.
      eapply updateAllRowsAt_keys; [| |eassumption]; [assumption|].
      eapply keyOk_single; [eassumption|]. apply bucketed_len.
    + inv_bind H. rename x into values.
      pose proof (getValuesBucketed_short _ _ _ _ Hx) as Hvs.
      destruct (areConstValues values).
      * inv_bind H.
        eapply updateAllRowsAt_keys; [| |eassumption]; [assumption|].
        eapply keyOk_single; [eassumption|].
        apply index_In in Hx0. rewrite Forall_forall in Hvs. apply Hvs. assumption.
      * inv_bind H. destruct x as [sh1 kb]. inversion H; subst; simpl.
        change (sh_m sh1) with (sh_m (fst (sh1, kb))).
        eapply (forRange_inv (fun st => keysOk p (sh_m (fst st)))); [| |eassumption].
        -- intros i s s' Hs Hbody. eapply singleColumnRow_keys; eassumption.
        -- assumption.
  - inv_bind H. rename x into cvs.
    destruct (byColumnValues_ok _ _ _ Hx) as [Hl Hc].
    destruct (forallb areConstValues cvs).
    + inv_bind H. rename x into vs. inv_bind H. inversion H; subst; simpl.
      eapply updateAllRowsAt_keys; [| |eassumption]; [assumption|].
      destruct (rowValues_ok _ _ _ Hc Hx0) as [Hlen Hs].
      exists vs. split; [reflexivity|]. split; [rewrite Hb; congruence | assumption].
    + inv_bind H. destruct x as [sh1 kb]. inversion H; subst; simpl.
      change (sh_m sh1) with (sh_m (fst (sh1, kb))).
      eapply (forRange_inv (fun st => keysOk p (sh_m (fst st)))); [| |eassumption].
      * intros i s s' Hs Hbody.
        eapply multiColumnRow_keys; [| | |eassumption]; try assumption.
        rewrite Hb. assumption.
      * assumption.
Qed.

Lemma psp_writeBlock_keys (workerID : nat) (br : blockResult) (psp psp' : processor) :
  shardsOk (ps psp) (shards psp) ->
  psp_writeBlock workerID br psp = Ok psp' ->
  ps psp' = ps psp /\ shardsOk (ps psp) (shards psp').
Proof.
  intros Hs H. unfold psp_writeBlock in H.
  destruct (rowsLen br =? 0)%nat.
  { inversion H; subst. auto. }
  inv_bind H. rename x into sh.
  assert (Hsh : keysOk (ps psp) (sh_m sh)).
  { apply index_In in Hx. unfold shardsOk in Hs. rewrite Forall_forall in Hs.
    apply Hs. assumption. }
  destruct (stealBudget _ _) as [l g|l g c].
  - inv_bind H. inversion H; subst; simpl. split; [reflexivity|].
    apply Forall_insert; [assumption|].
    eapply shard_writeBlock_keys; [|eassumption]. exact Hsh.
  - inversion H; subst; simpl. split; [reflexivity|].
    apply Forall_insert; [assumption|]. exact Hsh.
Qed.

Lemma reachable_keys (p : plan) (psp : processor) :
  reachable p psp -> ps psp = p /\ shardsOk p (shards psp).
Proof.
  induction 1 as [W stop allowed | psp psp' workerID br Hr [IHp IHs] Hw].
  - split; [reflexivity|]. simpl. apply Forall_replicate.
    intros key psg Hl. simpl in Hl. rewrite lookup_empty in Hl. discriminate.
  - rewrite <- IHp in IHs.
    destruct (psp_writeBlock_keys _ _ _ _ IHs Hw) as [Hp Hs].
    rewrite Hp, IHp in *. auto.
Qed.

Lemma rangeMap_lookup (m : gmap string group) (key : string) (psg : group) :
  (key, psg) ∈ rangeMap m -> m !! key = Some psg.
Proof.
  intros Hin. rewrite (rangeMap_perm m) in Hin.
  apply elem_of_map_to_list in Hin. assumption.
Qed.

Lemma mergeEntries_keys (p : plan) (stop : nat -> bool)
    (entries : list (string * group)) (st st' : mergeSt) :
  keysOk p (mg_m st) ->
  (forall key psg, (key, psg) ∈ entries -> keyOk p key) ->
  mergeEntries stop entries st = Ok st' ->
  keysOk p (mg_m st').
Proof.
  revert st. induction entries as [|[key psg] entries IH]; intros st Hm He H; simpl in H.
  - inversion H; subst. assumption.
  - destruct (mg_stopped st); [inversion H; subst; assumption|].
    destruct (stop (mg_polls st)); [inversion H; subst; assumption|].
    inv_bind H. rename x into m'.
    assert (Hk : keyOk p key) by (eapply He; left).
    assert (Hm' : keysOk p m').
    { destruct (mg_m st !! key) as [spgBase|].
      - inv_bind Hx. inversion Hx; subst. apply keysOk_insert; assumption.
      - inversion Hx; subst. apply keysOk_insert; assumption. }
    eapply IH; [| |eassumption]; [assumption|].
    intros k g Hin. eapply He. right. eassumption.
Qed.

Lemma mergeShards_keys (p : plan) (stop : nat -> bool) (rest : list shard)
    (st st' : mergeSt) :
  keysOk p (mg_m st) -> shardsOk p rest ->
  mergeShards rangeMap stop rest st = Ok st' ->
  keysOk p (mg_m st').
Proof.
  revert st. induction rest as [|sh rest IH]; intros st Hm Hs H; simpl in H.
  - inversion H; subst. assumption.
  - inversion Hs as [|? ? Hsh Hrest]; subst.
    destruct (mg_stopped st); [inversion H; subst; assumption|].
    inv_bind H. eapply IH; [| |eassumption]; [|assumption].
    eapply mergeEntries_keys; [| |eassumption]; [assumption|].
    intros key psg Hin. apply rangeMap_lookup in Hin.
    apply Hsh in Hin. exact Hin.
Qed.

Lemma shardsOk_tl (p : plan) (shs : list shard) :
  shardsOk p shs -> shardsOk p (List.tl shs).
Proof.
  intros H. destruct shs as [|sh shs]; [assumption|]. inversion H; subst. assumption.
Qed.

(** C5.  The groups that [flush] writes are those of the map [m] at the
    end of the merge, after the special case of zero rows.  For a processor
    that [writeBlock] calls have led to, every key of this map is the key
    [marshalKey vs] that was built with [MarshalBytes] from the bucketed
    values [vs] of the [by] fields, and the loop of [flush] that decodes the
    key with [UnmarshalBytes] gives back exactly these values, as many as
    the plan has [by] fields. *)
Theorem emitted_keys_decode_to_by_values
    (p : plan) (psp : processor) (mst : mergeSt) (sh0 : shard) (rest : list shard)
    (m : gmap string group) (shs2 : list shard) :
  reachable p psp ->
  mergeStates rangeMap psp = Ok (mst, sh0, rest) ->
  zeroRowsCase (ps psp) sh0 rest (mg_m mst) = Ok (m, shs2) ->
  forall key psg,
    (key, psg) ∈ rangeMap m ->
    exists vs,
      key = marshalKey vs
      /\ decodeKey key = Ok vs
      /\ List.length vs = List.length (byFields p).
Proof.
  intros Hr Hmerge Hzero key psg Hin.
  destruct (reachable_keys p psp Hr) as [Hp Hs]. rewrite Hp in Hzero.
  unfold mergeStates in Hmerge. inv_bind Hmerge. inv_bind Hmerge.
  inversion Hmerge; subst mst sh0 rest; clear Hmerge.
  assert (Hrest : shardsOk p (List.tl (shards psp))) by (apply shardsOk_tl; assumption).
  assert (Hm0 : keysOk p (mg_m x0)).
  { eapply mergeShards_keys; [| |eassumption]; [|assumption]. simpl.
    apply index_In in Hx. unfold shardsOk in Hs. rewrite Forall_forall in Hs.
    apply Hs. assumption. }
  assert (Hm : keysOk p m).
  { unfold zeroRowsCase in Hzero.
    destruct ((List.length (byFields p) =? 0)%nat && (size (mg_m x0) =? 0)%nat) eqn:Hc.
    - inv_bind Hzero. inversion Hzero; subst.
      apply andb_true_iff in Hc as [Hb _]. apply Nat.eqb_eq in Hb.
      apply getPipeStatsGroup_keys.
      + apply index_In in Hx1. unfold shardsOk in Hrest.
        rewrite Forall_forall in Hrest. apply Hrest. assumption.
      + exists []. split; [reflexivity|]. split; [simpl; lia | constructor].
    - inversion Hzero; subst. assumption. }
  apply rangeMap_lookup in Hin. apply Hm in Hin as (vs & Hk & Hl & Hshort).
  exists vs. split; [assumption|]. split; [|assumption].
  rewrite Hk. apply decodeKey_marshalKey. assumption.
Qed.

End KeyProperties.

(** ** [flush] when no row has been written *)

Section ZeroRows.
Context {statsFunc statsProcessor iffilter : Type}.
Context `{SF : StatsFunc statsFunc statsProcessor} `{IFI : IfFilter iffilter}.
Context `{STR : Stringer statsFunc} `{HLP : Helpers}.

Abbreviation plan := (pipeStats statsFunc iffilter).
Abbreviation shard := (pipeStatsProcessorShard statsProcessor).
Abbreviation group := (pipeStatsGroup statsProcessor).
Abbreviation processor := (pipeStatsProcessor statsFunc iffilter statsProcessor).

Variable rangeMap : gmap string group -> list (string * group).

(** C1, where the code fails.  A processor with one shard, no [by] fields,
    no group in its map and a positive budget: [flush] panics.  The special
    case for zero rows indexes [shards[0]] after [shards = shards[1:]], and
    with one worker this slice is empty. *)
Theorem flush_zero_rows_one_worker_panics (psp : processor) (sh : shard) :
  shards psp = [sh] ->
  sh_m sh = ∅ ->
  byFields (ps psp) = [] ->
  0 < stateSizeBudget psp ->
  flush rangeMap psp = Panic "index out of range".
Proof.
  intros Hshs Hm Hb Hpos. unfold flush, mergeStates.
  rewrite (proj2 (Z.leb_gt _ _) Hpos).
  rewrite Hshs. simpl. unfold zeroRowsCase. rewrite Hb, Hm. reflexivity.
Qed.

Hypothesis rangeMap_perm : forall m, rangeMap m ≡ₚ map_to_list m.

Lemma rangeMap_empty : rangeMap ∅ = [].
Proof.
  apply Permutation_nil_r. rewrite (rangeMap_perm ∅), map_to_list_empty. reflexivity.
Qed.

Lemma rangeMap_singleton (key : string) (psg : group) :
  rangeMap (<[key := psg]> ∅) = [(key, psg)].
Proof.
  apply Permutation_singleton_r.
  rewrite (rangeMap_perm _), insert_empty, map_to_list_singleton. reflexivity.
Qed.

Lemma mergeShards_empty (stop : nat -> bool) (rest : list shard) (st : mergeSt) :
  Forall (fun sh => sh_m sh = ∅) rest ->
  mergeShards rangeMap stop rest st = Ok st.
Proof.
  induction 1 as [|sh rest Hsh _ IH]; simpl; [reflexivity|].
  destruct (mg_stopped st); [reflexivity|].
  rewrite Hsh, rangeMap_empty. simpl. assumption.
Qed.

Lemma newStatsProcessors_fst (fs : list (pipeStatsFunc statsFunc iffilter)) (budget : Z) :
  fst (newStatsProcessors fs budget)
  = List.map (fun fn => fst (newStatsProcessor (psf_f fn))) fs.
Proof.
  revert budget. induction fs as [|fn fs IH]; intros budget; simpl; [reflexivity|].
  destruct (newStatsProcessor (psf_f fn)) as [sfp stateSize]. simpl.
  specialize (IH (wrap64 (budget - stateSize))).
  destruct (newStatsProcessors fs (wrap64 (budget - stateSize))) as [l b].
  simpl in *. rewrite IH. reflexivity.
Qed.

Lemma fold_append_columns (names : list string) (acc : list resultColumn) :
  fold_left appendResultColumnWithName names acc
  = acc ++ List.map (fun n => {| rc_name := n; rc_values := [] |}) names.
Proof.
  revert acc. induction names as [|n names IH]; intros acc; simpl.
  - rewrite app_nil_r. reflexivity.
  - rewrite IH. unfold appendResultColumnWithName. rewrite <- app_assoc. reflexivity.
Qed.

Lemma addValues_noInputRow (fs : list (pipeStatsFunc statsFunc iffilter)) (n : Z) :
  fst (addValues
         (List.map (fun fn => {| rc_name := resultName fn; rc_values := [] |}) fs)
         (List.map (fun fn => finalizeStats (fst (newStatsProcessor (psf_f fn)))) fs) n)
  = List.map (fun fn =>
                {| rc_name := resultName fn;
                   rc_values := [finalizeStats (fst (newStatsProcessor (psf_f fn)))] |}) fs.
Proof.
  revert n. induction fs as [|fn fs IH]; intros n; simpl; [reflexivity|].
  specialize (IH (wrap64 (n + len (finalizeStats (fst (newStatsProcessor (psf_f fn))))))).
  destruct (addValues _ _ _) as [rcs n']. simpl in *. rewrite IH. reflexivity.
Qed.

(** X1.  With two workers or more the special case does what it is there for:
    when the plan has no [by] fields, no shard holds a group, the budget is
    positive and [stopCh] is open at the one poll, [flush] returns no error
    and writes the one row of the no-input values: in one block, or, when
    that row reaches the size at which blocks are cut, in a block that an
    empty last block follows. *)
Theorem flush_zero_rows_two_workers_one_row
    (psp : processor) (sh0 sh1 : shard) (rest : list shard) :
  shards psp = sh0 :: sh1 :: rest ->
  Forall (fun sh => sh_m sh = ∅) (shards psp) ->
  byFields (ps psp) = [] ->
  0 < stateSizeBudget psp ->
  stopCh psp (polls psp) = false ->
  exists psp',
    flush rangeMap psp = Ok (None, psp')
    /\ (ppBase_blocks psp' = noInputRow (ps psp) :: ppBase_blocks psp
        \/ ppBase_blocks psp'
           = List.map resetValues (noInputRow (ps psp))
               :: noInputRow (ps psp) :: ppBase_blocks psp).
Proof.
  intros Hshs Hempty Hb Hpos Hstop.
  rewrite Hshs in Hempty. inversion Hempty as [|? ? Hm0 Hrest]; subst.
  inversion Hrest as [|? ? Hm1 Hrest']; subst.
  unfold flush, mergeStates. rewrite (proj2 (Z.leb_gt _ _) Hpos).
  rewrite Hshs. simpl.
  rewrite Hm1, rangeMap_empty. simpl.
  rewrite (mergeShards_empty _ _ _ Hrest'). simpl.
  unfold zeroRowsCase. rewrite Hb, Hm0. simpl.
  unfold getPipeStatsGroup. rewrite Hm1, lookup_empty.
  pose proof (newStatsProcessors_fst (funcs (ps psp)) (sh_stateSizeBudget sh1)) as Hnew.
  destruct (newStatsProcessors (funcs (ps psp)) (sh_stateSizeBudget sh1)) as [sfps0 budget].
  simpl in Hnew. simpl.
  rewrite map_size_empty. simpl.
  rewrite rangeMap_singleton. simpl.
  unfold emitGroup. simpl. rewrite Hstop.
  rewrite decodeKey_equation_1. simpl. rewrite Hb. simpl.
  unfold initResultColumns. rewrite Hb. simpl.
  rewrite fold_append_columns. simpl.
  rewrite Hnew, !List.length_map, Nat.eqb_refl. simpl.
  rewrite !List.map_map.
  pose proof (addValues_noInputRow (funcs (ps psp)) 0) as Hadd.
  destruct (addValues _ _ 0) as [rcs1 valuesLen1]. simpl in Hadd. subst rcs1.
  fold (noInputRow (ps psp)).
  destruct (1000000 <=? valuesLen1); simpl; eexists; (split; [reflexivity|]); simpl; auto.
Qed.

End ZeroRows.

(** ** The theorems at the examples *)

Lemma goString_len (v : string) : len (goString v) < 2 ^ 63.
Proof.
  unfold goString. destruct (Z.ltb_spec (len v) (2 ^ 63)); [assumption|].
  change (len "") with 0. lia.
Qed.

Lemma order_perm (m : gmap string (pipeStatsGroup RowAny.statsRowAnyProcessor)) :
  Examples.order m ≡ₚ map_to_list m.
Proof. reflexivity. Qed.

Lemma writeBlock_zero_rows_is_noop_witness :
  psp_writeBlock 7 blockResult_reset (Examples.oneShard 5 100)
  = Ok (Examples.oneShard 5 100).
Proof.
  apply (writeBlock_zero_rows_is_noop 7 blockResult_reset (Examples.oneShard 5 100)).
  reflexivity.
Defined.

Lemma writeBlock_steals_budget_in_chunks_witness :
  psp_writeBlock 0 Examples.block3 (Examples.oneShard 5 100)
  = aggregated 0 (setShard newShard 5) Examples.block3 (Examples.oneShard 5 100)
  /\ psp_writeBlock 0 Examples.block3 (Examples.oneShard (-5) 3145728)
     = psp_writeBlock 0 Examples.block3
         (stolen 0 (setShard newShard (-5)) (Examples.oneShard (-5) 3145728))
  /\ psp_writeBlock 0 Examples.block3 (Examples.oneShard (-5) 100)
     = Ok (dropped true (Examples.oneShard (-5) 100))
  /\ psp_writeBlock 0 Examples.block3 (Examples.oneShard (-5) (-100))
     = Ok (dropped false (Examples.oneShard (-5) (-100))).
Proof.
  split; [|split; [|split]].
  - refine (proj1 (writeBlock_steals_budget_in_chunks 0 Examples.block3
                     (Examples.oneShard 5 100) (setShard newShard 5) _ _ _) _).
    + simpl. lia.
    + reflexivity.
    + unfold int64_range. simpl. lia.
    + simpl. lia.
  - refine (proj1 (proj2 (writeBlock_steals_budget_in_chunks 0 Examples.block3
                     (Examples.oneShard (-5) 3145728) (setShard newShard (-5)) _ _ _)) _ _).
    + simpl. lia.
    + reflexivity.
    + unfold int64_range. simpl. lia.
    + simpl. lia.
    + vm_compute. discriminate.
  - refine (proj2 (proj2 (writeBlock_steals_budget_in_chunks 0 Examples.block3
                     (Examples.oneShard (-5) 100) (setShard newShard (-5)) _ _ _)) _ _).
    + simpl. lia.
    + reflexivity.
    + unfold int64_range. simpl. lia.
    + simpl. lia.
    + vm_compute. reflexivity.
  - refine (proj2 (proj2 (writeBlock_steals_budget_in_chunks 0 Examples.block3
                     (Examples.oneShard (-5) (-100)) (setShard newShard (-5)) _ _ _)) _ _).
    + simpl. lia.
    + reflexivity.
    + unfold int64_range. simpl. lia.
    + simpl. lia.
    + vm_compute. reflexivity.
Defined.


Lemma flush_blocks_have_schema_witness :
  exists new,
    ppBase_blocks Examples.flushed = new ++ ppBase_blocks Examples.written
    /\ Forall (fun rcs =>
                 List.length rcs
                 = (List.length (byFields (ps Examples.written))
                    + List.length (funcs (ps Examples.written)))%nat
                 /\ List.map rc_name rcs
                    = List.map bf_name (byFields (ps Examples.written))
                      ++ List.map resultName (funcs (ps Examples.written))
                 /\ exists rows,
                      Forall (fun rc => List.length (rc_values rc) = rows) rcs) new.
Proof.
  apply (flush_blocks_have_schema Examples.order Examples.written Examples.flushed None).
  vm_compute. reflexivity.
Defined.

Lemma flush_zero_rows_one_worker_panics_witness :
  flush Examples.order (newPipeProcessor Examples.planNoBy 1 Examples.neverStop 100000000)
  = Panic "index out of range".
Proof.
  apply (flush_zero_rows_one_worker_panics Examples.order
           (newPipeProcessor Examples.planNoBy 1 Examples.neverStop 100000000)
           newShard).
  - reflexivity.
  - reflexivity.
  - reflexivity.
  - vm_compute. reflexivity.
Defined.

Lemma flush_zero_rows_two_workers_one_row_witness :
  exists psp',
    flush Examples.order
      (newPipeProcessor Examples.planNoBy 2 Examples.neverStop 100000000)
    = Ok (None, psp')
    /\ (ppBase_blocks psp'
        = noInputRow Examples.planNoBy :: []
        \/ ppBase_blocks psp'
           = List.map resetValues (noInputRow Examples.planNoBy)
               :: noInputRow Examples.planNoBy :: []).
Proof.
  apply (flush_zero_rows_two_workers_one_row Examples.order order_perm
           (newPipeProcessor Examples.planNoBy 2 Examples.neverStop 100000000)
           newShard newShard []).
  - reflexivity.
  - repeat constructor.
  - reflexivity.
  - vm_compute. reflexivity.
  - reflexivity.
Defined.

Lemma emitted_keys_decode_to_by_values_witness :
  exists vs,
    encoding.MarshalBytes "" "a" = marshalKey vs
    /\ decodeKey (encoding.MarshalBytes "" "a") = Ok vs
    /\ List.length vs = List.length (byFields Examples.planByX).
Proof.
  eapply (emitted_keys_decode_to_by_values (HLP := plainHelpers)
            Examples.order order_perm (fun _ v _ => goString_len v)
            Examples.planByX Examples.written).
  - apply (reach_writeBlock _
             (match psp_writeBlock 0 Examples.block3
                      (newPipeProcessor Examples.planByX 2 Examples.neverStop 100000000)
              with Ok psp => psp | Panic _ => Examples.written end)
             Examples.written 1 Examples.block3).
    + apply (reach_writeBlock _
               (newPipeProcessor Examples.planByX 2 Examples.neverStop 100000000)
               _ 0 Examples.block3).
      * apply reach_new.
      * vm_compute. reflexivity.
    + vm_compute. reflexivity.
  - vm_compute. reflexivity.
  - vm_compute. reflexivity.
  - apply list_elem_of_In. vm_compute. left. reflexivity.
Defined.


Lemma parsed_plan_has_a_function_witness :
  funcs {| byFields := [];
           funcs := [ {| psf_f := {| call_name := "count"; call_fields := ["*"%string] |};
                         neededFieldsForFunc := []; psf_iff := @None filterNoopT;
                         resultName := "n" |} ] |} <> []
  /\ (1 <= List.length
             (funcs {| byFields := [];
                       funcs := [ {| psf_f := {| call_name := "count";
                                                 call_fields := ["*"%string] |};
                                     neededFieldsForFunc := [];
                                     psf_iff := @None filterNoopT;
                                     resultName := "n" |} ] |}))%nat.
Proof.
  apply (parsed_plan_has_a_function (lexer := tokenLexer) 8%nat
           ["stats"; "count"; "("; ")"; "as"; "n"]%string _ []).
  vm_compute. reflexivity.
Defined.

(** * Further properties *)

(** ** The budget *)

Lemma wrap64_sub_chunk_nonneg (global : Z) :
  - 2 ^ 63 + stateSizeBudgetChunk <= global < 2 ^ 63 ->
  wrap64 (global - stateSizeBudgetChunk) = global - stateSizeBudgetChunk.
Proof.
  unfold stateSizeBudgetChunk. change (Z.shiftl 1 20) with 1048576. intros Hg.
  apply wrap64_id. unfold int64_range. lia.
Qed.

(** X3.  The loop that steals budget neither makes nor loses budget while
    the block is processed: the two budgets add up to what they added up to
    before.  When the block is dropped, the one chunk of the last
    subtraction is gone from the sum, and [cancel] is set exactly when the
    global budget was not negative before that subtraction.  (The global
    budget is taken to be at least one chunk above the least [int64], so
    that no subtraction wraps around.) *)
Theorem stealBudget_conserves_budget (local global : Z) :
  - 2 ^ 63 + stateSizeBudgetChunk <= global < 2 ^ 63 ->
  match stealBudget local global with
  | Proceed l g => l + g = local + global
  | Dropped l g c =>
      l + g = local + global - stateSizeBudgetChunk
      /\ (c = true <-> 0 <= g + stateSizeBudgetChunk)
  end.
Proof.
  remember (Z.to_nat (- local)) as n eqn:Hn. revert local global Hn.
  induction n as [n IH] using lt_wf_ind. intros local global Hn Hg.
  assert (Hc : stateSizeBudgetChunk = 1048576) by reflexivity.
  pose proof (wrap64_sub_chunk_nonneg global Hg) as Hw.
  destruct (Z_lt_dec local 0) as [Hneg|Hpos].
  - destruct (Z_lt_dec (wrap64 (global - stateSizeBudgetChunk)) 0) as [Hr|Hr].
    + rewrite stealBudget_exhausted by (unfold int64_range; lia).
      rewrite Hw. split; [lia|].
      rewrite Z.leb_le. lia.
    + rewrite stealBudget_steal by lia. rewrite Hw in *.
      specialize (IH (Z.to_nat (- (local + stateSizeBudgetChunk))) ltac:(lia)
                    (local + stateSizeBudgetChunk)
                    (global - stateSizeBudgetChunk) eq_refl ltac:(lia)).
      destruct (stealBudget (local + stateSizeBudgetChunk)
                  (global - stateSizeBudgetChunk)) as [l g|l g c].
      * lia.
      * destruct IH as [IH1 IH2]. split; [lia | assumption].
  - rewrite stealBudget_nonneg by lia. reflexivity.
Qed.

Lemma stealBudget_conserves_budget_witness :
  match stealBudget (-5) 3145728 with
  | Proceed l g => l + g = -5 + 3145728
  | Dropped l g c =>
      l + g = -5 + 3145728 - stateSizeBudgetChunk
      /\ (c = true <-> 0 <= g + stateSizeBudgetChunk)
  end.
Proof.
  apply (stealBudget_conserves_budget (-5) 3145728).
  unfold stateSizeBudgetChunk. change (Z.shiftl 1 20) with 1048576. lia.
Defined.

(** ** Shards and groups *)

Section ShardProperties.
Context {statsFunc statsProcessor iffilter : Type}.
Context `{SF : StatsFunc statsFunc statsProcessor} `{IFI : IfFilter iffilter}.
Context `{STR : Stringer statsFunc} `{HLP : Helpers}.

Abbreviation plan := (pipeStats statsFunc iffilter).
Abbreviation shard := (pipeStatsProcessorShard statsProcessor).
Abbreviation group := (pipeStatsGroup statsProcessor).
Abbreviation processor := (pipeStatsProcessor statsFunc iffilter statsProcessor).

(** X4.  [writeBlock] of a worker changes the shard of that worker, the
    global budget and the count of [cancel] calls, and nothing else: the
    plan, [maxStateSize], the number of shards and every other shard stay
    as they are, no block is written to [ppBase], [stopCh] is not polled,
    and [cancel] is called at most once. *)
Theorem writeBlock_changes_only_its_shard
    (workerID : nat) (br : blockResult) (psp psp' : processor) :
  psp_writeBlock workerID br psp = Ok psp' ->
  ps psp' = ps psp
  /\ maxStateSize psp' = maxStateSize psp
  /\ ppBase_blocks psp' = ppBase_blocks psp
  /\ polls psp' = polls psp
  /\ List.length (shards psp') = List.length (shards psp)
  /\ (forall w, w <> workerID -> shards psp' !! w = shards psp !! w)
  /\ (cancelCalls psp' = cancelCalls psp \/ cancelCalls psp' = S (cancelCalls psp)).
Proof.
  intros H. unfold psp_writeBlock in H.
  destruct (rowsLen br =? 0)%nat.
  { inversion H; subst. repeat split; auto. }
  inv_bind H. rename x into sh.
  destruct (stealBudget _ _) as [l g|l g c].
  - inv_bind H. inversion H; subst; simpl.
    repeat split; auto.
    + apply length_insert.
    + intros w Hw. apply list_lookup_insert_ne. congruence.
  - inversion H; subst; simpl.
    repeat split; auto.
    + apply length_insert.
    + intros w Hw. apply list_lookup_insert_ne. congruence.
    + destruct c; auto.
Qed.

Lemma newStatsProcessors_map (fs : list (pipeStatsFunc statsFunc iffilter)) (budget : Z) :
  fst (newStatsProcessors fs budget)
  = List.map (fun fn => fst (newStatsProcessor (psf_f fn))) fs.
Proof.
  revert budget. induction fs as [|fn fs IH]; intros budget; simpl; [reflexivity|].
  destruct (newStatsProcessor (psf_f fn)) as [sfp stateSize]. simpl.
  specialize (IH (wrap64 (budget - stateSize))).
  destruct (newStatsProcessors fs (wrap64 (budget - stateSize))) as [l b].
  simpl in *. rewrite IH. reflexivity.
Qed.

(** X5.  [getPipeStatsGroup] is a lookup that inserts: afterwards the map
    holds the returned group under the key and every other key as before.
    A key that was there gives its group and leaves the shard, budget
    included, as it was; a new key gives one new processor per function of
    the plan, in their order.  Asking again for the same key gives the same
    group and charges nothing more. *)
Theorem getPipeStatsGroup_finds_or_inserts (p : plan) (key : string) (sh : shard) :
  sh_m (snd (getPipeStatsGroup p key sh)) !! key = Some (fst (getPipeStatsGroup p key sh))
  /\ (forall k, k <> key ->
        sh_m (snd (getPipeStatsGroup p key sh)) !! k = sh_m sh !! k)
  /\ (forall psg, sh_m sh !! key = Some psg -> getPipeStatsGroup p key sh = (psg, sh))
  /\ (sh_m sh !! key = None ->
        sfps (fst (getPipeStatsGroup p key sh))
        = List.map (fun fn => fst (newStatsProcessor (psf_f fn))) (funcs p))
  /\ getPipeStatsGroup p key (snd (getPipeStatsGroup p key sh))
     = getPipeStatsGroup p key sh.
Proof.
  assert (Hhit : forall sh0 psg,
             sh_m sh0 !! key = Some psg -> getPipeStatsGroup p key sh0 = (psg, sh0)).
  { intros sh0 psg Hl. unfold getPipeStatsGroup. rewrite Hl. reflexivity. }
  destruct (sh_m sh !! key) as [psg|] eqn:Hl.
  - rewrite (Hhit sh psg Hl). simpl.
    repeat split; auto; try discriminate. intros psg' Hp. congruence.
  - pose proof (newStatsProcessors_map (funcs p) (sh_stateSizeBudget sh)) as Hnew.
    assert (Hmiss : exists sh1,
               getPipeStatsGroup p key sh
               = ({| sfps := fst (newStatsProcessors (funcs p) (sh_stateSizeBudget sh)) |},
                  sh1)
               /\ sh_m sh1
                  = <[key := {| sfps := fst (newStatsProcessors (funcs p)
                                               (sh_stateSizeBudget sh)) |}]> (sh_m sh)).
    { unfold getPipeStatsGroup. rewrite Hl.
      destruct (newStatsProcessors (funcs p) (sh_stateSizeBudget sh)) as [sfps0 budget].
      simpl. eexists. split; reflexivity. }
    destruct Hmiss as (sh1 & Hg & Hm1). rewrite Hg. simpl. rewrite Hm1.
    repeat split.
    + apply lookup_insert_eq.
    + intros k Hk. apply lookup_insert_ne. congruence.
    + discriminate.
    + intros _. assumption.
    + apply Hhit. rewrite Hm1. apply lookup_insert_eq.
Qed.

Lemma updateStatsLoop_length
    (upd : statsProcessor -> blockResult -> res (statsProcessor * Z))
    (l : list statsProcessor) (i : nat) (brs : list blockResult) (n : Z)
    (l' : list statsProcessor) (n' : Z) :
  updateStatsLoop upd l i brs n = Ok (l', n') -> List.length l' = List.length l.
Proof.
  revert i n l' n'. induction l as [|sfp l IH]; intros i n l' n' H; simpl in H.
  - inversion H; subst. reflexivity.
  - inv_bind H. inv_bind H. destruct x0 as [sfp' d]. inv_bind H.
    destruct x0 as [rest' n'']. inversion H; subst. simpl.
    erewrite IH; [reflexivity | eassumption].
Qed.

Lemma psg_updateStatsForAllRows_length (psg psg' : group) (brs : list blockResult) (n : Z) :
  psg_updateStatsForAllRows psg brs = Ok (psg', n) ->
  List.length (sfps psg') = List.length (sfps psg).
Proof.
  unfold psg_updateStatsForAllRows. intros H. inv_bind H. destruct x as [l n0].
  inversion H; subst. simpl. eapply updateStatsLoop_length; eassumption.
Qed.

Lemma psg_updateStatsForRow_length (psg psg' : group) (brs : list blockResult)
    (rowIdx : nat) (n : Z) :
  psg_updateStatsForRow psg brs rowIdx = Ok (psg', n) ->
  List.length (sfps psg') = List.length (sfps psg).
Proof.
  unfold psg_updateStatsForRow. intros H. inv_bind H. destruct x as [l n0].
  inversion H; subst. simpl. eapply updateStatsLoop_length; eassumption.
Qed.

Lemma groupsSized_insert (p : plan) (m : gmap string group) (key : string) (psg : group) :
  groupsSized p m -> List.length (sfps psg) = List.length (funcs p) ->
  groupsSized p (<[key := psg]> m).
Proof.
  intros Hm Hg k g Hl. destruct (decide (key = k)) as [->|Hne].
  - rewrite lookup_insert_eq in Hl. inversion Hl; subst. assumption.
  - rewrite lookup_insert_ne in Hl by assumption. eapply Hm; eassumption.
Qed.

Lemma getPipeStatsGroup_sized (p : plan) (key : string) (sh : shard) :
  groupsSized p (sh_m sh) -> groupsSized p (sh_m (snd (getPipeStatsGroup p key sh))).
Proof.
  intros Hm. unfold getPipeStatsGroup.
  destruct (sh_m sh !! key) as [psg|] eqn:Hl; [assumption|].
  pose proof (newStatsProcessors_map (funcs p) (sh_stateSizeBudget sh)) as Hnew.
  destruct (newStatsProcessors (funcs p) (sh_stateSizeBudget sh)) as [sfps0 budget].
  simpl in *. apply groupsSized_insert; [assumption|].
  simpl. rewrite Hnew, List.length_map. reflexivity.
Qed.

Lemma updateGroup_sized (p : plan) (sh sh' : shard) (key : string)
    (upd : group -> res (group * Z)) :
  (forall psg psg' n, upd psg = Ok (psg', n) ->
                      List.length (sfps psg') = List.length (sfps psg)) ->
  groupsSized p (sh_m sh) -> updateGroup sh key upd = Ok sh' -> groupsSized p (sh_m sh').
Proof.
  intros Hupd Hm H. unfold updateGroup in H.
  destruct (sh_m sh !! key) as [psg|] eqn:Hl; [|discriminate].
  inv_bind H. destruct x as [psg' n]. inversion H; subst; simpl.
  apply groupsSized_insert; [assumption|].
  rewrite (Hupd _ _ _ Hx). eapply Hm; eassumption.
Qed.

Lemma updateAllRowsAt_sized (p : plan) (sh sh' : shard) (key : string)
    (brs : list blockResult) :
  groupsSized p (sh_m sh) -> updateAllRowsAt p sh key brs = Ok sh' ->
  groupsSized p (sh_m sh').
Proof.
  intros Hm H. unfold updateAllRowsAt in H.
  pose proof (getPipeStatsGroup_sized p key sh Hm) as Hm1.
  destruct (getPipeStatsGroup p key sh) as [psg sh1]. simpl in Hm1.
  eapply updateGroup_sized; [| |exact H]; [|exact Hm1].
  intros g g' n Hg. simpl in Hg. eapply psg_updateStatsForAllRows_length; eassumption.
Qed.

Lemma forRange_keeps {S : Type} (I : S -> Prop) (body : nat -> S -> res S) :
  (forall i s s', I s -> body i s = Ok s' -> I s') ->
  forall n i s s', I s -> forRange body i n s = Ok s' -> I s'.
Proof.
  intros Hbody n. induction n as [|n IH]; intros i s s' Hs H; simpl in H.
  - inversion H; subst. assumption.
  - inv_bind H. eapply IH; [|eassumption]. eapply Hbody; eassumption.
Qed.

Lemma singleColumnRow_sized (p : plan) (values : list string)
    (brs : list blockResult) (i : nat) (st st' : shard * string) :
  groupsSized p (sh_m (fst st)) ->
  singleColumnRow p values brs i st = Ok st' ->
  groupsSized p (sh_m (fst st')).
Proof.
  intros Hm H. destruct st as [sh kb]. unfold singleColumnRow in H.
  inv_bind H. inv_bind H. inv_bind H. inversion H; subst; simpl.
  eapply updateGroup_sized; [| |eassumption].
  - intros g g' n Hg. simpl in Hg. eapply psg_updateStatsForRow_length; eassumption.
  - destruct x0; [|assumption]. apply getPipeStatsGroup_sized. assumption.
Qed.

Lemma multiColumnRow_sized (p : plan) (cvs : list (list string))
    (brs : list blockResult) (i : nat) (st st' : shard * string) :
  groupsSized p (sh_m (fst st)) ->
  multiColumnRow p cvs brs i st = Ok st' ->
  groupsSized p (sh_m (fst st')).
Proof.
  intros Hm H. destruct st as [sh kb]. unfold multiColumnRow in H.
  inv_bind H.
  destruct ((0 <? i)%nat && x).
  - inv_bind H. inversion H; subst; simpl.
    eapply updateGroup_sized; [| |eassumption]; [|assumption].
    intros g g' n Hg. simpl in Hg. eapply psg_updateStatsForRow_length; eassumption.
  - inv_bind H. inv_bind H. inversion H; subst; simpl.
    eapply updateGroup_sized; [| |eassumption].
    + intros g g' n Hg. simpl in Hg. eapply psg_updateStatsForRow_length; eassumption.
    + apply getPipeStatsGroup_sized. assumption.
Qed.

Lemma shard_writeBlock_sized (p : plan) (sh sh' : shard) (br : blockResult) :
  groupsSized p (sh_m sh) -> shard_writeBlock p sh br = Ok sh' ->
  groupsSized p (sh_m sh').
Proof.
  intros Hm H. unfold shard_writeBlock in H.
  destruct (byFields p) as [|bf [|bf2 bfs]] eqn:Hb.
  - eapply updateAllRowsAt_sized; eassumption.
  - destruct (isConst (getColumnByName br (bf_name bf))).
    + inv_bind H. eapply updateAllRowsAt_sized; [|eassumption]. assumption.
    + inv_bind H. destruct (areConstValues x).
      * inv_bind H. eapply updateAllRowsAt_sized; [|eassumption]. assumption.
      * inv_bind H. destruct x0 as [sh1 kb]. inversion H; subst; simpl.
        change (sh_m sh1) with (sh_m (fst (sh1, kb))).
        eapply (forRange_keeps (fun st => groupsSized p (sh_m (fst st))));
          [| |eassumption]; [|assumption].
        intros i s s' Hs Hbody. eapply singleColumnRow_sized; eassumption.
  - inv_bind H. destruct (forallb areConstValues x).
    + inv_bind H. inv_bind H. inversion H; subst; simpl.
      eapply updateAllRowsAt_sized; [|eassumption]. assumption.
    + inv_bind H. destruct x0 as [sh1 kb]. inversion H; subst; simpl.
      change (sh_m sh1) with (sh_m (fst (sh1, kb))).
      eapply (forRange_keeps (fun st => groupsSized p (sh_m (fst st))));
        [| |eassumption]; [|assumption].
      intros i s s' Hs Hbody. eapply multiColumnRow_sized; eassumption.
Qed.

Lemma psp_writeBlock_sized (workerID : nat) (br : blockResult) (psp psp' : processor) :
  shardsSized (ps psp) (shards psp) ->
  psp_writeBlock workerID br psp = Ok psp' ->
  shardsSized (ps psp) (shards psp').
Proof.
  intros Hs H. unfold psp_writeBlock in H.
  destruct (rowsLen br =? 0)%nat.
  { inversion H; subst. assumption. }
  inv_bind H. rename x into sh.
  assert (Hsh : groupsSized (ps psp) (sh_m sh)).
  { unfold index in Hx. destruct (shards psp !! workerID) as [y|] eqn:Hl; [|discriminate].
    inversion Hx; subst. unfold shardsSized in Hs. rewrite Forall_forall in Hs.
    apply Hs. eapply list_elem_of_lookup_2. eassumption. }
  destruct (stealBudget _ _) as [l g|l g c].
  - inv_bind H. inversion H; subst; simpl.
    apply Forall_insert; [assumption|].
    eapply shard_writeBlock_sized; [|eassumption]. exact Hsh.
  - inversion H; subst; simpl. apply Forall_insert; [assumption|]. exact Hsh.
Qed.

Lemma reachable_shardsSized (p : plan) (psp : processor) :
  reachable p psp -> ps psp = p /\ shardsSized p (shards psp).
Proof.
  induction 1 as [W stop allowed | psp psp' workerID br Hr [IHp IHs] Hw].
  - split; [reflexivity|]. simpl. apply Forall_replicate.
    intros key psg Hl. simpl in Hl. rewrite lookup_empty in Hl. discriminate.
  - rewrite <- IHp in IHs.
    pose proof (psp_writeBlock_sized _ _ _ _ IHs Hw) as Hs.
    assert (Hp : ps psp' = ps psp).
    { unfold psp_writeBlock in Hw. destruct (rowsLen br =? 0)%nat.
      - inversion Hw; subst. reflexivity.
      - inv_bind Hw. destruct (stealBudget _ _).
        + inv_bind Hw. inversion Hw; subst. reflexivity.
        + inversion Hw; subst. reflexivity. }
    rewrite Hp, IHp in *. auto.
Qed.

(** X6.  In every processor that [writeBlock] calls lead to, the plan is
    the one the processor was made for and every group of every shard holds
    exactly one processor per function of the plan, so that the loops over
    [psg.sfps] and [brs] never run out of range. *)
Theorem reachable_groups_have_one_processor_per_function (p : plan) (psp : processor) :
  reachable p psp ->
  ps psp = p
  /\ forall sh key psg,
       sh ∈ shards psp -> sh_m sh !! key = Some psg ->
       List.length (sfps psg) = List.length (funcs p).
Proof.
  intros Hr.
  pose proof (reachable_shardsSized p psp Hr) as H.
  destruct H as [Hp Hs]. split; [assumption|].
  intros sh key psg Hin Hl. unfold shardsSized in Hs. rewrite Forall_forall in Hs.
  eapply Hs; eassumption.
Qed.

Lemma updateGroup_dom (sh sh' : shard) (key : string) (upd : group -> res (group * Z)) :
  updateGroup sh key upd = Ok sh' ->
  forall k, is_Some (sh_m sh' !! k) <-> is_Some (sh_m sh !! k).
Proof.
  intros H k. unfold updateGroup in H.
  destruct (sh_m sh !! key) as [psg|] eqn:Hl; [|discriminate].
  inv_bind H. destruct x as [psg' n]. inversion H; subst; simpl.
  destruct (decide (key = k)) as [->|Hne].
  - rewrite lookup_insert_eq, Hl. split; eauto.
  - rewrite lookup_insert_ne by assumption. reflexivity.
Qed.

Lemma getPipeStatsGroup_dom (p : plan) (key : string) (sh : shard) :
  forall k, is_Some (sh_m (snd (getPipeStatsGroup p key sh)) !! k)
            <-> is_Some (sh_m sh !! k) \/ k = key.
Proof.
  intros k. unfold getPipeStatsGroup.
  destruct (sh_m sh !! key) as [psg|] eqn:Hl; simpl.
  - split; [auto|]. intros [H| ->]; [assumption|]. rewrite Hl. eauto.
  - destruct (newStatsProcessors (funcs p) (sh_stateSizeBudget sh)) as [sfps0 budget].
    simpl. destruct (decide (key = k)) as [->|Hne].
    + rewrite lookup_insert_eq. split; eauto.
    + rewrite lookup_insert_ne by assumption. split; [auto|].
      intros [H|H]; [assumption | congruence].
Qed.

Lemma updateAllRowsAt_dom (p : plan) (sh sh' : shard) (key : string)
    (brs : list blockResult) :
  updateAllRowsAt p sh key brs = Ok sh' ->
  forall k, is_Some (sh_m sh' !! k) <-> is_Some (sh_m sh !! k) \/ k = key.
Proof.
  intros H k. unfold updateAllRowsAt in H.
  pose proof (getPipeStatsGroup_dom p key sh k) as Hd.
  destruct (getPipeStatsGroup p key sh) as [psg sh1]. simpl in Hd.
  rewrite (updateGroup_dom _ _ _ _ H k). assumption.
Qed.

Lemma forRange_steps {S : Type} (I : nat -> S -> Prop) (body : nat -> S -> res S) :
  (forall i s s', I i s -> body i s = Ok s' -> I (Datatypes.S i) s') ->
  forall n i s s', I i s -> forRange body i n s = Ok s' -> I (i + n)%nat s'.
Proof.
  intros Hbody n. induction n as [|n IH]; intros i s s' Hs H; simpl in H.
  - inversion H; subst. rewrite Nat.add_0_r. assumption.
  - inv_bind H. replace (i + Datatypes.S n)%nat with (Datatypes.S i + n)%nat by lia.
    eapply IH; [|eassumption]. eapply Hbody; eassumption.
Qed.

Lemma rowsGrouped_step (cvs : list (list string)) (sh0 sh sh1 : shard) (i : nat)
    (key : string) :
  rowsGrouped cvs sh0 i sh ->
  rowKey cvs i key ->
  (forall k, rowKey cvs i k -> k = key) ->
  (forall k, is_Some (sh_m sh1 !! k) <-> is_Some (sh_m sh !! k) \/ k = key) ->
  rowsGrouped cvs sh0 (S i) sh1.
Proof.
  intros Hinv Hkey Huniq Hdom k. rewrite Hdom, (Hinv k). split.
  - intros [[H|(j & Hj & Hk)]| ->].
    + left. assumption.
    + right. exists j. split; [lia | assumption].
    + right. exists i. split; [lia | assumption].
  - intros [H|(j & Hj & Hk)].
    + left. left. assumption.
    + destruct (Nat.eq_dec j i) as [->|Hne].
      * right. apply Huniq. assumption.
      * left. right. exists j. split; [lia | assumption].
Qed.

Lemma rowKey_unique (cvs : list (list string)) (i : nat) (k1 k2 : string) :
  rowKey cvs i k1 -> rowKey cvs i k2 -> k1 = k2.
Proof.
  intros (vs1 & H1 & ->) (vs2 & H2 & ->). congruence.
Qed.

Lemma rowsGrouped_same (cvs : list (list string)) (sh0 sh sh1 : shard) (i j : nat)
    (key : string) :
  rowsGrouped cvs sh0 i sh ->
  (j < i)%nat -> rowKey cvs j key -> rowKey cvs i key ->
  (forall k, is_Some (sh_m sh1 !! k) <-> is_Some (sh_m sh !! k)) ->
  rowsGrouped cvs sh0 (S i) sh1.
Proof.
  intros Hinv Hj Hkj Hki Hdom.
  eapply rowsGrouped_step; [eassumption | exact Hki | |].
  - intros k Hk. eapply rowKey_unique; eassumption.
  - intros k. rewrite Hdom. split; [auto|].
    intros [H| ->]; [assumption|]. apply Hinv. right. eauto.
Qed.

Lemma rowKey_single (values : list string) (i : nat) (v : string) :
  index values i = Ok v -> rowKey [values] i (encoding.MarshalBytes "" v).
Proof.
  intros H. exists [v]. simpl. rewrite H. simpl. split; reflexivity.
Qed.

Lemma singleColumnRow_grouped (p : plan) (values : list string) (brs : list blockResult)
    (sh0 : shard) (i : nat) (st st' : shard * string) :
  rowsGrouped [values] sh0 i (fst st) ->
  singleColumnRow p values brs i st = Ok st' ->
  rowsGrouped [values] sh0 (S i) (fst st').
Proof.
  intros Hinv H. destruct st as [sh kb]. unfold singleColumnRow in H.
  inv_bind H. rename x into v. inv_bind H. rename x into changed.
  inv_bind H. inversion H; subst; simpl. clear H.
  pose proof (rowKey_single values i v Hx) as Hki.
  pose proof (updateGroup_dom _ _ _ _ Hx1) as Hdom.
  destruct changed.
  - eapply rowsGrouped_step; [exact Hinv | exact Hki | |].
    + intros k Hk. eapply rowKey_unique; eassumption.
    + intros k. rewrite Hdom. apply getPipeStatsGroup_dom.
  - destruct (Nat.eqb_spec i 0) as [Hz|Hnz]; [inversion Hx0|].
    inv_bind Hx0. rename x0 into prev.
    inversion Hx0 as [Heq]. apply negb_false_iff, String.eqb_eq in Heq.
    subst prev. simpl in Hinv.
    eapply (rowsGrouped_same _ _ _ _ _ (i - 1)%nat); [exact Hinv | lia | | exact Hki | exact Hdom].
    apply rowKey_single. assumption.
Qed.

Lemma sameValueLoop_true (cvs : list (list string)) (i : nat) :
  sameValueLoop cvs i = Ok true -> (0 < i)%nat \/ cvs = [] ->
  forall vs, rowValues cvs (i - 1) = Ok vs <-> rowValues cvs i = Ok vs.
Proof.
  induction cvs as [|values cvs IH]; intros H Hi vs; simpl in *; [reflexivity|].
  destruct (Nat.eqb_spec i 0) as [Hz|Hnz]; [discriminate|].
  inv_bind H. rename x into prev. inv_bind H. rename x into v.
  destruct (negb (String.eqb prev v)) eqn:Hneq; [discriminate|].
  apply negb_false_iff, String.eqb_eq in Hneq. subst prev.
  rewrite Hx, Hx0. simpl.
  assert (Hpos : (0 < i)%nat) by lia.
  pose proof (IH H (or_introl Hpos)) as IH'.
  split; intros Hr.
  - inv_bind Hr. inversion Hr; subst. apply IH' in Hx1. rewrite Hx1. reflexivity.
  - inv_bind Hr. inversion Hr; subst. apply IH' in Hx1. rewrite Hx1. reflexivity.
Qed.

Lemma sameValueLoop_rowValues (cvs : list (list string)) (i : nat) :
  sameValueLoop cvs i = Ok true -> (0 < i)%nat ->
  exists vs, rowValues cvs i = Ok vs.
Proof.
  induction cvs as [|values cvs IH]; intros H Hi; simpl in *; [eauto|].
  destruct (Nat.eqb_spec i 0) as [Hz|Hnz]; [lia|].
  inv_bind H. inv_bind H.
  destruct (negb (String.eqb x x0)); [discriminate|].
  destruct (IH H Hi) as [vs Hvs]. rewrite Hx0, Hvs. simpl. eauto.
Qed.

Lemma multiColumnRow_grouped (p : plan) (cvs : list (list string))
    (brs : list blockResult) (sh0 : shard) (i : nat) (st st' : shard * string) :
  rowsGrouped cvs sh0 i (fst st) ->
  multiColumnRow p cvs brs i st = Ok st' ->
  rowsGrouped cvs sh0 (S i) (fst st').
Proof.
  intros Hinv H. destruct st as [sh kb]. unfold multiColumnRow in H.
  inv_bind H. rename x into same.
  destruct ((0 <? i)%nat && same) eqn:Hs.
  - apply andb_true_iff in Hs as [Hi ->]. apply Nat.ltb_lt in Hi.
    inv_bind H. inversion H; subst; simpl. clear H.
    destruct (sameValueLoop_rowValues cvs i Hx Hi) as [vs Hvs].
    eapply (rowsGrouped_same _ _ _ _ _ (i - 1)%nat (marshalKey vs));
      [exact Hinv | lia | | | ].
    + exists vs. split; [|reflexivity].
      apply (sameValueLoop_true cvs i Hx (or_introl Hi)). assumption.
    + exists vs. split; [assumption | reflexivity].
    + eapply updateGroup_dom. eassumption.
  - clear Hs. inv_bind H. rename x into vs. inv_bind H. inversion H; subst; simpl. clear H.
    eapply rowsGrouped_step; [exact Hinv | | |].
    + exists vs. split; [eassumption | reflexivity].
    + intros k Hk. eapply rowKey_unique; [eassumption|].
      exists vs. split; [assumption | reflexivity].
    + intros k. rewrite (updateGroup_dom _ _ _ _ Hx1 k). apply getPipeStatsGroup_dom.
Qed.

Lemma areConstValues_same (values : list string) (v0 v : string) (i : nat) :
  areConstValues values = true ->
  index values 0 = Ok v0 -> index values i = Ok v -> v = v0.
Proof.
  intros Hc H0 Hi. destruct values as [|w rest]; [discriminate|].
  simpl in Hc. inversion H0; subst.
  apply index_In in Hi. apply list_elem_of_In in Hi. destruct Hi as [Hi|Hi]; [auto|].
  rewrite forallb_forall in Hc. specialize (Hc v Hi).
  apply String.eqb_eq in Hc. auto.
Qed.

Lemma rowValues_const (cvs : list (list string)) (vs0 vs : list string) (i : nat) :
  forallb areConstValues cvs = true ->
  rowValues cvs 0 = Ok vs0 -> rowValues cvs i = Ok vs -> vs = vs0.
Proof.
  revert vs0 vs. induction cvs as [|values cvs IH]; intros vs0 vs Hc H0 Hi; simpl in *.
  - congruence.
  - apply andb_true_iff in Hc as [Hc1 Hc2].
    inv_bind H0. inv_bind H0. inv_bind Hi. inv_bind Hi.
    inversion H0; inversion Hi; subst.
    f_equal.
    + eapply areConstValues_same; eassumption.
    + eapply IH; eassumption.
Qed.

Lemma rowsGrouped_all (cvs : list (list string)) (sh sh' : shard) (n : nat)
    (key : string) :
  (0 < n)%nat ->
  rowKey cvs 0 key ->
  (forall i k, rowKey cvs i k -> k = key) ->
  (forall k, is_Some (sh_m sh' !! k) <-> is_Some (sh_m sh !! k) \/ k = key) ->
  rowsGrouped cvs sh n sh'.
Proof.
  intros Hn H0 Hall Hdom k. rewrite Hdom. split.
  - intros [H| ->]; [left; assumption|]. right. exists 0%nat. split; assumption.
  - intros [H|(j & Hj & Hk)]; [left; assumption|]. right. eapply Hall. eassumption.
Qed.

Lemma rowsGrouped_start (cvs : list (list string)) (sh : shard) :
  rowsGrouped cvs sh 0 sh.
Proof.
  intros k. split; [auto|]. intros [H|(j & Hj & _)]; [assumption | lia].
Qed.

(** X7. After [shard.writeBlock] has processed a block with at least one
    row, the groups of the shard are those it had before and one group for
    every distinct tuple of [by (...)] values that occurs at a row of the
    block: the key of a group is the marshalled tuple, whichever of the fast
    paths or row loops the block went through. *)
Theorem writeBlock_groups_are_the_row_keys (p : plan) (sh sh' : shard)
    (br : blockResult) (cvs : list (list string)) :
  shard_writeBlock p sh br = Ok sh' ->
  rowsLen br <> 0%nat ->
  byColumnValues br (byFields p) = Ok cvs ->
  forall k, is_Some (sh_m sh' !! k)
            <-> is_Some (sh_m sh !! k)
                \/ exists i, (i < rowsLen br)%nat /\ rowKey cvs i k.
Proof.
  intros H Hn Hcvs. change (rowsGrouped cvs sh (rowsLen br) sh').
  assert (Hpos : (0 < rowsLen br)%nat) by lia.
  unfold shard_writeBlock in H.
  destruct (byFields p) as [|bf [|bf2 rest]] eqn:Hby.
  - (* no by fields *)
    simpl in Hcvs. inversion Hcvs; subst cvs.
    apply rowsGrouped_all with (key := ""%string); [assumption | | |].
    + exists []. split; reflexivity.
    + intros i k (vs & Hvs & ->). simpl in Hvs. inversion Hvs. reflexivity.
    + eapply updateAllRowsAt_dom. eassumption.
  - (* one by field *)
    simpl in Hcvs. inv_bind Hcvs. rename x into values.
    inversion Hcvs; subst cvs. clear Hcvs.
    destruct (isConst (getColumnByName br (bf_name bf))) eqn:Hconst.
    + inv_bind H. rename x into v0.
      unfold getValuesBucketed, getValues in Hx. rewrite Hconst, Hx0 in Hx.
      simpl in Hx. inversion Hx; subst values. clear Hx.
      assert (Hidx : forall i v,
                 index (List.map (fun v => getBucketedValue br v bf)
                          (replicate (rowsLen br) v0)) i = Ok v ->
                 v = getBucketedValue br v0 bf).
      { intros i v Hi. apply index_In in Hi. apply list_elem_of_In in Hi.
        apply in_map_iff in Hi as (w & <- & Hw).
        apply list_elem_of_In, elem_of_replicate in Hw as [-> _]. reflexivity. }
      apply rowsGrouped_all
        with (key := encoding.MarshalBytes "" (getBucketedValue br v0 bf));
        [assumption | | |].
      * apply rowKey_single. destruct (rowsLen br); [lia|]. reflexivity.
      * intros i k (vs & Hvs & ->). simpl in Hvs. inv_bind Hvs.
        inversion Hvs; subst. apply Hidx in Hx. subst. reflexivity.
      * intros k. rewrite (updateAllRowsAt_dom _ _ _ _ _ H k). reflexivity.
    + rewrite Hx in H. simpl in H.
      destruct (areConstValues values) eqn:Hc.
      * inv_bind H. rename x into v0.
        apply rowsGrouped_all with (key := encoding.MarshalBytes "" v0);
          [assumption | | |].
        -- apply rowKey_single. assumption.
        -- intros i k (vs & Hvs & ->). simpl in Hvs. inv_bind Hvs.
           inversion Hvs; subst.
           rewrite (areConstValues_same values v0 x i Hc Hx0 Hx1). reflexivity.
        -- intros k. rewrite (updateAllRowsAt_dom _ _ _ _ _ H k). reflexivity.
      * inv_bind H. destruct x as [sh1 kb]. inversion H; subst. simpl.
        pose proof (forRange_steps
                      (fun i (st : shard * string) => rowsGrouped [values] sh i (fst st))
                      (singleColumnRow p values (applyPerFunctionFilters p br))
                      (fun i s s' Hs Hb =>
                         singleColumnRow_grouped p values _ sh i s s' Hs Hb)
                      (rowsLen br) 0%nat (sh, ""%string) (sh1, kb)
                      (rowsGrouped_start _ sh) Hx0) as Hfin.
        exact Hfin.
  - (* several by fields *)
    rewrite Hcvs in H. simpl in H.
    destruct (forallb areConstValues cvs) eqn:Hc.
    + inv_bind H. rename x into vs0. inv_bind H. inversion H; subst. simpl.
      apply rowsGrouped_all with (key := marshalKey vs0); [assumption | | |].
      * exists vs0. split; [assumption | reflexivity].
      * intros i k (vs & Hvs & ->).
        rewrite (rowValues_const cvs vs0 vs i Hc Hx Hvs). reflexivity.
      * intros k. rewrite (updateAllRowsAt_dom _ _ _ _ _ Hx0 k). reflexivity.
    + inv_bind H. destruct x as [sh1 kb]. inversion H; subst. simpl.
      pose proof (forRange_steps
                    (fun i (st : shard * string) =>
                       rowsGrouped cvs (setColumnValues sh cvs) i (fst st))
                    (multiColumnRow p cvs (applyPerFunctionFilters p br))
                    (fun i s s' Hs Hb =>
                       multiColumnRow_grouped p cvs _ _ i s s' Hs Hb)
                    (rowsLen br) 0%nat (setColumnValues sh cvs, ""%string) (sh1, kb)
                    (rowsGrouped_start _ _) Hx) as Hfin.
      exact Hfin.
Qed.

End ShardProperties.

Lemma writeBlock_changes_only_its_shard_witness :
  ps Examples.written = ps Examples.writtenOnce
  /\ maxStateSize Examples.written = maxStateSize Examples.writtenOnce
  /\ ppBase_blocks Examples.written = ppBase_blocks Examples.writtenOnce
  /\ polls Examples.written = polls Examples.writtenOnce
  /\ List.length (shards Examples.written) = List.length (shards Examples.writtenOnce)
  /\ (forall w, w <> 1%nat ->
        shards Examples.written !! w = shards Examples.writtenOnce !! w)
  /\ (cancelCalls Examples.written = cancelCalls Examples.writtenOnce
      \/ cancelCalls Examples.written = S (cancelCalls Examples.writtenOnce)).
Proof.
  apply (writeBlock_changes_only_its_shard 1 Examples.block3
           Examples.writtenOnce Examples.written).
  vm_compute. reflexivity.
Defined.

Lemma reachable_groups_have_one_processor_per_function_witness :
  ps Examples.written = Examples.planByX
  /\ forall sh key psg,
       sh ∈ shards Examples.written -> sh_m sh !! key = Some psg ->
       List.length (sfps psg) = List.length (funcs Examples.planByX).
Proof.
  apply (reachable_groups_have_one_processor_per_function Examples.planByX
           Examples.written).
  apply (reach_writeBlock _
           (match psp_writeBlock 0 Examples.block3
                    (newPipeProcessor Examples.planByX 2 Examples.neverStop 100000000)
            with Ok psp => psp | Panic _ => Examples.written end)
           Examples.written 1 Examples.block3).
  - apply (reach_writeBlock _
             (newPipeProcessor Examples.planByX 2 Examples.neverStop 100000000)
             _ 0 Examples.block3).
    + apply reach_new.
    + vm_compute. reflexivity.
  - vm_compute. reflexivity.
Defined.

Lemma writeBlock_groups_are_the_row_keys_witness :
  is_Some (sh_m (match shard_writeBlock Examples.planByX newShard Examples.block3 with
                 | Ok sh => sh
                 | Panic _ => newShard
                 end) !! encoding.MarshalBytes "" "b")
  <-> is_Some (sh_m (newShard (statsProcessor := RowAny.statsRowAnyProcessor))
               !! encoding.MarshalBytes "" "b")
      \/ exists i, (i < rowsLen Examples.block3)%nat
                   /\ rowKey [["a"; "b"; "a"]%string] i (encoding.MarshalBytes "" "b").
Proof.
  apply (writeBlock_groups_are_the_row_keys (HLP := plainHelpers)
           Examples.planByX newShard
           (match shard_writeBlock Examples.planByX newShard Examples.block3 with
            | Ok sh => sh
            | Panic _ => newShard
            end)
           Examples.block3 [["a"; "b"; "a"]%string]).
  - vm_compute. reflexivity.
  - simpl. lia.
  - vm_compute. reflexivity.
Defined.

(** ** [flush] on the processors that a run reaches *)

Section FlushProperties.
Context {statsFunc statsProcessor iffilter : Type}.
Context `{SF : StatsFunc statsFunc statsProcessor} `{IFI : IfFilter iffilter}.
Context `{STR : Stringer statsFunc} `{HLP : Helpers}.

Abbreviation plan := (pipeStats statsFunc iffilter).
Abbreviation shard := (pipeStatsProcessorShard statsProcessor).
Abbreviation group := (pipeStatsGroup statsProcessor).
Abbreviation processor := (pipeStatsProcessor statsFunc iffilter statsProcessor).

Variable rangeMap : gmap string group -> list (string * group).

(** The iteration over a map visits the entries of the map, in some order. *)
Hypothesis rangeMap_perm : forall m, rangeMap m ≡ₚ map_to_list m.

(** A bucketed value is a Go string: its length fits in an [int]. *)
Hypothesis bucketed_len : forall br v bf, len (getBucketedValue br v bf) < 2 ^ 63.

(** [mergeState] of two processors of one function does not panic. *)
Hypothesis mergeState_total :
  forall a b : statsProcessor, exists c, mergeState a b = Ok c.

Lemma mergeGroups_total (base other : list statsProcessor) (i : nat) :
  (List.length base + i <= List.length other)%nat ->
  exists l, mergeGroups base other i = Ok l /\ List.length l = List.length base.
Proof.
  revert i. induction base as [|sfp base IH]; intros i Hlen; simpl.
  - exists []. split; reflexivity.
  - simpl in Hlen.
    assert (Hi : (i < List.length other)%nat) by lia.
    destruct (lookup_lt_is_Some_2 other i Hi) as [o Ho].
    rewrite (index_lookup _ _ _ Ho). simpl.
    destruct (mergeState_total sfp o) as [c Hc]. rewrite Hc. simpl.
    assert (Hi' : (List.length base + S i <= List.length other)%nat) by lia.
    destruct (IH (S i) Hi') as (l & Hl & Hlen'). rewrite Hl. simpl.
    exists (c :: l). split; [reflexivity|]. simpl. lia.
Qed.

Lemma mergeEntries_total (p : plan) (stop : nat -> bool)
    (entries : list (string * group)) (st : mergeSt) :
  groupsSized p (mg_m st) ->
  (forall key psg, (key, psg) ∈ entries ->
                   List.length (sfps psg) = List.length (funcs p)) ->
  exists st', mergeEntries stop entries st = Ok st' /\ groupsSized p (mg_m st').
Proof.
  revert st. induction entries as [|[key psg] entries IH]; intros st Hm He; simpl.
  - exists st. split; [reflexivity | assumption].
  - destruct (mg_stopped st); [exists st; split; [reflexivity | assumption]|].
    destruct (stop (mg_polls st)); [eexists; split; [reflexivity | assumption]|].
    assert (Hg : List.length (sfps psg) = List.length (funcs p)) by (eapply He; left).
    assert (He' : forall k g, (k, g) ∈ entries ->
                              List.length (sfps g) = List.length (funcs p)).
    { intros k g Hin. eapply He. right. eassumption. }
    destruct (mg_m st !! key) as [spgBase|] eqn:Hl.
    + destruct (mergeGroups_total (sfps spgBase) (sfps psg) 0) as (l & Hl' & Hlen).
      { rewrite (Hm _ _ Hl), Hg. lia. }
      rewrite Hl'. simpl. apply IH; [|assumption]. simpl.
      apply groupsSized_insert; [assumption|]. simpl. rewrite Hlen.
      eapply Hm. eassumption.
    + simpl. apply IH; [|assumption]. simpl.
      apply groupsSized_insert; assumption.
Qed.

Lemma mergeShards_total (p : plan) (stop : nat -> bool) (rest : list shard)
    (st : mergeSt) :
  groupsSized p (mg_m st) -> shardsSized p rest ->
  exists st', mergeShards rangeMap stop rest st = Ok st' /\ groupsSized p (mg_m st').
Proof.
  revert st. induction rest as [|sh rest IH]; intros st Hm Hs; simpl.
  - exists st. split; [reflexivity | assumption].
  - inversion Hs as [|? ? Hsh Hrest]; subst.
    destruct (mg_stopped st); [exists st; split; [reflexivity | assumption]|].
    destruct (mergeEntries_total p stop (rangeMap (sh_m sh)) st Hm) as (st1 & H1 & Hm1).
    { intros key psg Hin. apply (rangeMap_lookup rangeMap rangeMap_perm) in Hin.
      eapply Hsh. eassumption. }
    rewrite H1. simpl. apply IH; assumption.
Qed.

Lemma emitInv_length (p : plan) (old : list (list resultColumn)) (st : emitSt) :
  emitInv p old st ->
  List.length (em_rcs st) = (List.length (byFields p) + List.length (funcs p))%nat.
Proof.
  intros [(rows & Hn & _) _].
  rewrite <- (List.length_map rc_name), Hn. apply schemaNames_length.
Qed.

Lemma emitGroups_total (p : plan) (stop : nat -> bool)
    (entries : list (string * group)) (old : list (list resultColumn)) (st : emitSt) :
  emitInv p old st ->
  (forall key psg, (key, psg) ∈ entries ->
                   keyOk p key /\ List.length (sfps psg) = List.length (funcs p)) ->
  exists st', emitGroups p stop entries st = Ok st'.
Proof.
  revert st. induction entries as [|[key psg] entries IH]; intros st Hinv He; simpl.
  - exists st. reflexivity.
  - destruct (em_stopped st); [exists st; reflexivity|].
    destruct (He key psg) as [(vs & Hk & Hlen & Hshort) Hg]; [left|].
    assert (Hstep : exists st1, emitGroup p stop key psg st = Ok st1).
    { unfold emitGroup. destruct (stop (em_polls st)); [eexists; reflexivity|].
      rewrite Hk, (decodeKey_marshalKey vs Hshort). simpl.
      rewrite Hlen, Nat.eqb_refl. simpl.
      rewrite List.length_app, List.length_map, Hlen, Hg.
      rewrite (emitInv_length p old st Hinv), Nat.eqb_refl. simpl.
      destruct (addValues _ _ _) as [rcs1 valuesLen1].
      destruct (1000000 <=? valuesLen1); eexists; reflexivity. }
    destruct Hstep as [st1 Hst1]. rewrite Hst1. simpl.
    apply IH.
    + eapply emitGroup_inv; eassumption.
    + intros k g Hin. apply He. right. assumption.
Qed.

(** X8.  [flush] returns, without a panic, on every processor that a run
    of [writeBlock] calls has led to, for a plan with at least one
    function, when the processor has a shard and is not the one case that
    fails: a single shard with no group under a plan without [by] fields.
    The merge finds a processor for every function in every group, every
    key decodes to as many values as the plan has [by] fields, and the
    values of a row are as many as the result columns. *)
Theorem flush_returns_on_reachable_processors (p : plan) (psp : processor) :
  funcs p <> [] ->
  reachable p psp ->
  shards psp <> [] ->
  (forall sh, shards psp = [sh] -> byFields p = [] -> sh_m sh <> ∅) ->
  exists err psp', flush rangeMap psp = Ok (err, psp').
Proof.
  intros Hf Hr Hne Hone.
  destruct (reachable_keys bucketed_len p psp Hr) as [Hp Hk].
  destruct (reachable_shardsSized p psp Hr) as [_ Hs].
  unfold flush. rewrite Hp.
  destruct (stateSizeBudget psp <=? 0).
  { unfold pipeStats_String.
    destruct (List.length (funcs p) =? 0)%nat eqn:Hl.
    - apply Nat.eqb_eq in Hl. destruct (funcs p); [congruence | discriminate].
    - simpl. eexists _, _. reflexivity. }
  destruct (shards psp) as [|sh0 rest] eqn:Hshs; [congruence|].
  unfold shardsOk in Hk. unfold shardsSized in Hs.
  apply Forall_cons in Hk as [Hk0 Hkrest]. apply Forall_cons in Hs as [Hs0 Hsrest].
  destruct (mergeShards_total p (stopCh psp) rest
              {| mg_m := sh_m sh0; mg_polls := polls psp; mg_stopped := false |}
              Hs0 Hsrest) as (mst & Hmerge & Hsm).
  assert (Hkm : keysOk p (mg_m mst)).
  { eapply (mergeShards_keys rangeMap rangeMap_perm); [| |exact Hmerge]; assumption. }
  unfold mergeStates. rewrite Hshs. simpl. rewrite Hmerge. simpl.
  destruct (mg_stopped mst); [eexists _, _; reflexivity|].
  assert (Hzero : exists m shs2,
             zeroRowsCase p sh0 rest (mg_m mst) = Ok (m, shs2)
             /\ keysOk p m /\ groupsSized p m).
  { unfold zeroRowsCase.
    destruct ((List.length (byFields p) =? 0)%nat && (size (mg_m mst) =? 0)%nat) eqn:Hc.
    - apply andb_true_iff in Hc as [Hb Hsz].
      apply Nat.eqb_eq in Hb. apply Nat.eqb_eq in Hsz.
      apply map_size_empty_inv in Hsz.
      destruct rest as [|sh1 rest'].
      + exfalso. simpl in Hmerge. inversion Hmerge; subst mst. simpl in Hsz.
        apply (Hone sh0 eq_refl); [|assumption].
        destruct (byFields p); [reflexivity | discriminate].
      + simpl. apply Forall_cons in Hkrest as [Hk1 _].
        apply Forall_cons in Hsrest as [Hs1 _].
        eexists _, _. split; [reflexivity|]. split.
        * apply getPipeStatsGroup_keys; [assumption|].
          exists []. split; [reflexivity|]. split; [simpl; lia | constructor].
        * apply getPipeStatsGroup_sized. assumption.
    - eexists _, _. split; [reflexivity|]. split; assumption. }
  destruct Hzero as (m & shs2 & Hz & Hkm' & Hsm'). rewrite Hz. simpl.
  destruct (emitGroups_total p (stopCh psp) (rangeMap m) (ppBase_blocks psp)
              {| em_rcs := initResultColumns p; em_valuesLen := 0;
                 em_blocks := ppBase_blocks psp; em_polls := mg_polls mst;
                 em_stopped := false |}) as [est Hest].
  { split; simpl.
    - exists 0%nat. split; [apply initResultColumns_names|].
      unfold initResultColumns. apply fold_append_values, fold_append_values.
      constructor.
    - exists []. split; [reflexivity | constructor]. }
  { intros key psg Hin. apply (rangeMap_lookup rangeMap rangeMap_perm) in Hin.
    split; [eapply Hkm' | eapply Hsm']; eassumption. }
  rewrite Hest. simpl.
  destruct (em_stopped est); eexists _, _; reflexivity.
Qed.

Lemma addValues_rowAt_old (rcs : list resultColumn) (values : list string) (n : Z)
    (rows i : nat) :
  Forall (fun rc => List.length (rc_values rc) = rows) rcs -> (i < rows)%nat ->
  rowAt (fst (addValues rcs values n)) i = rowAt rcs i.
Proof.
  revert values n. induction rcs as [|rc rcs IH]; intros values n Hf Hi.
  - destruct values; reflexivity.
  - destruct values as [|v values]; [reflexivity|]. simpl.
    apply Forall_cons in Hf as [Hrc Hf].
    specialize (IH values (wrap64 (n + len v)) Hf Hi).
    destruct (addValues rcs values (wrap64 (n + len v))) as [rcs' n'].
    simpl in *. unfold rowAt in *. simpl. rewrite IH. f_equal.
    apply app_nth1. lia.
Qed.

Lemma addValues_rowAt_new (rcs : list resultColumn) (values : list string) (n : Z)
    (rows : nat) :
  List.length values = List.length rcs ->
  Forall (fun rc => List.length (rc_values rc) = rows) rcs ->
  rowAt (fst (addValues rcs values n)) rows = values.
Proof.
  revert values n. induction rcs as [|rc rcs IH]; intros values n Hlen Hf.
  - destruct values; [reflexivity | discriminate].
  - destruct values as [|v values]; [discriminate|]. simpl.
    apply Forall_cons in Hf as [Hrc Hf]. simpl in Hlen.
    assert (Hlen' : List.length values = List.length rcs) by lia.
    specialize (IH values (wrap64 (n + len v)) Hlen' Hf).
    destruct (addValues rcs values (wrap64 (n + len v))) as [rcs' n'].
    simpl in *. unfold rowAt in *. simpl. rewrite IH. f_equal.
    rewrite app_nth2 by lia. rewrite Hrc, Nat.sub_diag. reflexivity.
Qed.

Lemma addValues_blockRows (rcs : list resultColumn) (values : list string) (n : Z)
    (rows : nat) :
  rcs <> [] -> List.length values = List.length rcs ->
  Forall (fun rc => List.length (rc_values rc) = rows) rcs ->
  blockRows (fst (addValues rcs values n)) = S rows /\ blockRows rcs = rows.
Proof.
  intros Hne Hlen Hf. destruct rcs as [|rc rcs]; [congruence|].
  destruct values as [|v values]; [discriminate|]. simpl.
  apply Forall_cons in Hf as [Hrc Hf].
  destruct (addValues rcs values (wrap64 (n + len v))) as [rcs' n'].
  simpl. rewrite List.length_app. simpl. split; lia.
Qed.

Lemma addValues_rowsOf (rcs : list resultColumn) (values : list string) (n : Z)
    (rows : nat) :
  rcs <> [] -> List.length values = List.length rcs ->
  Forall (fun rc => List.length (rc_values rc) = rows) rcs ->
  rowsOf (fst (addValues rcs values n)) = rowsOf rcs ++ [values].
Proof.
  intros Hne Hlen Hf. unfold rowsOf.
  destruct (addValues_blockRows rcs values n rows Hne Hlen Hf) as [-> ->].
  rewrite seq_S, List.map_app. simpl. f_equal.
  - apply List.map_ext_in. intros i Hi. apply in_seq in Hi.
    eapply addValues_rowAt_old; [eassumption | lia].
  - rewrite (addValues_rowAt_new rcs values n rows Hlen Hf). reflexivity.
Qed.

Lemma rowsOf_reset (rcs : list resultColumn) : rowsOf (List.map resetValues rcs) = [].
Proof. destruct rcs; reflexivity. Qed.

Lemma emitGroup_rows (p : plan) (stop : nat -> bool) (key : string) (psg : group)
    (old : list (list resultColumn)) (done : list (string * group)) (st st' : emitSt) :
  (forall n, stop n = false) ->
  funcs p <> [] ->
  emitInv p old st -> rowsWritten old done st ->
  emitGroup p stop key psg st = Ok st' ->
  rowsWritten old (done ++ [(key, psg)]) st' /\ em_stopped st' = false.
Proof.
  intros Hstop Hf Hinv (new & Hb & Hrows) H.
  pose proof (emitInv_length p old st Hinv) as Hlen.
  destruct Hinv as [(rows & Hn & Hr) _].
  assert (Hne : em_rcs st <> []).
  { intros Hnil. rewrite Hnil in Hlen. simpl in Hlen.
    destruct (funcs p); [congruence | simpl in Hlen; lia]. }
  unfold emitGroup in H. rewrite Hstop in H. inv_bind H. rename x into values.
  destruct (negb (List.length values =? List.length (byFields p))%nat); [discriminate|].
  destruct (negb (List.length (values ++ List.map finalizeStats (sfps psg))
                  =? List.length (em_rcs st))%nat) eqn:Hc; [discriminate|].
  apply negb_false_iff, Nat.eqb_eq in Hc.
  pose proof (addValues_rowsOf (em_rcs st)
                (values ++ List.map finalizeStats (sfps psg)) (em_valuesLen st)
                rows Hne Hc Hr) as Hadd.
  destruct (addValues (em_rcs st) (values ++ List.map finalizeStats (sfps psg))
              (em_valuesLen st)) as [rcs1 valuesLen1].
  simpl in Hadd.
  assert (Hrow : groupRow (key, psg) (values ++ List.map finalizeStats (sfps psg))).
  { exists values. split; [assumption | reflexivity]. }
  destruct (1000000 <=? valuesLen1); inversion H; subst st'; clear H; simpl.
  - split; [|reflexivity]. exists (rcs1 :: new). simpl. split; [rewrite Hb; reflexivity|].
    rewrite flat_map_app. simpl. rewrite rowsOf_reset, !app_nil_r, Hadd.
    rewrite app_assoc. apply Forall2_app; [assumption|].
    constructor; [assumption | constructor].
  - split; [|reflexivity]. exists new. simpl. split; [assumption|].
    rewrite Hadd, app_assoc. apply Forall2_app; [assumption|].
    constructor; [assumption | constructor].
Qed.

Lemma emitGroups_rows (p : plan) (stop : nat -> bool) (entries : list (string * group))
    (old : list (list resultColumn)) (done : list (string * group)) (st st' : emitSt) :
  (forall n, stop n = false) ->
  funcs p <> [] ->
  emitInv p old st -> rowsWritten old done st -> em_stopped st = false ->
  emitGroups p stop entries st = Ok st' ->
  rowsWritten old (done ++ entries) st' /\ em_stopped st' = false.
Proof.
  intros Hstop Hf. revert done st.
  induction entries as [|[key psg] entries IH]; intros done st Hinv Hrows Hs H;
    simpl in H.
  - inversion H; subst. rewrite app_nil_r. split; assumption.
  - rewrite Hs in H. inv_bind H. rename x into st1.
    destruct (emitGroup_rows p stop key psg old done st st1 Hstop Hf Hinv Hrows Hx)
      as [Hrows1 Hs1].
    replace (done ++ (key, psg) :: entries) with ((done ++ [(key, psg)]) ++ entries)
      by (rewrite <- app_assoc; reflexivity).
    eapply IH; [| | |eassumption]; [|assumption|assumption].
    eapply emitGroup_inv; eassumption.
Qed.

Lemma mergeEntries_not_stopped (stop : nat -> bool) (entries : list (string * group))
    (st st' : mergeSt) :
  (forall n, stop n = false) -> mg_stopped st = false ->
  mergeEntries stop entries st = Ok st' -> mg_stopped st' = false.
Proof.
  intros Hstop. revert st. induction entries as [|[key psg] entries IH];
    intros st Hs H; simpl in H.
  - inversion H; subst. assumption.
  - rewrite Hs, Hstop in H. inv_bind H. eapply IH; [|eassumption]. reflexivity.
Qed.

Lemma mergeShards_not_stopped (stop : nat -> bool) (rest : list shard)
    (st st' : mergeSt) :
  (forall n, stop n = false) -> mg_stopped st = false ->
  mergeShards rangeMap stop rest st = Ok st' -> mg_stopped st' = false.
Proof.
  intros Hstop. revert st. induction rest as [|sh rest IH]; intros st Hs H; simpl in H.
  - inversion H; subst. assumption.
  - rewrite Hs in H. inv_bind H. eapply IH; [|eassumption].
    eapply mergeEntries_not_stopped; eassumption.
Qed.

(** X9.  When the budget is positive and [stopCh] stays open, [flush]
    returns [nil] and writes exactly one row per group of the merged map
    [m], in the order in which the map is iterated: the [by] values that
    the key of the group decodes to, followed by what each processor of the
    group finalizes to.  The rows are spread over the blocks written, in
    their order, and no other row is written. *)
Theorem flush_writes_one_row_per_group
    (psp psp' : processor) (err : option string) (mst : mergeSt) (sh0 : shard)
    (rest : list shard) (m : gmap string group) (shs2 : list shard) :
  funcs (ps psp) <> [] ->
  (forall n, stopCh psp n = false) ->
  0 < stateSizeBudget psp ->
  mergeStates rangeMap psp = Ok (mst, sh0, rest) ->
  zeroRowsCase (ps psp) sh0 rest (mg_m mst) = Ok (m, shs2) ->
  flush rangeMap psp = Ok (err, psp') ->
  err = None
  /\ exists new,
       ppBase_blocks psp' = new ++ ppBase_blocks psp
       /\ Forall2 groupRow (rangeMap m) (flat_map rowsOf (rev new))
       /\ List.length (flat_map rowsOf (rev new)) = size m.
Proof.
  intros Hf Hstop Hpos Hmerge Hzero H. unfold flush in H.
  destruct (stateSizeBudget psp <=? 0) eqn:Hb; [apply Z.leb_le in Hb; lia|].
  rewrite Hmerge in H. simpl in H.
  assert (Hms : mg_stopped mst = false).
  { unfold mergeStates in Hmerge. inv_bind Hmerge. inv_bind Hmerge.
    inversion Hmerge; subst.
    eapply mergeShards_not_stopped; [exact Hstop | | eassumption]. reflexivity. }
  rewrite Hms, Hzero in H. simpl in H. inv_bind H. rename x into est.
  assert (Hinv0 : emitInv (ps psp) (ppBase_blocks psp)
                    {| em_rcs := initResultColumns (ps psp); em_valuesLen := 0;
                       em_blocks := ppBase_blocks psp; em_polls := mg_polls mst;
                       em_stopped := false |}).
  { split; simpl.
    - exists 0%nat. split; [apply initResultColumns_names|].
      unfold initResultColumns. apply fold_append_values, fold_append_values.
      constructor.
    - exists []. split; [reflexivity | constructor]. }
  assert (Hrows0 : rowsWritten (ppBase_blocks psp) []
                     {| em_rcs := initResultColumns (ps psp); em_valuesLen := 0;
                        em_blocks := ppBase_blocks psp; em_polls := mg_polls mst;
                        em_stopped := false |}).
  { exists []. simpl. split; [reflexivity|].
    assert (Hz : rowsOf (initResultColumns (ps psp)) = []).
    { pose proof (fold_append_values (List.map resultName (funcs (ps psp)))
                    (fold_left appendResultColumnWithName
                       (List.map bf_name (byFields (ps psp))) [])
                    (fold_append_values _ [] (Forall_nil_2 _))) as Hall.
      fold (initResultColumns (ps psp)) in Hall.
      unfold rowsOf. destruct (initResultColumns (ps psp)) as [|rc rcs]; [reflexivity|].
      apply Forall_cons in Hall as [Hrc _]. simpl. rewrite Hrc. reflexivity. }
    rewrite Hz. constructor. }
  destruct (emitGroups_rows _ _ _ _ [] _ est Hstop Hf Hinv0 Hrows0 eq_refl Hx)
    as [(new & Hnew & Hrows) Hes].
  rewrite Hes in H. inversion H; subst err psp'; clear H. simpl.
  split; [reflexivity|]. exists (em_rcs est :: new). simpl.
  split; [rewrite Hnew; reflexivity|].
  rewrite flat_map_app. simpl. rewrite app_nil_r. simpl in Hrows.
  split; [assumption|].
  rewrite <- (Forall2_length _ _ _ Hrows).
  rewrite (Permutation_length (rangeMap_perm m)). apply length_map_to_list.
Qed.

Lemma mergeEntries_stopped (stop : nat -> bool) (entries : list (string * group))
    (st st' : mergeSt) :
  mg_stopped st = true -> mergeEntries stop entries st = Ok st' -> st' = st.
Proof.
  intros Hs H. destruct entries as [|[key psg] entries]; simpl in H.
  - inversion H. reflexivity.
  - rewrite Hs in H. inversion H. reflexivity.
Qed.

Lemma mergeShards_stopped (stop : nat -> bool) (rest : list shard) (st st' : mergeSt) :
  mg_stopped st = true -> mergeShards rangeMap stop rest st = Ok st' -> st' = st.
Proof.
  intros Hs H. destruct rest as [|sh rest]; simpl in H.
  - inversion H. reflexivity.
  - rewrite Hs in H. inversion H. reflexivity.
Qed.

Lemma mergeEntries_lookup_other (stop : nat -> bool) (entries : list (string * group))
    (st st' : mergeSt) (k : string) :
  k ∉ List.map fst entries ->
  mergeEntries stop entries st = Ok st' ->
  mg_m st' !! k = mg_m st !! k.
Proof.
  revert st. induction entries as [|[key psg] entries IH]; intros st Hk H; simpl in H.
  - inversion H. reflexivity.
  - simpl in Hk. apply not_elem_of_cons in Hk as [Hne Hk].
    destruct (mg_stopped st); [inversion H; reflexivity|].
    destruct (stop (mg_polls st)); [inversion H; reflexivity|].
    inv_bind H. rename x into m'.
    rewrite (IH _ Hk H). simpl.
    destruct (mg_m st !! key) as [spgBase|].
    + inv_bind Hx. inversion Hx; subst. apply lookup_insert_ne. congruence.
    + inversion Hx; subst. apply lookup_insert_ne. congruence.
Qed.

Lemma mergeEntries_lookup_in (stop : nat -> bool) (entries : list (string * group))
    (st st' : mergeSt) (k : string) (g : group) :
  NoDup (List.map fst entries) ->
  (k, g) ∈ entries ->
  mergeEntries stop entries st = Ok st' ->
  mg_stopped st' = false ->
  mergeInto (mg_m st !! k) (Some g) = Ok (mg_m st' !! k).
Proof.
  revert st. induction entries as [|[key psg] entries IH]; intros st Hnd Hin H Hs';
    simpl in H.
  - apply elem_of_nil in Hin. contradiction.
  - simpl in Hnd. apply NoDup_cons in Hnd as [Hnotin Hnd].
    destruct (mg_stopped st) eqn:Hs; [inversion H; subst; congruence|].
    destruct (stop (mg_polls st)); [inversion H; subst; discriminate|].
    inv_bind H. rename x into m'.
    apply elem_of_cons in Hin as [Heq|Hin].
    + inversion Heq; subst key psg.
      rewrite (mergeEntries_lookup_other _ _ _ _ k Hnotin H). simpl.
      destruct (mg_m st !! k) as [spgBase|].
      * inv_bind Hx. inversion Hx; subst. rewrite lookup_insert_eq, Hx0. reflexivity.
      * inversion Hx; subst. rewrite lookup_insert_eq. reflexivity.
    + assert (Hne : key <> k).
      { intros ->. apply Hnotin. apply (list_elem_of_fmap_2 fst) in Hin. exact Hin. }
      rewrite <- (IH _ Hnd Hin H Hs'). simpl.
      destruct (mg_m st !! key) as [spgBase|].
      * inv_bind Hx. inversion Hx; subst. rewrite lookup_insert_ne by assumption.
        reflexivity.
      * inversion Hx; subst. rewrite lookup_insert_ne by assumption. reflexivity.
Qed.

Lemma rangeMap_NoDup (m : gmap string group) : NoDup (List.map fst (rangeMap m)).
Proof.
  rewrite (rangeMap_perm m). apply NoDup_fst_map_to_list.
Qed.

Lemma mergeEntries_mergeInto (stop : nat -> bool) (m : gmap string group)
    (st st' : mergeSt) (k : string) :
  mergeEntries stop (rangeMap m) st = Ok st' ->
  mg_stopped st' = false ->
  mergeInto (mg_m st !! k) (m !! k) = Ok (mg_m st' !! k).
Proof.
  intros H Hs'. destruct (m !! k) as [g|] eqn:Hl.
  - eapply mergeEntries_lookup_in; [apply rangeMap_NoDup | | eassumption | assumption].
    rewrite (rangeMap_perm m). apply elem_of_map_to_list. assumption.
  - simpl. f_equal. symmetry. eapply mergeEntries_lookup_other; [|eassumption].
    intros Hin. apply list_elem_of_fmap in Hin as ([k' g] & Hk & Hin). simpl in Hk.
    subst k'. apply (rangeMap_lookup rangeMap rangeMap_perm) in Hin. congruence.
Qed.

Lemma mergeShards_mergeAllFrom (stop : nat -> bool) (rest : list shard)
    (st st' : mergeSt) (k : string) :
  mergeShards rangeMap stop rest st = Ok st' ->
  mg_stopped st' = false ->
  mergeAllFrom (mg_m st !! k) (List.map (fun sh => sh_m sh !! k) rest)
  = Ok (mg_m st' !! k).
Proof.
  revert st. induction rest as [|sh rest IH]; intros st H Hs'; simpl in H.
  - inversion H. reflexivity.
  - destruct (mg_stopped st) eqn:Hs; [inversion H; subst; congruence|].
    inv_bind H. rename x into st1.
    assert (Hs1 : mg_stopped st1 = false).
    { destruct (mg_stopped st1) eqn:Hs1; [|reflexivity].
      rewrite (mergeShards_stopped _ _ _ _ Hs1 H) in Hs'. congruence. }
    simpl. rewrite (mergeEntries_mergeInto _ _ _ _ k Hx Hs1). simpl.
    apply IH; assumption.
Qed.

(** X10.  The merge of [flush], when [stopCh] has not stopped it, computes
    for every key the left fold of the groups that the shards hold under
    the key, in the order of the workers: a key that no shard holds is not
    in the merged map, the group of a key that one shard holds is taken as
    it is, and the groups of a key that several shards hold are merged,
    processor by processor with [mergeState], into the group of the first
    of these shards.  The order in which the map of a shard is iterated
    does not matter. *)
Theorem merge_folds_the_groups_of_each_key
    (psp : processor) (mst : mergeSt) (sh0 : shard) (rest : list shard) (k : string) :
  mergeStates rangeMap psp = Ok (mst, sh0, rest) ->
  mg_stopped mst = false ->
  mergeAllFrom None (List.map (fun sh => sh_m sh !! k) (shards psp))
  = Ok (mg_m mst !! k).
Proof.
  intros H Hs. unfold mergeStates in H. inv_bind H. inv_bind H.
  inversion H; subst; clear H.
  destruct (shards psp) as [|sh1 shs]; [discriminate|].
  inversion Hx; subst. simpl in *.
  assert (Hfirst : mergeInto None (sh_m sh0 !! k) = Ok (sh_m sh0 !! k)).
  { destruct (sh_m sh0 !! k); reflexivity. }
  rewrite Hfirst. simpl.
  apply (mergeShards_mergeAllFrom _ _ _ _ k Hx0 Hs).
Qed.

End FlushProperties.

Lemma written_reachable : reachable Examples.planByX Examples.written.
Proof.
  apply (reach_writeBlock _ Examples.writtenOnce Examples.written 1 Examples.block3).
  - apply (reach_writeBlock _
             (newPipeProcessor Examples.planByX 2 Examples.neverStop 100000000)
             _ 0 Examples.block3).
    + apply reach_new.
    + vm_compute. reflexivity.
  - vm_compute. reflexivity.
Qed.

Lemma rowAny_mergeState_total (a b : RowAny.statsRowAnyProcessor) :
  exists c, mergeState a b = Ok c.
Proof. eexists. reflexivity. Qed.

Lemma flush_returns_on_reachable_processors_witness :
  exists err psp', flush Examples.order Examples.written = Ok (err, psp').
Proof.
  apply (flush_returns_on_reachable_processors (HLP := plainHelpers)
           Examples.order order_perm (fun _ v _ => goString_len v)
           rowAny_mergeState_total Examples.planByX Examples.written).
  - discriminate.
  - exact written_reachable.
  - vm_compute. discriminate.
  - intros sh Hsh. vm_compute in Hsh. discriminate.
Defined.

Lemma flush_writes_one_row_per_group_witness :
  None = None (A := string)
  /\ exists new,
       ppBase_blocks Examples.flushed = new ++ ppBase_blocks Examples.written
       /\ Forall2 groupRow
            (Examples.order (mg_m (fst (fst Examples.mergedWritten))))
            (flat_map rowsOf (rev new))
       /\ List.length (flat_map rowsOf (rev new))
          = size (mg_m (fst (fst Examples.mergedWritten))).
Proof.
  apply (flush_writes_one_row_per_group (HLP := plainHelpers)
           Examples.order order_perm Examples.written Examples.flushed None
           (fst (fst Examples.mergedWritten)) (snd (fst Examples.mergedWritten))
           (snd Examples.mergedWritten)
           (mg_m (fst (fst Examples.mergedWritten)))
           (setMap (snd (fst Examples.mergedWritten))
              (mg_m (fst (fst Examples.mergedWritten)))
              :: snd Examples.mergedWritten)).
  - discriminate.
  - reflexivity.
  - vm_compute. reflexivity.
  - vm_compute. reflexivity.
  - vm_compute. reflexivity.
  - vm_compute. reflexivity.
Defined.

Lemma merge_folds_the_groups_of_each_key_witness :
  mergeAllFrom None
    (List.map (fun sh => sh_m sh !! encoding.MarshalBytes "" "a")
       (shards Examples.written))
  = Ok (mg_m (fst (fst Examples.mergedWritten)) !! encoding.MarshalBytes "" "a").
Proof.
  apply (merge_folds_the_groups_of_each_key Examples.order order_perm
           Examples.written (fst (fst Examples.mergedWritten))
           (snd (fst Examples.mergedWritten)) (snd Examples.mergedWritten)
           (encoding.MarshalBytes "" "a")).
  - vm_compute. reflexivity.
  - vm_compute. reflexivity.
Defined.

(** ** More on the parser *)

Section ParserShape.
Context {lexer statsFunc iffilter : Type}.
Context `{LX : Lexer lexer} `{SP : StatsParsers lexer statsFunc iffilter}.
Context `{STR : Stringer statsFunc} `{IFI : IfFilter iffilter}.
Context `{HLP : Helpers}.

Lemma tryParseBucketSize_not_unit (s : string) :
  ~ In s bucketUnitNames ->
  tryParseBucketSize s
  = let '(f, ok) := tryParseFloat64 s in
    if ok then (f, true)
    else
      let '(nsecs, ok) := tryParseDuration s in
      if ok then (float64_of_Z nsecs, true)
      else
        let '(n, ok) := tryParseBytes s in
        if ok then (float64_of_Z n, true)
        else
          let '(n, ok) := tryParseIPv4Mask s in
          if ok then (float64_of_Z n, true)
          else (float64_zero, false).
Proof.
  intros Hn. unfold tryParseBucketSize.
  repeat match goal with
         | |- context [String.eqb s ?u] =>
             destruct (String.eqb_spec s u) as [->|_];
             [exfalso; apply Hn; unfold bucketUnitNames; simpl; tauto|]
         end.
  reflexivity.
Qed.

(** X11.  Every string that [tryParseBucketOffset] accepts is accepted by
    [tryParseBucketSize] too: with the same number, unless it is the name
    of a unit of time, which as a bucket size stands for the length of the
    unit.  A string that is no bucket size is no bucket offset either, and
    both functions then return zero. *)
Theorem bucket_offsets_are_bucket_sizes (s : string) :
  (forall f, tryParseBucketOffset s = (f, true) -> snd (tryParseBucketSize s) = true)
  /\ (forall f, tryParseBucketOffset s = (f, true) -> ~ In s bucketUnitNames ->
         tryParseBucketSize s = (f, true))
  /\ (snd (tryParseBucketSize s) = false ->
        tryParseBucketSize s = (float64_zero, false)
        /\ tryParseBucketOffset s = (float64_zero, false)).
Proof.
  assert (Hnot : ~ In s bucketUnitNames ->
                 forall f, tryParseBucketOffset s = (f, true) ->
                           tryParseBucketSize s = (f, true)).
  { intros Hn f H. rewrite (tryParseBucketSize_not_unit s Hn).
    unfold tryParseBucketOffset in H.
    destruct (tryParseFloat64 s) as [f1 [|]]; [assumption|].
    destruct (tryParseDuration s) as [n1 [|]]; [assumption|].
    destruct (tryParseBytes s) as [n2 [|]]; [assumption|].
    discriminate. }
  assert (Hunit : In s bucketUnitNames -> snd (tryParseBucketSize s) = true).
  { unfold bucketUnitNames. simpl.
    intros [<-|[<-|[<-|[<-|[<-|[<-|[<-|[<-|[]]]]]]]]]; reflexivity. }
  split; [|split].
  - intros f H. destruct (in_dec String.string_dec s bucketUnitNames) as [Hin|Hn].
    + apply Hunit. assumption.
    + rewrite (Hnot Hn f H). reflexivity.
  - intros f H Hn. apply Hnot; assumption.
  - intros Hfail.
    assert (Hn : ~ In s bucketUnitNames).
    { intros Hin. rewrite (Hunit Hin) in Hfail. discriminate. }
    rewrite (tryParseBucketSize_not_unit s Hn) in Hfail |- *.
    unfold tryParseBucketOffset.
    destruct (tryParseFloat64 s) as [f1 [|]]; [discriminate|].
    destruct (tryParseDuration s) as [n1 [|]]; [discriminate|].
    destruct (tryParseBytes s) as [n2 [|]]; [discriminate|].
    destruct (tryParseIPv4Mask s) as [n3 [|]]; [discriminate|].
    split; reflexivity.
Qed.

Lemma parsePipeStatsFunc_recorded lex fn lex' :
  parsePipeStatsFunc lex = Parsed fn lex' -> filterRecorded fn.
Proof.
  unfold parsePipeStatsFunc. intros H.
  destruct (parseStatsFunc lex) as [sf lex1|]; [|discriminate].
  destruct (isKeyword lex1 ["if"%string]).
  - destruct (parseIfFilter lex1) as [iff0 lex2|]; simpl in H; [|discriminate].
    destruct (parseResultName lex2) as [name lex3|]; simpl in H; [|discriminate].
    inversion H; subst. reflexivity.
  - destruct (parseResultName lex1) as [name lex3|]; simpl in H; [|discriminate].
    inversion H; subst. reflexivity.
Qed.

Lemma parsePipeStatsLoop_shape fuel bfs fs lex p lex' :
  Forall filterRecorded fs ->
  parsePipeStatsLoop fuel bfs fs lex = Some (Parsed p lex') ->
  isKeyword lex' ["|"; ")"; ""]%string = true /\ Forall filterRecorded (funcs p).
Proof.
  revert fs lex. induction fuel as [|fuel IH]; intros fs lex Hfs H; simpl in H;
    [discriminate|].
  destruct (parsePipeStatsFunc lex) as [fn lex1|] eqn:Hfn; [|discriminate].
  assert (Hfs1 : Forall filterRecorded (fs ++ [fn])).
  { apply Forall_app. split; [assumption|].
    constructor; [|constructor]. eapply parsePipeStatsFunc_recorded. eassumption. }
  destruct (isKeyword lex1 ["|"; ")"; ""]%string) eqn:Hend.
  - inversion H; subst. simpl. split; assumption.
  - destruct (negb (isKeyword lex1 [","%string])); [discriminate|].
    eapply IH; eassumption.
Qed.

(** X12.  A clause that [parsePipeStats] accepts starts at the keyword
    [stats] and ends where the lexer is at [|], at [)] or at the end of the
    query, and this token is left to the caller.  Every function of the
    plan carries the fields that its filter needs, and none when it has no
    filter, which is what [applyPerFunctionFilters] copies into the block
    of the function.  The plan has a string: [String()] does not run into
    its panic for a plan without functions. *)
Theorem parsed_plan_is_well_formed fuel lex p lex' :
  parsePipeStats fuel lex = Some (Parsed p lex') ->
  isKeyword lex ["stats"%string] = true
  /\ isKeyword lex' ["|"; ")"; ""]%string = true
  /\ Forall filterRecorded (funcs p)
  /\ exists s, pipeStats_String p = Ok s.
Proof.
  intros H.
  destruct (parsePipeStats_inv fuel lex p lex' H) as [_ Hne].
  assert (Hstr : exists s, pipeStats_String p = Ok s).
  { unfold pipeStats_String. destruct (funcs p) as [|fn fs]; [congruence|].
    simpl. eexists. reflexivity. }
  unfold parsePipeStats in H.
  destruct (isKeyword lex ["stats"%string]); simpl in H; [|discriminate].
  split; [reflexivity|].
  assert (Hshape : isKeyword lex' ["|"; ")"; ""]%string = true
                   /\ Forall filterRecorded (funcs p)).
  { destruct (isKeyword (nextToken lex) ["by"; "("]%string).
    - destruct (parseByStatsFields fuel _) as [[bfs lex3|err]|]; try discriminate.
      eapply parsePipeStatsLoop_shape; [constructor | eassumption].
    - eapply parsePipeStatsLoop_shape; [constructor | eassumption]. }
  destruct Hshape as [Hend Hrec]. auto.
Qed.

(** X13.  [parseFieldNamesForStatsFunc] accepts a call of the function
    named, and its list of fields is never empty: a call without fields
    and a call with the field [*] among its fields both give the one field
    [*], and every other call gives exactly the fields parsed between its
    parentheses, none of which is [*]. *)
Theorem stats_func_field_names_are_never_empty fuel lex funcName fields lex' :
  parseFieldNamesForStatsFunc fuel lex funcName = Some (Parsed fields lex') ->
  isKeyword lex [funcName] = true
  /\ fields <> []
  /\ (In "*"%string fields -> fields = ["*"%string])
  /\ exists parsedFields,
       parseFieldNamesInParens fuel (nextToken lex) = Some (Parsed parsedFields lex')
       /\ (parsedFields = [] \/ In "*"%string parsedFields -> fields = ["*"%string])
       /\ (parsedFields <> [] -> ~ In "*"%string parsedFields ->
           fields = parsedFields).
Proof.
  unfold parseFieldNamesForStatsFunc. intros H.
  destruct (isKeyword lex [funcName]); cbn [negb] in H; [|discriminate].
  split; [reflexivity|].
  destruct (parseFieldNamesInParens fuel (nextToken lex)) as [[fs lex1|err]|];
    try discriminate.
  assert (Hstar : existsb (String.eqb "*") fs = true <-> In "*"%string fs).
  { rewrite existsb_exists. split.
    - intros (x & Hin & Hx). apply String.eqb_eq in Hx. subst. assumption.
    - intros Hin. exists "*"%string. split; [assumption | apply String.eqb_refl]. }
  assert (Hlen : (List.length fs =? 0)%nat = true <-> fs = []).
  { rewrite Nat.eqb_eq. destruct fs; simpl; split; intros; congruence. }
  destruct ((List.length fs =? 0)%nat || existsb (String.eqb "*") fs) eqn:Hc;
    inversion H; subst; clear H.
  - split; [discriminate|]. split; [reflexivity|].
    exists fs. split; [reflexivity|]. split; [reflexivity|].
    intros Hne Hn. exfalso. apply orb_true_iff in Hc as [Hc|Hc].
    + apply Hne, Hlen. assumption.
    + apply Hn, Hstar. assumption.
  - apply orb_false_iff in Hc as [Hl Hs].
    assert (Hne : fields <> []).
    { intros He. apply Hlen in He. congruence. }
    assert (Hn : ~ In "*"%string fields).
    { intros Hin. apply Hstar in Hin. congruence. }
    split; [assumption|]. split; [intros Hin; contradiction|].
    exists fields. split; [reflexivity|]. split; [|reflexivity].
    intros [He|Hin]; contradiction.
Qed.

End ParserShape.

Lemma parsed_plan_is_well_formed_witness :
  isKeyword (["stats"; "by"; "("; "host"; ")"; "count"; "("; ")"; "as"; "n"; "|";
              "limit"]%string : tokenLexer) ["stats"%string] = true
  /\ isKeyword (["|"; "limit"]%string : tokenLexer) ["|"; ")"; ""]%string = true
  /\ Forall filterRecorded
       (funcs {| byFields := [ {| bf_name := "host"; bucketSizeStr := "";
                                  bucketSize := float64_zero; bucketOffsetStr := "";
                                  bucketOffset := float64_zero |} ];
                 funcs := [ {| psf_f := {| call_name := "count";
                                           call_fields := ["*"%string] |};
                               neededFieldsForFunc := [];
                               psf_iff := @None filterNoopT;
                               resultName := "n" |} ] |})
  /\ exists s,
       pipeStats_String
         {| byFields := [ {| bf_name := "host"; bucketSizeStr := "";
                             bucketSize := float64_zero; bucketOffsetStr := "";
                             bucketOffset := float64_zero |} ];
            funcs := [ {| psf_f := {| call_name := "count";
                                      call_fields := ["*"%string] |};
                          neededFieldsForFunc := [];
                          psf_iff := @None filterNoopT;
                          resultName := "n" |} ] |} = Ok s.
Proof.
  apply (parsed_plan_is_well_formed (lexer := tokenLexer) 12%nat
           ["stats"; "by"; "("; "host"; ")"; "count"; "("; ")"; "as"; "n"; "|";
            "limit"]%string _ ["|"; "limit"]%string).
  vm_compute. reflexivity.
Defined.

Lemma stats_func_field_names_are_never_empty_witness :
  isKeyword (["sum"; "("; "a"; ","; "b"; ")"; "as"]%string : tokenLexer)
    ["sum"%string] = true
  /\ ["a"; "b"]%string <> []
  /\ (In "*"%string ["a"; "b"]%string -> ["a"; "b"]%string = ["*"%string])
  /\ exists parsedFields,
       parseFieldNamesInParens 8 (nextToken (["sum"; "("; "a"; ","; "b"; ")"; "as"]%string
                                             : tokenLexer))
       = Some (Parsed parsedFields ["as"%string])
       /\ (parsedFields = [] \/ In "*"%string parsedFields ->
           ["a"; "b"]%string = ["*"%string])
       /\ (parsedFields <> [] -> ~ In "*"%string parsedFields ->
           ["a"; "b"]%string = parsedFields).
Proof.
  apply (stats_func_field_names_are_never_empty (lexer := tokenLexer) 8%nat
           ["sum"; "("; "a"; ","; "b"; ")"; "as"]%string "sum" ["a"; "b"]%string
           ["as"%string]).
  vm_compute. reflexivity.
Defined.

(** ** More on [row_any] *)

Section RowAnyCapture.
Import RowAny RowAnyRuns.

Lemma fieldsSize_app (a b : list Field) : fieldsSize (a ++ b) = fieldsSize a + fieldsSize b.
Proof.
  unfold fieldsSize. induction a as [|f a IH]; simpl; [reflexivity|].
  rewrite IH. lia.
Qed.

Lemma fieldsSize_nonneg (a : list Field) : 0 <= fieldsSize a.
Proof.
  unfold fieldsSize. induction a as [|f a IH]; simpl; [lia|].
  pose proof (len_nonneg (Name f)). pose proof (len_nonneg (Value f)). lia.
Qed.

Lemma appendFields_spec (br : blockResult) (rowIdx : nat) (cs : list blockResultColumn)
    (acc acc' : list Field * Z) :
  appendFields br rowIdx cs acc = Ok acc' ->
  exists new,
    fst acc' = fst acc ++ new
    /\ Forall2 (isFieldOf br rowIdx) cs new
    /\ snd acc' = snd acc + fieldsSize new.
Proof.
  revert acc. induction cs as [|c cs IH]; intros acc H; simpl in H.
  - inversion H; subst. exists []. rewrite app_nil_r.
    split; [reflexivity|]. split; [constructor|]. unfold fieldsSize. simpl. lia.
  - inv_bind H. unfold appendField in Hx. inv_bind Hx. rename x0 into v.
    inversion Hx; subst x; clear Hx.
    destruct (IH _ H) as (new & Hf & Hall & Hs). simpl in Hf, Hs.
    exists ({| Name := c_name c; Value := v |} :: new).
    split; [rewrite Hf, <- app_assoc; reflexivity|].
    split.
    + constructor; [split; [reflexivity | assumption] | assumption].
    + rewrite Hs. unfold fieldsSize. simpl. lia.
Qed.

Lemma updateState_spec (sap sap' : statsRowAnyProcessor) (br : blockResult)
    (rowIdx : nat) (n : Z) :
  updateState sap br rowIdx = Ok (sap', n) ->
  exists new,
    fields sap' = fields sap ++ new
    /\ Forall2 (isFieldOf br rowIdx) (fetchedColumns (sa sap) br) new
    /\ n = fieldsSize new
    /\ sa sap' = sa sap /\ captured sap' = captured sap.
Proof.
  unfold updateState. intros H. inv_bind H. destruct x as [fields' inc].
  inversion H; subst; clear H. simpl.
  destruct (appendFields_spec _ _ _ _ _ Hx) as (new & Hf & Hall & Hs).
  simpl in Hf, Hs. exists new. unfold fetchedColumns. repeat split; auto.
Qed.

(** X14.  What [row_any] reports as the growth of its state is what it
    stores: over every sequence of calls of [updateStatsForAllRows] and
    [updateStatsForRow], the sum of the numbers returned is the number of
    bytes of the names and values of the fields added, and it is not
    negative. *)
Theorem row_any_reports_the_bytes_it_stores
    (us : list update) (sap sap' : statsRowAnyProcessor) (n : Z) :
  applyUpdates us sap = Ok (sap', n) ->
  fieldsSize (fields sap') = fieldsSize (fields sap) + n /\ 0 <= n.
Proof.
  revert sap sap' n. induction us as [|u us IH]; intros sap sap' n H; simpl in H.
  - inversion H; subst. lia.
  - inv_bind H. destruct x as [sap1 d1]. inv_bind H. destruct x as [sap2 d2].
    inversion H; subst; clear H.
    destruct (IH _ _ _ Hx0) as [IH1 IH2].
    assert (Hstep : fieldsSize (fields sap1) = fieldsSize (fields sap) + d1 /\ 0 <= d1).
    { destruct u as [br|br rowIdx]; simpl in Hx.
      - unfold updateStatsForAllRows in Hx.
        destruct (rowsLen br =? 0)%nat; [inversion Hx; subst; lia|].
        destruct (captured sap); [inversion Hx; subst; lia|].
        destruct (updateState_spec _ _ _ _ _ Hx) as (new & Hf & _ & Hn & _).
        simpl in Hf. rewrite Hf, fieldsSize_app, Hn.
        pose proof (fieldsSize_nonneg new). lia.
      - unfold updateStatsForRow in Hx.
        destruct (captured sap); [inversion Hx; subst; lia|].
        destruct (updateState_spec _ _ _ _ _ Hx) as (new & Hf & _ & Hn & _).
        simpl in Hf. rewrite Hf, fieldsSize_app, Hn.
        pose proof (fieldsSize_nonneg new). lia. }
    lia.
Qed.

(** X15.  The row that [row_any] captures.  A processor that has not
    captured a row yet takes, from [updateStatsForRow], the row of the
    index given and, from [updateStatsForAllRows] on a block with rows,
    the first row: one field per column read, in the order of the columns,
    with the name of the column and its value at that row.  The columns
    read are all the columns of the block when the function names no
    field, and the columns of the names, in their order, otherwise.  The
    number returned is the size of these fields. *)
Theorem row_any_captures_one_field_per_column
    (sap sap' : statsRowAnyProcessor) (br : blockResult) (rowIdx : nat) (n : Z) :
  captured sap = false ->
  (updateStatsForRow sap br rowIdx = Ok (sap', n) ->
   exists new,
     fields sap' = fields sap ++ new
     /\ Forall2 (isFieldOf br rowIdx) (fetchedColumns (sa sap) br) new
     /\ n = fieldsSize new /\ captured sap' = true)
  /\ (rowsLen br <> 0%nat ->
      updateStatsForAllRows sap br = Ok (sap', n) ->
      exists new,
        fields sap' = fields sap ++ new
        /\ Forall2 (isFieldOf br 0) (fetchedColumns (sa sap) br) new
        /\ n = fieldsSize new /\ captured sap' = true).
Proof.
  intros Hc. split.
  - unfold updateStatsForRow. rewrite Hc. intros H.
    destruct (updateState_spec _ _ _ _ _ H) as (new & Hf & Hall & Hn & _ & Hcap).
    exists new. simpl in *. auto.
  - intros Hrows. unfold updateStatsForAllRows. rewrite Hc.
    destruct (Nat.eqb_spec (rowsLen br) 0); [contradiction|]. intros H.
    destruct (updateState_spec _ _ _ _ _ H) as (new & Hf & Hall & Hn & _ & Hcap).
    exists new. simpl in *. auto.
Qed.

End RowAnyCapture.

Section RowAnyParserProperties.
Context {lexer : Type} `{LX : Lexer lexer} `{HLP : Helpers}.

(** X16.  [parseStatsRowAny] accepts a call of [row_any] and gives the
    fields between its parentheses, unless [*] is among them: then it
    gives no field at all, as for [row_any()].  So no [row_any] that has
    been parsed names the field [*], and one written with [*] reads every
    column of a block. *)
Theorem parsed_row_any_has_no_star
    (fuel : nat) (lex lex' : lexer) (sa0 : RowAny.statsRowAny) :
  parseStatsRowAny fuel lex = Some (Parsed sa0 lex') ->
  isKeyword lex ["row_any"%string] = true
  /\ ~ In "*"%string (RowAny.sa_fields sa0)
  /\ exists parsedFields,
       parseFieldNamesInParens fuel (nextToken lex) = Some (Parsed parsedFields lex')
       /\ (~ In "*"%string parsedFields -> RowAny.sa_fields sa0 = parsedFields)
       /\ (In "*"%string parsedFields \/ parsedFields = [] ->
           RowAny.sa_fields sa0 = []
           /\ forall br, fetchedColumns sa0 br = getColumns br).
Proof.
  unfold parseStatsRowAny. intros H.
  destruct (isKeyword lex ["row_any"%string]); cbn [negb] in H; [|discriminate].
  split; [reflexivity|].
  destruct (parseFieldNamesInParens fuel (nextToken lex)) as [[fs lex1|err]|];
    try discriminate.
  assert (Hstar : existsb (String.eqb "*") fs = true <-> In "*"%string fs).
  { rewrite existsb_exists. split.
    - intros (x & Hin & Hx). apply String.eqb_eq in Hx. subst. assumption.
    - intros Hin. exists "*"%string. split; [assumption | apply String.eqb_refl]. }
  destruct (existsb (String.eqb "*") fs) eqn:Hc; inversion H; subst; clear H; simpl.
  - split; [tauto|]. exists fs. split; [reflexivity|]. split.
    + intros Hn. exfalso. apply Hn, Hstar. reflexivity.
    + intros _. split; reflexivity.
  - assert (Hn : ~ In "*"%string fs).
    { intros Hin. apply Hstar in Hin. discriminate. }
    split; [assumption|]. exists fs. split; [reflexivity|]. split; [reflexivity|].
    intros [Hin| ->]; [contradiction|]. split; reflexivity.
Qed.

End RowAnyParserProperties.

Lemma row_any_reports_the_bytes_it_stores_witness :
  fieldsSize
    (RowAny.fields
       {| RowAny.sa := {| RowAny.sa_fields := [] |}; RowAny.captured := true;
          RowAny.fields := [ {| Name := "x"; Value := "a" |};
                             {| Name := "y"; Value := "c" |} ] |})
  = fieldsSize (RowAny.fields (RowAny.newStatsProcessor {| RowAny.sa_fields := [] |}))
    + 4
  /\ 0 <= 4.
Proof.
  apply (row_any_reports_the_bytes_it_stores
           [RowAnyRuns.ForRow Examples.block3 0; RowAnyRuns.ForAllRows Examples.block3]
           (RowAny.newStatsProcessor {| RowAny.sa_fields := [] |})).
  vm_compute. reflexivity.
Defined.

Lemma row_any_captures_one_field_per_column_witness :
  exists new,
    [ {| Name := "y"; Value := "c" |}; {| Name := "z"; Value := "" |} ] = [] ++ new
    /\ Forall2 (isFieldOf Examples.block3 1)
         (fetchedColumns {| RowAny.sa_fields := ["y"; "z"] |} Examples.block3) new
    /\ 3 = fieldsSize new /\ true = true.
Proof.
  refine (proj1 (row_any_captures_one_field_per_column
                   (RowAny.newStatsProcessor {| RowAny.sa_fields := ["y"; "z"] |})
                   {| RowAny.sa := {| RowAny.sa_fields := ["y"; "z"] |};
                      RowAny.captured := true;
                      RowAny.fields := [ {| Name := "y"; Value := "c" |};
                                         {| Name := "z"; Value := "" |} ] |}
                   Examples.block3 1 3 _) _).
  - reflexivity.
  - vm_compute. reflexivity.
Defined.

Lemma parsed_row_any_has_no_star_witness :
  isKeyword (["row_any"; "("; "a"; ","; "*"; ")"; "as"; "r"]%string : tokenLexer)
    ["row_any"%string] = true
  /\ ~ In "*"%string (RowAny.sa_fields {| RowAny.sa_fields := [] |})
  /\ exists parsedFields,
       parseFieldNamesInParens 8
         (nextToken (["row_any"; "("; "a"; ","; "*"; ")"; "as"; "r"]%string : tokenLexer))
       = Some (Parsed parsedFields ["as"; "r"]%string)
       /\ (~ In "*"%string parsedFields ->
           RowAny.sa_fields {| RowAny.sa_fields := [] |} = parsedFields)
       /\ (In "*"%string parsedFields \/ parsedFields = [] ->
           RowAny.sa_fields {| RowAny.sa_fields := [] |} = []
           /\ forall br, fetchedColumns {| RowAny.sa_fields := [] |} br = getColumns br).
Proof.
  apply (parsed_row_any_has_no_star (lexer := tokenLexer) (HLP := plainHelpers) 8%nat
           ["row_any"; "("; "a"; ","; "*"; ")"; "as"; "r"]%string ["as"; "r"]%string
           {| RowAny.sa_fields := [] |}).
  vm_compute. reflexivity.
Defined.

(** ** The budget of a new processor and the blocks of the functions *)

Section NewProcessor.
Context {statsFunc statsProcessor iffilter : Type}.
Context `{SF : StatsFunc statsFunc statsProcessor} `{IFI : IfFilter iffilter}.
Context `{STR : Stringer statsFunc} `{HLP : Helpers}.

Abbreviation plan := (pipeStats statsFunc iffilter).
Abbreviation shard := (pipeStatsProcessorShard statsProcessor).
Abbreviation processor := (pipeStatsProcessor statsFunc iffilter statsProcessor).

Lemma iter_sub_chunk (W : nat) (allowed : Z) :
  - 2 ^ 63 + Z.of_nat W * stateSizeBudgetChunk <= allowed < 2 ^ 63 ->
  Nat.iter W (fun x => wrap64 (x - stateSizeBudgetChunk)) allowed
  = allowed - Z.of_nat W * stateSizeBudgetChunk.
Proof.
  assert (Hc : stateSizeBudgetChunk = 1048576) by reflexivity.
  induction W as [|W IH]; intros Hr; simpl Nat.iter.
  - lia.
  - rewrite IH by lia. rewrite wrap64_id; [lia|]. unfold int64_range. lia.
Qed.

Lemma sum_replicate (W : nat) (x : Z) :
  fold_right Z.add 0 (replicate W x) = Z.of_nat W * x.
Proof.
  induction W as [|W IH]; [reflexivity|].
  change (replicate (S W) x) with (x :: replicate W x).
  cbn [fold_right]. rewrite IH. lia.
Qed.

(** X17.  [newPipeProcessor] splits the memory allowed between the
    workers and the global budget: every one of the [workersCount] shards
    starts with one chunk and an empty map, the global budget and
    [maxStateSize] are what is left of the memory allowed, and the budgets
    add up to the memory allowed.  So the global budget of a new processor
    is positive exactly when the memory allowed exceeds one chunk per
    worker.  (The memory allowed is taken to be far enough above the least
    [int64] for the subtractions not to wrap around.) *)
Theorem newPipeProcessor_splits_the_allowed_memory
    (p : plan) (workersCount : nat) (stop : nat -> bool) (allowed : Z) :
  - 2 ^ 63 + Z.of_nat workersCount * stateSizeBudgetChunk <= allowed < 2 ^ 63 ->
  maxStateSize (newPipeProcessor (statsProcessor := statsProcessor) p workersCount stop allowed)
  = allowed - Z.of_nat workersCount * stateSizeBudgetChunk
  /\ stateSizeBudget (newPipeProcessor (statsProcessor := statsProcessor) p workersCount stop allowed)
     = maxStateSize (newPipeProcessor (statsProcessor := statsProcessor) p workersCount stop allowed)
  /\ List.length (shards (newPipeProcessor (statsProcessor := statsProcessor) p workersCount stop allowed)) = workersCount
  /\ Forall (fun sh : shard => sh_stateSizeBudget sh = stateSizeBudgetChunk
                               /\ sh_m sh = ∅)
       (shards (newPipeProcessor (statsProcessor := statsProcessor) p workersCount stop allowed))
  /\ totalBudget (newPipeProcessor (statsProcessor := statsProcessor) p workersCount stop allowed) = allowed
  /\ (0 < stateSizeBudget (newPipeProcessor (statsProcessor := statsProcessor) p workersCount stop allowed)
      <-> Z.of_nat workersCount * stateSizeBudgetChunk < allowed).
Proof.
  intros Hr. pose proof (iter_sub_chunk workersCount allowed Hr) as Hiter.
  unfold totalBudget, newPipeProcessor. simpl. rewrite Hiter.
  split; [reflexivity|]. split; [reflexivity|].
  split; [apply length_replicate|].
  split; [apply Forall_replicate; split; reflexivity|].
  split; [|lia].
  assert (Hmap : forall W,
             List.map sh_stateSizeBudget
               (replicate W (newShard (statsProcessor := statsProcessor)))
             = replicate W stateSizeBudgetChunk).
  { intros W. induction W as [|W IH]; [reflexivity|]. simpl. f_equal. apply IH. }
  rewrite Hmap, sum_replicate. lia.
Qed.

(** X18.  The blocks that [applyPerFunctionFilters] hands to the
    functions: one per function of the plan, in their order.  A function
    without a filter, and a function whose filter keeps every row, get the
    block itself; a function whose filter keeps no row gets the block
    without rows; and in every case the block of a function has as many
    rows as its filter keeps.  (The bitmap that the filter returns is
    taken to have one bit per row.) *)
Theorem applyPerFunctionFilters_keeps_the_accepted_rows (p : plan) (br : blockResult) :
  List.length (applyPerFunctionFilters p br) = List.length (funcs p)
  /\ forall j fn b,
       funcs p !! j = Some fn ->
       applyPerFunctionFilters p br !! j = Some b ->
       match psf_iff fn with
       | None => b = br
       | Some iff0 =>
           let bm := applyToBlockResult iff0 br (replicate (rowsLen br) true) in
           (forallb id bm = true -> b = br)
           /\ (forallb id bm = false -> forallb negb bm = true -> b = blockResult_reset)
           /\ (List.length bm = rowsLen br ->
               rowsLen b = List.length (List.filter id bm))
       end.
Proof.
  unfold applyPerFunctionFilters. split; [apply List.length_map|].
  intros j fn b Hfn Hb.
  change (List.map (applyPerFunctionFilter br) (funcs p))
    with (applyPerFunctionFilter br <$> funcs p) in Hb.
  rewrite list_lookup_fmap, Hfn in Hb. simpl in Hb. inversion Hb; subst b; clear Hb.
  unfold applyPerFunctionFilter. destruct (psf_iff fn) as [iff0|]; [|reflexivity].
  simpl.
  set (bm := applyToBlockResult iff0 br (replicate (rowsLen br) true)).
  assert (Hall : forallb id bm = true -> List.filter id bm = bm).
  { clear. induction bm as [|x bm IH]; simpl; [reflexivity|].
    intros H. apply andb_true_iff in H as [Hx H]. unfold id in Hx. rewrite Hx.
    unfold id at 1. simpl. f_equal. apply IH. assumption. }
  assert (Hnone : forallb negb bm = true -> List.filter id bm = []).
  { clear. induction bm as [|x bm IH]; simpl; [reflexivity|].
    intros H. apply andb_true_iff in H as [Hx H]. apply negb_true_iff in Hx.
    rewrite Hx. unfold id at 1. simpl. apply IH. assumption. }
  destruct (forallb id bm) eqn:Hid.
  - split; [reflexivity|]. split; [discriminate|].
    intros Hlen. rewrite (Hall eq_refl). symmetry. assumption.
  - split; [discriminate|].
    destruct (forallb negb bm) eqn:Hneg.
    + split; [reflexivity|]. intros _. rewrite (Hnone eq_refl). reflexivity.
    + split; [discriminate|]. intros _. reflexivity.
Qed.

End NewProcessor.

Lemma newPipeProcessor_splits_the_allowed_memory_witness :
  maxStateSize (newPipeProcessor (statsProcessor := RowAny.statsRowAnyProcessor) Examples.planByX 2 Examples.neverStop 100000000)
  = 100000000 - Z.of_nat 2 * stateSizeBudgetChunk
  /\ stateSizeBudget (newPipeProcessor (statsProcessor := RowAny.statsRowAnyProcessor) Examples.planByX 2 Examples.neverStop 100000000)
     = maxStateSize (newPipeProcessor (statsProcessor := RowAny.statsRowAnyProcessor) Examples.planByX 2 Examples.neverStop 100000000)
  /\ List.length
       (shards (newPipeProcessor (statsProcessor := RowAny.statsRowAnyProcessor) Examples.planByX 2 Examples.neverStop 100000000))
     = 2%nat
  /\ Forall (fun sh : pipeStatsProcessorShard RowAny.statsRowAnyProcessor =>
               sh_stateSizeBudget sh = stateSizeBudgetChunk /\ sh_m sh = ∅)
       (shards (newPipeProcessor (statsProcessor := RowAny.statsRowAnyProcessor) Examples.planByX 2 Examples.neverStop 100000000))
  /\ totalBudget (newPipeProcessor (statsProcessor := RowAny.statsRowAnyProcessor) Examples.planByX 2 Examples.neverStop 100000000)
     = 100000000
  /\ (0 < stateSizeBudget
            (newPipeProcessor (statsProcessor := RowAny.statsRowAnyProcessor) Examples.planByX 2 Examples.neverStop 100000000)
      <-> Z.of_nat 2 * stateSizeBudgetChunk < 100000000).
Proof.
  apply (newPipeProcessor_splits_the_allowed_memory
           (statsProcessor := RowAny.statsRowAnyProcessor) Examples.planByX 2
           Examples.neverStop 100000000).
  unfold stateSizeBudgetChunk. change (Z.shiftl 1 20) with 1048576. lia.
Defined.

(** ** Functions with a filter in the row loops *)

Section FilteredRows.
Context {iffilter : Type} `{IFI : IfFilter iffilter} `{HLP : Helpers}.

Abbreviation rplan := (pipeStats RowAny.statsRowAny iffilter).
Abbreviation rshard := (pipeStatsProcessorShard RowAny.statsRowAnyProcessor).
Abbreviation rgroup := (pipeStatsGroup RowAny.statsRowAnyProcessor).

Lemma updateStatsLoop_at
    (upd : RowAny.statsRowAnyProcessor -> blockResult
           -> res (RowAny.statsRowAnyProcessor * Z))
    (l : list RowAny.statsRowAnyProcessor) (i : nat) (brs : list blockResult) (n : Z)
    (l' : list RowAny.statsRowAnyProcessor) (n' : Z) :
  updateStatsLoop upd l i brs n = Ok (l', n') ->
  forall k sfp b,
    l !! k = Some sfp -> brs !! (i + k)%nat = Some b ->
    exists sfp' d, upd sfp b = Ok (sfp', d) /\ l' !! k = Some sfp'.
Proof.
  revert i n l' n'. induction l as [|sfp0 l IH]; intros i n l' n' H k sfp b Hk Hb;
    simpl in H.
  - rewrite lookup_nil in Hk. discriminate.
  - inv_bind H. rename x into br0. inv_bind H. destruct x as [sfp0' d0].
    inv_bind H. destruct x as [rest' n1]. inversion H; subst; clear H.
    destruct k as [|k].
    + simpl in Hk. inversion Hk; subst sfp0. rewrite Nat.add_0_r in Hb.
      unfold index in Hx. rewrite Hb in Hx. inversion Hx; subst br0.
      exists sfp0', d0. split; [assumption | reflexivity].
    + simpl in Hk. replace (i + S k)%nat with (S i + k)%nat in Hb by lia.
      destruct (IH _ _ _ _ Hx1 k sfp b Hk Hb) as (sfp' & d & Hu & Hl).
      exists sfp', d. split; [assumption | exact Hl].
Qed.

Lemma updateStatsForRow_reset (sfp sfp' : RowAny.statsRowAnyProcessor) (i : nat) (d : Z) :
  RowAny.sa_fields (RowAny.sa sfp) = [] ->
  RowAny.updateStatsForRow sfp blockResult_reset i = Ok (sfp', d) ->
  sfp' = {| RowAny.sa := RowAny.sa sfp; RowAny.captured := true;
            RowAny.fields := RowAny.fields sfp |}.
Proof.
  intros Hf H. unfold RowAny.updateStatsForRow in H.
  destruct (RowAny.captured sfp) eqn:Hc.
  - inversion H; subst. destruct sfp'; simpl in *. subst. reflexivity.
  - unfold RowAny.updateState in H. simpl in H. rewrite Hf in H. simpl in H.
    inversion H; subst. reflexivity.
Qed.

Section OneFunction.
Variables (p : rplan) (j : nat) (fn : pipeStatsFunc RowAny.statsRowAny iffilter).
Variable br : blockResult.
Hypothesis Hfn : funcs p !! j = Some fn.
Hypothesis Hall : RowAny.sa_fields (psf_f fn) = [].
Hypothesis Hbr : applyPerFunctionFilters p br !! j = Some blockResult_reset.

Abbreviation done := (rowCaptured j (psf_f fn)).
Abbreviation started := (rowStarted j (psf_f fn)).

Lemma psg_updateStatsForRow_done (g g' : rgroup) (i : nat) (n : Z) :
  started g ->
  psg_updateStatsForRow g (applyPerFunctionFilters p br) i = Ok (g', n) ->
  done g'.
Proof.
  intros Hs H. unfold psg_updateStatsForRow in H. inv_bind H. destruct x as [l n0].
  inversion H; subst; clear H. unfold rowCaptured. simpl.
  destruct Hs as [Hs|Hs].
  - destruct (updateStatsLoop_at _ _ _ _ _ _ _ Hx j _ blockResult_reset Hs Hbr)
      as (sfp' & d & Hu & Hl).
    simpl in Hu. rewrite Hl. f_equal.
    apply updateStatsForRow_reset in Hu; [|exact Hall]. exact Hu.
  - destruct (updateStatsLoop_at _ _ _ _ _ _ _ Hx j _ blockResult_reset Hs Hbr)
      as (sfp' & d & Hu & Hl).
    simpl in Hu. rewrite Hl. f_equal.
    apply updateStatsForRow_reset in Hu; [|exact Hall]. exact Hu.
Qed.

Lemma getPipeStatsGroup_started (key : string) (sh : rshard) :
  (forall k g, sh_m sh !! k = Some g -> done g) ->
  forall k g, sh_m (snd (getPipeStatsGroup p key sh)) !! k = Some g ->
              (k <> key -> done g) /\ started g.
Proof.
  intros Hinv k g Hl. unfold getPipeStatsGroup in Hl.
  destruct (sh_m sh !! key) as [psg|] eqn:Hkey.
  - simpl in Hl. split; [intros _|left]; eapply Hinv; eassumption.
  - pose proof (newStatsProcessors_map (funcs p) (sh_stateSizeBudget sh)) as Hnew.
    destruct (newStatsProcessors (funcs p) (sh_stateSizeBudget sh)) as [sfps0 budget].
    simpl in Hl, Hnew. destruct (decide (key = k)) as [->|Hne].
    + rewrite lookup_insert_eq in Hl. inversion Hl; subst g; clear Hl.
      split; [congruence|]. right. simpl. rewrite Hnew.
      change (List.map (fun fn0 => fst (newStatsProcessor (psf_f fn0))) (funcs p))
        with ((fun fn0 : pipeStatsFunc RowAny.statsRowAny iffilter =>
                 fst (newStatsProcessor (psf_f fn0))) <$> funcs p).
      rewrite list_lookup_fmap, Hfn. reflexivity.
    + rewrite lookup_insert_ne in Hl by assumption.
      split; [intros _|left]; eapply Hinv; eassumption.
Qed.

Lemma updateGroup_done (sh sh' : rshard) (key : string) (i : nat) :
  (forall k g, sh_m sh !! k = Some g -> (k <> key -> done g) /\ started g) ->
  updateGroup sh key
    (fun psg => psg_updateStatsForRow psg (applyPerFunctionFilters p br) i) = Ok sh' ->
  forall k g, sh_m sh' !! k = Some g -> done g.
Proof.
  intros Hinv H k g Hl. unfold updateGroup in H.
  destruct (sh_m sh !! key) as [psg|] eqn:Hkey; [|discriminate].
  inv_bind H. destruct x as [psg' n]. inversion H; subst; clear H. simpl in Hl.
  destruct (decide (key = k)) as [->|Hne].
  - rewrite lookup_insert_eq in Hl. inversion Hl; subst g.
    eapply psg_updateStatsForRow_done; [|eassumption].
    apply (Hinv k psg Hkey).
  - rewrite lookup_insert_ne in Hl by assumption.
    apply (Hinv k g Hl). congruence.
Qed.

Lemma done_started (sh : rshard) (key : string) :
  (forall k g, sh_m sh !! k = Some g -> done g) ->
  forall k g, sh_m sh !! k = Some g -> (k <> key -> done g) /\ started g.
Proof.
  intros Hinv k g Hl. split; [intros _|left]; eapply Hinv; eassumption.
Qed.

Lemma singleColumnRow_done (values : list string) (i : nat)
    (st st' : rshard * string) :
  (forall k g, sh_m (fst st) !! k = Some g -> done g) ->
  singleColumnRow p values (applyPerFunctionFilters p br) i st = Ok st' ->
  forall k g, sh_m (fst st') !! k = Some g -> done g.
Proof.
  intros Hinv H. destruct st as [sh kb]. unfold singleColumnRow in H.
  inv_bind H. inv_bind H. rename x0 into changed. inv_bind H.
  inversion H; subst; clear H. simpl in *.
  eapply updateGroup_done; [|eassumption].
  destruct changed.
  - apply getPipeStatsGroup_started. assumption.
  - apply done_started. assumption.
Qed.

Lemma multiColumnRow_done (cvs : list (list string)) (i : nat)
    (st st' : rshard * string) :
  (forall k g, sh_m (fst st) !! k = Some g -> done g) ->
  multiColumnRow p cvs (applyPerFunctionFilters p br) i st = Ok st' ->
  forall k g, sh_m (fst st') !! k = Some g -> done g.
Proof.
  intros Hinv H. destruct st as [sh kb]. unfold multiColumnRow in H.
  inv_bind H. rename x into same.
  destruct ((0 <? i)%nat && same).
  - inv_bind H. inversion H; subst; clear H. simpl in *.
    eapply updateGroup_done; [|eassumption]. apply done_started. assumption.
  - inv_bind H. inv_bind H. inversion H; subst; clear H. simpl in *.
    eapply updateGroup_done; [|eassumption].
    apply getPipeStatsGroup_started. assumption.
Qed.

Lemma rowWise_done (sh sh' : rshard) :
  rowWise p br ->
  (forall k g, sh_m sh !! k = Some g -> done g) ->
  shard_writeBlock p sh br = Ok sh' ->
  forall k g, sh_m sh' !! k = Some g -> done g.
Proof.
  intros Hrow Hinv H. unfold rowWise in Hrow. unfold shard_writeBlock in H.
  destruct (byFields p) as [|bf [|bf2 bfs]]; [contradiction| |].
  - destruct Hrow as (Hconst & values & Hv & Hc).
    rewrite Hconst, Hv in H. simpl in H. rewrite Hc in H.
    inv_bind H. destruct x as [sh1 kb]. inversion H; subst; clear H. simpl.
    apply (forRange_inv
             (fun st : rshard * string =>
                forall k g, sh_m (fst st) !! k = Some g -> done g)
             (singleColumnRow p values (applyPerFunctionFilters p br))
             (fun i s s' Hs Hb => singleColumnRow_done values i s s' Hs Hb)
             (rowsLen br) 0%nat (sh, ""%string) (sh1, kb) Hinv Hx).
  - destruct Hrow as (cvs & Hv & Hc).
    rewrite Hv in H. simpl in H. rewrite Hc in H.
    inv_bind H. destruct x as [sh1 kb]. inversion H; subst; clear H. simpl.
    apply (forRange_inv
             (fun st : rshard * string =>
                forall k g, sh_m (fst st) !! k = Some g -> done g)
             (multiColumnRow p cvs (applyPerFunctionFilters p br))
             (fun i s s' Hs Hb => multiColumnRow_done cvs i s s' Hs Hb)
             (rowsLen br) 0%nat (setColumnValues sh cvs, ""%string) (sh1, kb) Hinv Hx).
Qed.

End OneFunction.

(** X19.  In the row loops of [shard.writeBlock], a function is updated
    for every row of the block, with its own block and the index of the row
    in the block of all rows, whether its filter keeps the row or not.  For
    a [row_any] over all the fields whose filter keeps no row of a block
    that is processed row by row, every group that the block makes in a new
    shard ends up with a captured row without fields: the function has
    captured a row of the block without rows, although its filter has
    dropped every row, and it takes no row from later blocks. *)
Theorem row_any_captures_where_its_filter_keeps_no_row
    (p : rplan) (j : nat) (fn : pipeStatsFunc RowAny.statsRowAny iffilter)
    (iff0 : iffilter) (br : blockResult) (sh sh' : rshard) :
  funcs p !! j = Some fn ->
  psf_iff fn = Some iff0 ->
  RowAny.sa_fields (psf_f fn) = [] ->
  forallb id (applyToBlockResult iff0 br (replicate (rowsLen br) true)) = false ->
  forallb negb (applyToBlockResult iff0 br (replicate (rowsLen br) true)) = true ->
  rowWise p br ->
  sh_m sh = ∅ ->
  shard_writeBlock p sh br = Ok sh' ->
  forall key g,
    sh_m sh' !! key = Some g ->
    sfps g !! j = Some (capturedEmpty (psf_f fn))
    /\ forall us, RowAnyRuns.applyUpdates us (capturedEmpty (psf_f fn))
                  = Ok (capturedEmpty (psf_f fn), 0).
Proof.
  intros Hfn Hiff Hall Hid Hneg Hrow Hempty H key g Hl.
  assert (Hbr : applyPerFunctionFilters p br !! j = Some blockResult_reset).
  { unfold applyPerFunctionFilters.
    change (List.map (applyPerFunctionFilter br) (funcs p))
      with (applyPerFunctionFilter br <$> funcs p).
    rewrite list_lookup_fmap, Hfn. simpl. unfold applyPerFunctionFilter.
    rewrite Hiff. simpl. rewrite Hid, Hneg. reflexivity. }
  split.
  - eapply (rowWise_done p j fn br Hfn Hall Hbr sh sh' Hrow); [|exact H|exact Hl].
    intros k g0 Hk. rewrite Hempty, lookup_empty in Hk. discriminate.
  - intros us. apply applyUpdates_captured. reflexivity.
Qed.

Lemma updateAllRowsAt_waiting (p : rplan) (j : nat)
    (fn : pipeStatsFunc RowAny.statsRowAny iffilter) (br : blockResult)
    (sh sh' : rshard) (key : string) :
  funcs p !! j = Some fn ->
  applyPerFunctionFilters p br !! j = Some blockResult_reset ->
  (forall k g, sh_m sh !! k = Some g ->
               sfps g !! j = Some (RowAny.newStatsProcessor (psf_f fn))) ->
  updateAllRowsAt p sh key (applyPerFunctionFilters p br) = Ok sh' ->
  forall k g, sh_m sh' !! k = Some g ->
              sfps g !! j = Some (RowAny.newStatsProcessor (psf_f fn)).
Proof.
  intros Hfn Hbr Hinv H k g Hl. unfold updateAllRowsAt in H.
  assert (Hnew : forall k0 g0,
             sh_m (snd (getPipeStatsGroup p key sh)) !! k0 = Some g0 ->
             sfps g0 !! j = Some (RowAny.newStatsProcessor (psf_f fn))).
  { intros k0 g0 Hl0. unfold getPipeStatsGroup in Hl0.
    destruct (sh_m sh !! key) as [psg|] eqn:Hkey; [eapply Hinv; exact Hl0|].
    pose proof (newStatsProcessors_map (funcs p) (sh_stateSizeBudget sh)) as Hmap.
    destruct (newStatsProcessors (funcs p) (sh_stateSizeBudget sh)) as [sfps0 budget].
    simpl in Hl0, Hmap. destruct (decide (key = k0)) as [->|Hne].
    - rewrite lookup_insert_eq in Hl0. inversion Hl0; subst g0. simpl. rewrite Hmap.
      change (List.map (fun fn0 => fst (newStatsProcessor (psf_f fn0))) (funcs p))
        with ((fun fn0 : pipeStatsFunc RowAny.statsRowAny iffilter =>
                 fst (newStatsProcessor (psf_f fn0))) <$> funcs p).
      rewrite list_lookup_fmap, Hfn. reflexivity.
    - rewrite lookup_insert_ne in Hl0 by assumption. eapply Hinv. exact Hl0. }
  destruct (getPipeStatsGroup p key sh) as [psg0 sh1]. simpl in Hnew.
  unfold updateGroup in H.
  destruct (sh_m sh1 !! key) as [psg|] eqn:Hkey; [|discriminate].
  inv_bind H. destruct x as [psg' n]. inversion H; subst; clear H. simpl in Hl.
  destruct (decide (key = k)) as [->|Hne].
  - rewrite lookup_insert_eq in Hl. inversion Hl; subst g; clear Hl.
    unfold psg_updateStatsForAllRows in Hx. inv_bind Hx. destruct x as [l n0].
    inversion Hx; subst; clear Hx. simpl.
    destruct (updateStatsLoop_at _ _ _ _ _ _ _ Hx0 j _ blockResult_reset
                (Hnew k psg Hkey) Hbr) as (sfp' & d & Hu & Hl').
    simpl in Hu. unfold RowAny.updateStatsForAllRows in Hu. simpl in Hu.
    inversion Hu; subst. exact Hl'.
  - rewrite lookup_insert_ne in Hl by assumption. eapply Hnew. exact Hl.
Qed.

(** X20.  Where a block is not processed row by row (the plan has no [by]
    fields, or their columns are constant over the block), a function
    whose filter keeps no row of the block is updated with the block
    without rows, and [row_any] takes no row from it: in a new shard, the
    processor of the function in the group of the block is still the new
    one, ready to capture a row of a later block. *)
Theorem row_any_waits_where_the_block_is_taken_as_a_whole
    (p : rplan) (j : nat) (fn : pipeStatsFunc RowAny.statsRowAny iffilter)
    (iff0 : iffilter) (br : blockResult) (sh sh' : rshard) :
  funcs p !! j = Some fn ->
  psf_iff fn = Some iff0 ->
  forallb id (applyToBlockResult iff0 br (replicate (rowsLen br) true)) = false ->
  forallb negb (applyToBlockResult iff0 br (replicate (rowsLen br) true)) = true ->
  ~ rowWise p br ->
  sh_m sh = ∅ ->
  shard_writeBlock p sh br = Ok sh' ->
  forall key g,
    sh_m sh' !! key = Some g ->
    sfps g !! j = Some (RowAny.newStatsProcessor (psf_f fn)).
Proof.
  intros Hfn Hiff Hid Hneg Hrow Hempty H.
  assert (Hbr : applyPerFunctionFilters p br !! j = Some blockResult_reset).
  { unfold applyPerFunctionFilters.
    change (List.map (applyPerFunctionFilter br) (funcs p))
      with (applyPerFunctionFilter br <$> funcs p).
    rewrite list_lookup_fmap, Hfn. simpl. unfold applyPerFunctionFilter.
    rewrite Hiff. simpl. rewrite Hid, Hneg. reflexivity. }
  assert (Hinv : forall (sh0 : rshard), sh_m sh0 = sh_m sh ->
             forall k g, sh_m sh0 !! k = Some g ->
                         sfps g !! j = Some (RowAny.newStatsProcessor (psf_f fn))).
  { intros sh0 Hm k g Hl. rewrite Hm, Hempty, lookup_empty in Hl. discriminate. }
  unfold rowWise in Hrow. unfold shard_writeBlock in H.
  destruct (byFields p) as [|bf [|bf2 bfs]].
  - eapply updateAllRowsAt_waiting; [exact Hfn | exact Hbr | | exact H].
    apply Hinv. reflexivity.
  - destruct (isConst (getColumnByName br (bf_name bf))) eqn:Hconst.
    + inv_bind H.
      eapply updateAllRowsAt_waiting; [exact Hfn | exact Hbr | | exact H].
      apply Hinv. reflexivity.
    + inv_bind H. rename x into values.
      destruct (areConstValues values) eqn:Hc.
      * inv_bind H.
        eapply updateAllRowsAt_waiting; [exact Hfn | exact Hbr | | exact H].
        apply Hinv. reflexivity.
      * exfalso. apply Hrow. split; [reflexivity|]. exists values. split; assumption.
  - inv_bind H. rename x into cvs.
    destruct (forallb areConstValues cvs) eqn:Hc.
    + inv_bind H. rename x into vs0. inv_bind H. rename x into sh1.
      inversion H; subst; clear H. simpl.
      eapply updateAllRowsAt_waiting; [exact Hfn | exact Hbr | | eassumption].
      apply Hinv. reflexivity.
    + exfalso. apply Hrow. exists cvs. split; assumption.
Qed.

End FilteredRows.

Lemma row_any_captures_where_its_filter_keeps_no_row_witness :
  sfps {| sfps := [capturedEmpty {| RowAny.sa_fields := [] |}] |} !! 0%nat
  = Some (capturedEmpty
            (psf_f {| psf_f := {| RowAny.sa_fields := [] |}; neededFieldsForFunc := [];
                      psf_iff := Some FilterNone; resultName := "r" |}))
  /\ forall us,
       RowAnyRuns.applyUpdates us
         (capturedEmpty
            (psf_f {| psf_f := {| RowAny.sa_fields := [] |}; neededFieldsForFunc := [];
                      psf_iff := Some FilterNone; resultName := "r" |}))
       = Ok (capturedEmpty
               (psf_f {| psf_f := {| RowAny.sa_fields := [] |};
                         neededFieldsForFunc := [];
                         psf_iff := Some FilterNone; resultName := "r" |}), 0).
Proof.
  apply (row_any_captures_where_its_filter_keeps_no_row (HLP := plainHelpers)
           Examples.planNoRow 0
           {| psf_f := {| RowAny.sa_fields := [] |}; neededFieldsForFunc := [];
              psf_iff := Some FilterNone; resultName := "r" |}
           FilterNone Examples.block3 newShard
           (match shard_writeBlock Examples.planNoRow newShard Examples.block3 with
            | Ok sh => sh
            | Panic _ => newShard
            end))
    with (key := encoding.MarshalBytes "" "b").
  - reflexivity.
  - reflexivity.
  - reflexivity.
  - vm_compute. reflexivity.
  - vm_compute. reflexivity.
  - split; [reflexivity|]. eexists. split; vm_compute; reflexivity.
  - reflexivity.
  - vm_compute. reflexivity.
  - vm_compute. reflexivity.
Defined.

Lemma row_any_waits_where_the_block_is_taken_as_a_whole_witness :
  sfps {| sfps := [RowAny.newStatsProcessor {| RowAny.sa_fields := [] |}] |} !! 0%nat
  = Some (RowAny.newStatsProcessor
            (psf_f {| psf_f := {| RowAny.sa_fields := [] |}; neededFieldsForFunc := [];
                      psf_iff := Some FilterNone; resultName := "r" |})).
Proof.
  apply (row_any_waits_where_the_block_is_taken_as_a_whole (HLP := plainHelpers)
           Examples.planNoRow 0
           {| psf_f := {| RowAny.sa_fields := [] |}; neededFieldsForFunc := [];
              psf_iff := Some FilterNone; resultName := "r" |}
           FilterNone (RowAnyRuns.blockOf "a") newShard
           (match shard_writeBlock Examples.planNoRow newShard (RowAnyRuns.blockOf "a")
            with
            | Ok sh => sh
            | Panic _ => newShard
            end))
    with (key := encoding.MarshalBytes "" "a").
  - reflexivity.
  - reflexivity.
  - vm_compute. reflexivity.
  - vm_compute. reflexivity.
  - intros [_ (values & Hv & Hc)]. vm_compute in Hv. inversion Hv; subst values.
    vm_compute in Hc. discriminate.
  - reflexivity.
  - vm_compute. reflexivity.
  - vm_compute. reflexivity.
Defined.

(** ** The reader of syslog lines *)

Section SyslogProperties.
Import Syslog.

Lemma str_take_length (n : nat) (s : string) :
  String.length (str_take n s) = Nat.min n (String.length s).
Proof.
  revert s. induction n as [|n IH]; intros [|c s]; simpl; auto.
Qed.

Lemma str_drop_length (n : nat) (s : string) :
  String.length (str_drop n s) = (String.length s - n)%nat.
Proof.
  revert s. induction n as [|n IH]; intros [|c s]; simpl; auto.
Qed.

Lemma str_take_drop (n : nat) (s : string) : str_take n s +:+ str_drop n s = s.
Proof.
  revert s. induction n as [|n IH]; intros [|c s]; simpl; try reflexivity.
  rewrite str_app_cons, IH. reflexivity.
Qed.

Lemma str_take_all (n : nat) (s : string) :
  (String.length s <= n)%nat -> str_take n s = s.
Proof.
  revert s. induction n as [|n IH]; intros [|c s] H; simpl in *; try reflexivity;
    [lia|]. rewrite IH by lia. reflexivity.
Qed.

Lemma indexByte_app_found (d : ascii) (a b : string) :
  indexByte d a = None -> indexByte d (a +:+ String d b) = Some (String.length a).
Proof.
  induction a as [|c a IH]; intros H.
  - rewrite str_app_nil_l. simpl. rewrite Ascii.eqb_refl. reflexivity.
  - rewrite str_app_cons. simpl in *. destruct (Ascii.eqb c d); [discriminate|].
    destruct (indexByte d a); [discriminate|]. rewrite IH by reflexivity. reflexivity.
Qed.

Lemma indexByte_app_none (d : ascii) (a b : string) :
  indexByte d a = None -> indexByte d b = None -> indexByte d (a +:+ b) = None.
Proof.
  induction a as [|c a IH]; intros Ha Hb.
  - rewrite str_app_nil_l. assumption.
  - rewrite str_app_cons. simpl in *. destruct (Ascii.eqb c d); [discriminate|].
    destruct (indexByte d a); [discriminate|]. rewrite IH by auto. reflexivity.
Qed.

Lemma indexByte_take (d : ascii) (s : string) (n i : nat) :
  indexByte d s = Some i -> (i < n)%nat -> indexByte d (str_take n s) = Some i.
Proof.
  revert n i. induction s as [|c s IH]; intros n i H Hi; simpl in H; [discriminate|].
  destruct n as [|n]; [lia|]. simpl.
  destruct (Ascii.eqb c d); [assumption|].
  destruct (indexByte d s) as [i0|] eqn:Hs; [|discriminate].
  simpl in H. inversion H; subst i. rewrite (IH n i0) by (auto; lia). reflexivity.
Qed.

Lemma indexByte_take_none (d : ascii) (s : string) (n : nat) :
  indexByte d s = None -> indexByte d (str_take n s) = None.
Proof.
  revert n. induction s as [|c s IH]; intros n H; destruct n as [|n]; simpl in *;
    try reflexivity.
  destruct (Ascii.eqb c d); [discriminate|].
  destruct (indexByte d s); [discriminate|]. rewrite IH by reflexivity. reflexivity.
Qed.

Lemma str_take_app_le (n : nat) (a b : string) :
  (n <= String.length a)%nat -> str_take n (a +:+ b) = str_take n a.
Proof.
  revert a. induction n as [|n IH]; intros a H; [reflexivity|].
  destruct a as [|c a]; simpl in H; [lia|].
  rewrite str_app_cons. simpl. rewrite IH by lia. reflexivity.
Qed.

Lemma str_drop_app_le (n : nat) (a b : string) :
  (n <= String.length a)%nat -> str_drop n (a +:+ b) = str_drop n a +:+ b.
Proof.
  revert a. induction n as [|n IH]; intros a H; [reflexivity|].
  destruct a as [|c a]; simpl in H; [lia|].
  rewrite str_app_cons. simpl. apply IH. lia.
Qed.

Lemma ReadSlice_found (d : ascii) (a b : string) :
  indexByte d a = None -> (String.length a < bufSize)%nat ->
  ReadSlice d (a +:+ String d b)
  = {| data := a +:+ String d ""; rerr := NoErr; rest := b |}.
Proof.
  intros Ha Hlen. unfold ReadSlice.
  rewrite (indexByte_take d _ bufSize (String.length a)
             (indexByte_app_found d a b Ha) Hlen).
  assert (Hsplit : a +:+ String d b = (a +:+ String d "") +:+ b).
  { rewrite str_app_assoc, str_app_cons, str_app_nil_l. reflexivity. }
  assert (Hl : String.length (a +:+ String d "") = S (String.length a)).
  { rewrite str_length_app. simpl. lia. }
  rewrite Hsplit, <- Hl, str_take_app, str_drop_app. reflexivity.
Qed.

Lemma ReadSlice_eof (d : ascii) (s : string) :
  indexByte d s = None -> (String.length s < bufSize)%nat ->
  ReadSlice d s = {| data := s; rerr := EOF; rest := "" |}.
Proof.
  intros Hs Hlen. unfold ReadSlice. rewrite (indexByte_take_none d s bufSize Hs).
  destruct (Nat.leb_spec bufSize (String.length s)); [lia | reflexivity].
Qed.

Lemma ReadSlice_full (d : ascii) (a b : string) :
  indexByte d a = None -> (bufSize <= String.length a)%nat ->
  ReadSlice d (a +:+ b)
  = {| data := str_take bufSize a; rerr := ErrBufferFull;
       rest := str_drop bufSize a +:+ b |}.
Proof.
  intros Ha Hlen. unfold ReadSlice.
  rewrite (str_take_app_le bufSize a b Hlen), (indexByte_take_none d a bufSize Ha).
  rewrite str_length_app.
  destruct (Nat.leb_spec bufSize (String.length a + String.length b)); [|lia].
  rewrite (str_drop_app_le bufSize a b Hlen). reflexivity.
Qed.

Lemma indexByte_drop_none (d : ascii) (s : string) (n : nat) :
  indexByte d s = None -> indexByte d (str_drop n s) = None.
Proof.
  revert n. induction s as [|c s IH]; intros n H; destruct n as [|n]; simpl in *;
    try assumption; try reflexivity.
  destruct (Ascii.eqb c d); [discriminate|].
  destruct (indexByte d s); [discriminate|]. apply IH. reflexivity.
Qed.

Lemma readStuffed_line (b : string) :
  indexByte newline b = None ->
  forall line rest0,
    readStuffed line (b +:+ String newline rest0) = (line +:+ b, rest0).
Proof.
  remember (String.length b) as n eqn:Hn. revert b Hn.
  induction n as [n IH] using lt_wf_ind. intros b Hn Hb line rest0.
  rewrite readStuffed_equation_1.
  destruct (Nat.lt_ge_cases (String.length b) bufSize) as [Hlt|Hge].
  - pose proof (ReadSlice_found newline b rest0 Hb Hlt) as Hr.
    destruct (decide (rerr (ReadSlice newline (b +:+ String newline rest0))
                      = ErrBufferFull)) as [Hd|Hd];
      cbv beta iota delta [readStuffed_unfold_clause_1].
    + rewrite Hr in Hd. discriminate.
    + rewrite Hr. cbn [rerr data rest].
      rewrite str_length_app. cbn [String.length].
      replace (String.length b + 1 - 1)%nat with (String.length b) by lia.
      rewrite str_take_app. reflexivity.
  - pose proof (ReadSlice_full newline b (String newline rest0) Hb Hge) as Hr.
    destruct (decide (rerr (ReadSlice newline (b +:+ String newline rest0))
                      = ErrBufferFull)) as [Hd|Hd];
      cbv beta iota delta [readStuffed_unfold_clause_1].
    + rewrite Hr. cbn [rerr data rest].
      pose proof bufSize_pos as Hpos.
      rewrite (IH (String.length (str_drop bufSize b))) with (b := str_drop bufSize b).
      * rewrite str_app_assoc, str_take_drop. reflexivity.
      * rewrite str_drop_length. lia.
      * reflexivity.
      * apply indexByte_drop_none. assumption.
    + exfalso. apply Hd. rewrite Hr. reflexivity.
Qed.

Lemma isDigit_plain (c : ascii) :
  isDigit c = true -> Ascii.eqb c space = false /\ Ascii.eqb c newline = false.
Proof.
  destruct c as [[] [] [] [] [] [] [] []]; intros H; vm_compute in H;
    try discriminate H; split; reflexivity.
Qed.

Lemma parseUintLoop_plain (s : string) (acc n : Z) :
  parseUintLoop s acc = Some n ->
  indexByte space s = None /\ indexByte newline s = None.
Proof.
  revert acc. induction s as [|c s IH]; intros acc H; simpl in H.
  - split; reflexivity.
  - destruct (isDigit c) eqn:Hc; [|discriminate].
    destruct (2 ^ 64 <=? acc * 10 + (Z_of_byte c - 48)); [discriminate|].
    destruct (IH _ H) as [Hs Hn]. destruct (isDigit_plain c Hc) as [Hcs Hcn].
    simpl. rewrite Hcs, Hcn, Hs, Hn. split; reflexivity.
Qed.

Lemma ParseUint_plain (ds : string) (n : Z) :
  ParseUint ds = Some n ->
  indexByte space ds = None
  /\ exists c ds', ds = String c ds' /\ isDigit c = true.
Proof.
  intros H. destruct ds as [|c ds']; [discriminate|].
  unfold ParseUint in H. split; [eapply parseUintLoop_plain; eassumption|].
  exists c, ds'. split; [reflexivity|]. simpl in H.
  destruct (isDigit c); [reflexivity | discriminate].
Qed.

Lemma skipNewlines_newlines (k : nat) (s : string) :
  skipNewlines (newlines k +:+ s) = skipNewlines s.
Proof.
  induction k as [|k IH].
  - cbn [newlines]. rewrite str_app_nil_l. reflexivity.
  - cbn [newlines]. rewrite str_app_cons. cbn [skipNewlines].
    rewrite Ascii.eqb_refl. assumption.
Qed.

Lemma newlines_length (k : nat) : String.length (newlines k) = k.
Proof. induction k as [|k IH]; simpl; [reflexivity | rewrite IH; reflexivity]. Qed.

Lemma newlines_no_space (k : nat) : indexByte space (newlines k) = None.
Proof. induction k as [|k IH]; simpl; [reflexivity | rewrite IH; reflexivity]. Qed.

(** X21.  [nextLine] reads one message.  After any number of empty lines,
    a message framed by the octet-counting method (its length in digits, a
    space, its bytes) is returned as these bytes, and a message framed by
    the octet-stuffing method (a line with a space in it that does not
    start with a digit) is returned as the line without its newline,
    however long the line is; the stream is left right after the message.
    (The empty lines and the bytes before the first space fit in the
    buffer of the reader.) *)
Theorem nextLine_reads_one_frame
    (maxMsgLen : Z) (slr : syslogLineReader) (k : nat) (f : frame) (rest0 : string) :
  0 <= maxMsgLen < 2 ^ 64 ->
  wellFramed maxMsgLen f ->
  (k + prefixLen f < bufSize)%nat ->
  slr_err slr = None ->
  slr_br slr = newlines k +:+ (encode f +:+ rest0) ->
  nextLine maxMsgLen slr
  = Ok (true, {| slr_line := payload f; slr_br := rest0; slr_err := None |}).
Proof.
  intros Hmax Hf Hlen Herr Hbr. unfold nextLine. rewrite Herr, Hbr.
  destruct f as [ds msg|h t]; simpl in Hf, Hlen; cbn [encode payload].
  - destruct Hf as [Hparse Hle].
    destruct (ParseUint_plain ds _ Hparse) as (Hsp & c & ds' & Hds & Hc).
    destruct (isDigit_plain c Hc) as [_ Hcn].
    assert (Hin : newlines k +:+ ((ds +:+ String space msg) +:+ rest0)
                  = (newlines k +:+ ds) +:+ String space (msg +:+ rest0)).
    { rewrite !str_app_assoc, str_app_cons. reflexivity. }
    rewrite Hin, ReadSlice_found.
    2:{ apply indexByte_app_none; [apply newlines_no_space | assumption]. }
    2:{ rewrite str_length_app, newlines_length. lia. }
    cbn [rerr data rest]. unfold nextLineFrom.
    rewrite str_app_assoc, skipNewlines_newlines.
    assert (Hskip : skipNewlines (ds +:+ String space "") = ds +:+ String space "").
    { rewrite Hds, str_app_cons. simpl. rewrite Hcn. reflexivity. }
    rewrite Hskip.
    assert (Hfirst : byteAt (ds +:+ String space "") 0 = Ok c).
    { rewrite Hds, str_app_cons. reflexivity. }
    rewrite Hfirst. simpl. rewrite Hc.
    rewrite str_length_app. cbn [String.length].
    replace (String.length ds + 1 - 1)%nat with (String.length ds) by lia.
    rewrite str_take_app, Hparse.
    rewrite Z.mod_small by lia.
    destruct (Z.ltb_spec maxMsgLen (len msg)); [lia|].
    unfold ReadFull, len. rewrite Nat2Z.id, str_length_app.
    destruct (Nat.leb_spec (String.length msg) (String.length msg + String.length rest0));
      [|lia].
    rewrite str_take_app, str_drop_app. reflexivity.
  - destruct Hf as (Hno & Hsp & Hnl & Htnl).
    destruct h as [|c h']; [discriminate|]. simpl in Hno.
    apply negb_true_iff in Hno.
    assert (Hcn : Ascii.eqb c newline = false).
    { simpl in Hnl. destruct (Ascii.eqb c newline); [discriminate | reflexivity]. }
    assert (Hin : newlines k
                  +:+ ((String c h' +:+ String space (t +:+ String newline "")) +:+ rest0)
                  = (newlines k +:+ String c h')
                    +:+ String space (t +:+ String newline rest0)).
    { rewrite !str_app_assoc, !str_app_cons, !str_app_assoc, str_app_cons,
        str_app_nil_l. reflexivity. }
    rewrite Hin, ReadSlice_found.
    2:{ apply indexByte_app_none; [apply newlines_no_space | assumption]. }
    2:{ rewrite str_length_app, newlines_length. lia. }
    cbn [rerr data rest]. unfold nextLineFrom.
    rewrite str_app_assoc, skipNewlines_newlines.
    assert (Hskip : skipNewlines (String c h' +:+ String space "")
                    = String c h' +:+ String space "").
    { rewrite str_app_cons. simpl. rewrite Hcn. reflexivity. }
    rewrite Hskip.
    assert (Hfirst : byteAt (String c h' +:+ String space "") 0 = Ok c).
    { rewrite str_app_cons. reflexivity. }
    rewrite Hfirst. simpl. rewrite Hno.
    rewrite (readStuffed_line t Htnl).
    assert (Hline : (String c h' +:+ String space "") +:+ t
                    = String c h' +:+ String space t).
    { rewrite str_app_assoc. f_equal. }
    rewrite Hline. reflexivity.
Qed.

Lemma nextLine_end (maxMsgLen : Z) (slr : syslogLineReader) :
  slr_err slr = None -> slr_br slr = ""%string ->
  nextLine maxMsgLen slr
  = Ok (false, {| slr_line := slr_line slr; slr_br := ""; slr_err := Some ErrEOF |}).
Proof.
  intros Herr Hbr. unfold nextLine. rewrite Herr, Hbr.
  rewrite (ReadSlice_eof space "" eq_refl bufSize_pos). reflexivity.
Qed.

Lemma skipNewlines_only (k : nat) : skipNewlines (newlines k) = ""%string.
Proof.
  induction k as [|k IH]; [reflexivity|].
  cbn [newlines skipNewlines]. rewrite Ascii.eqb_refl. assumption.
Qed.

Lemma nextLine_blank (maxMsgLen : Z) (slr : syslogLineReader) (k : nat) :
  slr_err slr = None -> slr_br slr = newlines (S k) -> (S k < bufSize)%nat ->
  nextLine maxMsgLen slr = Panic "index out of range".
Proof.
  intros Herr Hbr Hlen. unfold nextLine. rewrite Herr, Hbr.
  rewrite (ReadSlice_eof space (newlines (S k)) (newlines_no_space (S k))).
  2:{ rewrite newlines_length. assumption. }
  cbn [rerr data rest]. rewrite newlines_length. cbn [Nat.eqb].
  unfold nextLineFrom. rewrite skipNewlines_only. reflexivity.
Qed.

Lemma processLines_S (processLine : string -> bool) (maxMsgLen : Z) (fuel n : nat)
    (rows : list string) (slr : syslogLineReader) :
  processLines processLine maxMsgLen (S fuel) n rows slr
  = match nextLine maxMsgLen slr with
    | Panic msg => Some (Panic msg)
    | Ok (false, slr') => Some (Ok (Finished rows (Error slr')))
    | Ok (true, slr') =>
        if processLine (slr_line slr') then
          processLines processLine maxMsgLen fuel (S n) (rows ++ [slr_line slr']) slr'
        else Some (Ok (LineFailed rows n))
    end.
Proof. reflexivity. Qed.

Lemma processLines_frames (processLine : string -> bool) (maxMsgLen : Z)
    (fs : list (nat * frame)) :
  0 <= maxMsgLen < 2 ^ 64 ->
  Forall (readable processLine maxMsgLen) fs ->
  forall (fuel n : nat) (rows : list string) (slr : syslogLineReader) (tail : string),
    slr_err slr = None ->
    slr_br slr = stream fs +:+ tail ->
    exists l,
      processLines processLine maxMsgLen (List.length fs + fuel) n rows slr
      = processLines processLine maxMsgLen fuel (List.length fs + n)
          (rows ++ List.map (fun kf => payload (snd kf)) fs)
          {| slr_line := l; slr_br := tail; slr_err := None |}.
Proof.
  intros Hmax Hfs. induction Hfs as [|[k f] fs (Hw & Hlen & Hp) Hfs IH];
    intros fuel n rows slr tail Herr Hbr.
  - exists (slr_line slr). cbn [stream] in Hbr. rewrite str_app_nil_l in Hbr.
    cbn [List.length Nat.add List.map]. rewrite app_nil_r.
    destruct slr as [l b e]. simpl in Herr, Hbr. subst. reflexivity.
  - cbn [stream] in Hbr. rewrite !str_app_assoc in Hbr. simpl in Hw, Hlen, Hp.
    cbn [List.length Nat.add]. rewrite processLines_S.
    rewrite (nextLine_reads_one_frame maxMsgLen slr k f (stream fs +:+ tail)
               Hmax Hw Hlen Herr Hbr).
    cbn [slr_line]. rewrite Hp.
    destruct (IH fuel (S n) (rows ++ [payload f])
                {| slr_line := payload f; slr_br := stream fs +:+ tail;
                   slr_err := None |} tail eq_refl eq_refl) as [l Hl].
    exists l. rewrite Hl. cbn [List.map snd].
    replace (List.length fs + S n)%nat with (S (List.length fs + n)) by lia.
    rewrite <- app_assoc. reflexivity.
Qed.

(** X22.  [processUncompressedStream] splits a stream into its messages.
    For a stream made of frames, by either method and each after any
    number of empty lines, that ends with its last frame, every message is
    handed to [processLine] once, in the order of the stream, and the
    function returns no error: the end of the stream is not one. *)
Theorem processUncompressedStream_reads_the_frames
    (processLine : string -> bool) (maxMsgLen : Z) (fs : list (nat * frame))
    (fuel : nat) :
  0 <= maxMsgLen < 2 ^ 64 ->
  Forall (readable processLine maxMsgLen) fs ->
  (List.length fs < fuel)%nat ->
  processUncompressedStream processLine maxMsgLen fuel (stream fs)
  = Some (Ok (Finished (List.map (fun kf => payload (snd kf)) fs) None)).
Proof.
  intros Hmax Hfs Hfuel. unfold processUncompressedStream.
  replace fuel with (List.length fs + S (fuel - S (List.length fs)))%nat by lia.
  destruct (processLines_frames processLine maxMsgLen fs Hmax Hfs
              (S (fuel - S (List.length fs))) 0 []
              {| slr_line := ""; slr_br := stream fs; slr_err := None |} ""
              eq_refl (eq_sym (str_app_nil_r _))) as [l Hl].
  rewrite Hl, processLines_S, nextLine_end by reflexivity. reflexivity.
Qed.

(** X23.  A stream that goes on, after its last frame, with empty lines
    only, makes [nextLine] fail with a run time panic: the bytes left are
    read as a frame prefix, the loop that skips empty lines leaves nothing
    of it, and [prefix[0]] is out of range.  So does a stream of empty
    lines alone.  The messages before have been processed by then. *)
Theorem stream_ending_in_an_empty_line_panics
    (processLine : string -> bool) (maxMsgLen : Z) (fs : list (nat * frame))
    (k fuel : nat) :
  0 <= maxMsgLen < 2 ^ 64 ->
  Forall (readable processLine maxMsgLen) fs ->
  (S k < bufSize)%nat ->
  (List.length fs < fuel)%nat ->
  processUncompressedStream processLine maxMsgLen fuel (stream fs +:+ newlines (S k))
  = Some (Panic "index out of range").
Proof.
  intros Hmax Hfs Hk Hfuel. unfold processUncompressedStream.
  replace fuel with (List.length fs + S (fuel - S (List.length fs)))%nat by lia.
  destruct (processLines_frames processLine maxMsgLen fs Hmax Hfs
              (S (fuel - S (List.length fs))) 0 []
              {| slr_line := ""; slr_br := stream fs +:+ newlines (S k);
                 slr_err := None |} (newlines (S k)) eq_refl eq_refl) as [l Hl].
  rewrite Hl, processLines_S.
  rewrite (nextLine_blank maxMsgLen
             {| slr_line := l; slr_br := newlines (S k); slr_err := None |}
             k eq_refl eq_refl Hk).
  reflexivity.
Qed.

End SyslogProperties.

Lemma small_prefix (n : nat) : (n < 1000)%nat -> (n < Syslog.bufSize)%nat.
Proof. rewrite Syslog.bufSize_eq. lia. Qed.

Lemma nextLine_reads_one_frame_witness :
  Syslog.nextLine 1000
    {| Syslog.slr_line := ""; Syslog.slr_err := None;
       Syslog.slr_br :=
         Syslog.newlines 1
         +:+ (Syslog.encode (Syslog.Stuffed "<13>Oct" "11 host app: started")
              +:+ "5 hello") |}
  = Ok (true,
        {| Syslog.slr_line :=
             Syslog.payload (Syslog.Stuffed "<13>Oct" "11 host app: started");
           Syslog.slr_br := "5 hello"; Syslog.slr_err := None |}).
Proof.
  apply (nextLine_reads_one_frame 1000
           {| Syslog.slr_line := ""; Syslog.slr_err := None;
              Syslog.slr_br :=
                Syslog.newlines 1
                +:+ (Syslog.encode (Syslog.Stuffed "<13>Oct" "11 host app: started")
                     +:+ "5 hello") |}
           1 (Syslog.Stuffed "<13>Oct" "11 host app: started") "5 hello").
  - lia.
  - repeat split; reflexivity.
  - apply small_prefix. simpl. lia.
  - reflexivity.
  - reflexivity.
Defined.

Lemma two_frames_readable :
  Forall (Syslog.readable (fun _ => true) 1000)
    [ (0%nat, Syslog.Stuffed "<13>Oct" "11 host app: started");
      (1%nat, Syslog.Counted "5" "hello") ].
Proof.
  constructor; [|constructor; [|constructor]].
  - split; [repeat split; reflexivity|]. split; [|reflexivity].
    apply small_prefix. simpl. lia.
  - split; [split; [reflexivity | unfold len; simpl; lia]|]. split; [|reflexivity].
    apply small_prefix. simpl. lia.
Qed.

Lemma processUncompressedStream_reads_the_frames_witness :
  Syslog.processUncompressedStream (fun _ => true) 1000 3
    (Syslog.stream [ (0%nat, Syslog.Stuffed "<13>Oct" "11 host app: started");
                     (1%nat, Syslog.Counted "5" "hello") ])
  = Some (Ok (Syslog.Finished
                (List.map (fun kf => Syslog.payload (snd kf))
                   [ (0%nat, Syslog.Stuffed "<13>Oct" "11 host app: started");
                     (1%nat, Syslog.Counted "5" "hello") ])
                None)).
Proof.
  apply (processUncompressedStream_reads_the_frames (fun _ => true) 1000
           [ (0%nat, Syslog.Stuffed "<13>Oct" "11 host app: started");
             (1%nat, Syslog.Counted "5" "hello") ] 3).
  - lia.
  - exact two_frames_readable.
  - simpl. lia.
Defined.

Lemma stream_ending_in_an_empty_line_panics_witness :
  Syslog.processUncompressedStream (fun _ => true) 1000 3
    (Syslog.stream [ (0%nat, Syslog.Stuffed "<13>Oct" "11 host app: started");
                     (1%nat, Syslog.Counted "5" "hello") ]
     +:+ Syslog.newlines 1)
  = Some (Panic "index out of range").
Proof.
  apply (stream_ending_in_an_empty_line_panics (fun _ => true) 1000
           [ (0%nat, Syslog.Stuffed "<13>Oct" "11 host app: started");
             (1%nat, Syslog.Counted "5" "hello") ] 0 3).
  - lia.
  - exact two_frames_readable.
  - apply small_prefix. lia.
  - simpl. lia.
Defined.
